(** * Model-based projection for linear arithmetic (qe/mbp/mbp_arith.cpp)
      and bit-vector theory parameters (params/theory_bv_params.cpp)

    A shallow embedding of the two source files, and the properties
    of the specification stated and settled against it. *)

From Stdlib Require Import String List ZArith QArith Qround Bool Lia Lqa.
From Stdlib Require Import Sorted.
From Stdlib Require DecimalString DecimalN.
Set Warnings "-register-all,-notation-for-abbreviation".
Import ListNotations.

(* ================================================================== *)
(** * params/theory_bv_params.cpp *)
(* ================================================================== *)

Module BvParams.

(** [bv_mode] of theory_bv_params.h. *)
Inductive bv_mode := BS_NO_BV | BS_BLASTER.

(** The fields of [theory_bv_params], as theory_bv_params.h declares
    them.  Two of the twelve, [m_bv_eq_axioms] and [m_bv_watch_diseq],
    are named nowhere in theory_bv_params.cpp: [updt_params] does not
    assign them and [display] does not print them. *)
Record theory_bv_params := mk_theory_bv_params {
  m_bv_mode : bv_mode;
  m_hi_div0 : bool;
  m_bv_reflect : bool;
  m_bv_lazy_le : bool;
  m_bv_cc : bool;
  m_bv_eq_axioms : bool;
  m_bv_blast_max_size : N;
  m_bv_enable_int2bv2int : bool;
  m_bv_watch_diseq : bool;
  m_bv_delay : bool;
  m_bv_size_reduce : bool;
  m_bv_solver : N
}.

Section UpdtParams.

(** [params_ref] and the two generated accessor classes
    ([smt_params_helper], [bv_rewriter_params]) are declared outside the
    two files; their getters are taken as they are. *)
Variable params_ref : Type.
Variable hi_div0 : params_ref -> bool.          (* bv_rewriter_params *)
Variable bv_reflect : params_ref -> bool.       (* smt_params_helper *)
Variable bv_enable_int2bv : params_ref -> bool.
Variable bv_delay : params_ref -> bool.
Variable bv_size_reduce : params_ref -> bool.
Variable bv_solver : params_ref -> N.

(** [theory_bv_params::updt_params]: six assignments on [this]. *)
Definition updt_params (_p : params_ref) (this : theory_bv_params)
  : theory_bv_params :=
  {| m_bv_mode := m_bv_mode this;
     m_hi_div0 := hi_div0 _p;
     m_bv_reflect := bv_reflect _p;
     m_bv_lazy_le := m_bv_lazy_le this;
     m_bv_cc := m_bv_cc this;
     m_bv_eq_axioms := m_bv_eq_axioms this;
     m_bv_blast_max_size := m_bv_blast_max_size this;
     m_bv_enable_int2bv2int := bv_enable_int2bv _p;
     m_bv_watch_diseq := m_bv_watch_diseq this;
     m_bv_delay := bv_delay _p;
     m_bv_size_reduce := bv_size_reduce _p;
     m_bv_solver := bv_solver _p |}.

End UpdtParams.







End BvParams.

(* ================================================================== *)
(** * qe/mbp/mbp_arith.cpp *)
(* ================================================================== *)

(** ** Outcomes *)

(** A call either returns, or is aborted by [throw default_exception(msg)];
    [null_deref] stands for the reads the source performs without a check
    (a null [def_ref], an index outside [index2expr], [get_arg(0)] of an
    application without arguments), [unreachable] for [UNREACHABLE()],
    and [out_of_fuel] for a recursion or loop bound of the embedding that
    was too small. *)
Inductive error :=
| default_exception (msg : string)
| null_deref
| unreachable
| out_of_fuel.

Inductive result (A : Type) :=
| Ok (a : A)
| Err (e : error).
Arguments Ok {A} a.
Arguments Err {A} e.

Definition bind {A B} (r : result A) (k : A -> result B) : result B :=
  match r with
  | Ok a => k a
  | Err e => Err e
  end.

Notation "x <- r ;; k" := (bind r (fun x => k))
  (at level 61, r at next level, right associativity).
Notation "' p <- r ;; k" := (bind r (fun x => let p := x in k))
  (at level 61, p pattern, r at next level, right associativity).

Definition throw {A} (msg : string) : result A := Err (default_exception msg).
Arguments throw {A} msg%_string.

(** ** Expressions *)

Inductive sort := SBool | SInt | SReal | SOther (name : string).

(** The expression DAG as the file uses it: one constructor per shape the
    recognizers ([is_add], [is_mul], [is_le], ...) tell apart, and [App]
    for every other application (uninterpreted constants have no
    arguments).  Node identity is structural equality. *)
Inductive expr :=
| Num (v : Q) (is_int : bool)
| App (f : string) (range : sort) (args : list expr)
| Add (args : list expr)
| Mul (args : list expr)
| Sub (args : list expr)
| Uminus (t1 : expr)
| Mod (t1 t2 : expr)
| Idiv (t1 t2 : expr)
| Div (t1 t2 : expr)
| Le (e1 e2 : expr)
| Lt (e1 e2 : expr)
| Ge (e1 e2 : expr)
| Gt (e1 e2 : expr)
| Eq (e1 e2 : expr)
| Distinct (args : list expr)
| Not (e : expr)
| And (args : list expr)
| Or (args : list expr)
| Ite (t1 t2 t3 : expr)
| ETrue
| EFalse.

Section ExprInd.
Variable P : expr -> Prop.
Hypothesis HNum : forall v i, P (Num v i).
Hypothesis HApp : forall f r args, Forall P args -> P (App f r args).
Hypothesis HAdd : forall args, Forall P args -> P (Add args).
Hypothesis HMul : forall args, Forall P args -> P (Mul args).
Hypothesis HSub : forall args, Forall P args -> P (Sub args).
Hypothesis HUminus : forall t, P t -> P (Uminus t).
Hypothesis HMod : forall a b, P a -> P b -> P (Mod a b).
Hypothesis HIdiv : forall a b, P a -> P b -> P (Idiv a b).
Hypothesis HDiv : forall a b, P a -> P b -> P (Div a b).
Hypothesis HLe : forall a b, P a -> P b -> P (Le a b).
Hypothesis HLt : forall a b, P a -> P b -> P (Lt a b).
Hypothesis HGe : forall a b, P a -> P b -> P (Ge a b).
Hypothesis HGt : forall a b, P a -> P b -> P (Gt a b).
Hypothesis HEq : forall a b, P a -> P b -> P (Eq a b).
Hypothesis HDistinct : forall args, Forall P args -> P (Distinct args).
Hypothesis HNot : forall e, P e -> P (Not e).
Hypothesis HAnd : forall args, Forall P args -> P (And args).
Hypothesis HOr : forall args, Forall P args -> P (Or args).
Hypothesis HIte : forall a b c, P a -> P b -> P c -> P (Ite a b c).
Hypothesis HTrue : P ETrue.
Hypothesis HFalse : P EFalse.

Fixpoint expr_nested_ind (e : expr) : P e :=
  let fix all (l : list expr) : Forall P l :=
    match l with
    | [] => Forall_nil P
    | x :: r => Forall_cons x (expr_nested_ind x) (all r)
    end in
  match e with
  | Num v i => HNum v i
  | App f r args => HApp f r args (all args)
  | Add args => HAdd args (all args)
  | Mul args => HMul args (all args)
  | Sub args => HSub args (all args)
  | Uminus t => HUminus t (expr_nested_ind t)
  | Mod a b => HMod a b (expr_nested_ind a) (expr_nested_ind b)
  | Idiv a b => HIdiv a b (expr_nested_ind a) (expr_nested_ind b)
  | Div a b => HDiv a b (expr_nested_ind a) (expr_nested_ind b)
  | Le a b => HLe a b (expr_nested_ind a) (expr_nested_ind b)
  | Lt a b => HLt a b (expr_nested_ind a) (expr_nested_ind b)
  | Ge a b => HGe a b (expr_nested_ind a) (expr_nested_ind b)
  | Gt a b => HGt a b (expr_nested_ind a) (expr_nested_ind b)
  | Eq a b => HEq a b (expr_nested_ind a) (expr_nested_ind b)
  | Distinct args => HDistinct args (all args)
  | Not e => HNot e (expr_nested_ind e)
  | And args => HAnd args (all args)
  | Or args => HOr args (all args)
  | Ite a b c => HIte a b c (expr_nested_ind a) (expr_nested_ind b)
                      (expr_nested_ind c)
  | ETrue => HTrue
  | EFalse => HFalse
  end.
End ExprInd.

Definition sort_eqb (a b : sort) : bool :=
  match a, b with
  | SBool, SBool | SInt, SInt | SReal, SReal => true
  | SOther x, SOther y => String.eqb x y
  | _, _ => false
  end.

Definition Q_same (a b : Q) : bool :=
  Z.eqb (Qnum a) (Qnum b) && Pos.eqb (Qden a) (Qden b).

(** Pointer equality of hash-consed nodes. *)
Fixpoint expr_eqb (a b : expr) {struct a} : bool :=
  let fix list_eqb (l1 l2 : list expr) {struct l1} : bool :=
    match l1, l2 with
    | [], [] => true
    | x :: xs, y :: ys => expr_eqb x y && list_eqb xs ys
    | _, _ => false
    end in
  match a, b with
  | Num v i, Num w j => Q_same v w && Bool.eqb i j
  | App f r xs, App g s ys => String.eqb f g && sort_eqb r s && list_eqb xs ys
  | Add xs, Add ys => list_eqb xs ys
  | Mul xs, Mul ys => list_eqb xs ys
  | Sub xs, Sub ys => list_eqb xs ys
  | Uminus x, Uminus y => expr_eqb x y
  | Mod x1 x2, Mod y1 y2 => expr_eqb x1 y1 && expr_eqb x2 y2
  | Idiv x1 x2, Idiv y1 y2 => expr_eqb x1 y1 && expr_eqb x2 y2
  | Div x1 x2, Div y1 y2 => expr_eqb x1 y1 && expr_eqb x2 y2
  | Le x1 x2, Le y1 y2 => expr_eqb x1 y1 && expr_eqb x2 y2
  | Lt x1 x2, Lt y1 y2 => expr_eqb x1 y1 && expr_eqb x2 y2
  | Ge x1 x2, Ge y1 y2 => expr_eqb x1 y1 && expr_eqb x2 y2
  | Gt x1 x2, Gt y1 y2 => expr_eqb x1 y1 && expr_eqb x2 y2
  | Eq x1 x2, Eq y1 y2 => expr_eqb x1 y1 && expr_eqb x2 y2
  | Distinct xs, Distinct ys => list_eqb xs ys
  | Not x, Not y => expr_eqb x y
  | And xs, And ys => list_eqb xs ys
  | Or xs, Or ys => list_eqb xs ys
  | Ite x1 x2 x3, Ite y1 y2 y3 =>
      expr_eqb x1 y1 && expr_eqb x2 y2 && expr_eqb x3 y3
  | ETrue, ETrue => true
  | EFalse, EFalse => true
  | _, _ => false
  end.

Fixpoint get_sort (e : expr) : sort :=
  match e with
  | Num _ is_int => if is_int then SInt else SReal
  | App _ range _ => range
  | Add (x :: _) | Mul (x :: _) | Sub (x :: _) => get_sort x
  | Add [] | Mul [] | Sub [] => SInt
  | Uminus x => get_sort x
  | Mod _ _ | Idiv _ _ => SInt
  | Div _ _ => SReal
  | Ite _ x _ => get_sort x
  | _ => SBool
  end.

Definition is_int (e : expr) : bool :=
  match get_sort e with SInt => true | _ => false end.

(** [imp::is_arith]: [a.is_int_real(e)]. *)
Definition is_arith (e : expr) : bool :=
  match get_sort e with SInt | SReal => true | _ => false end.

Definition is_uninterp_const (e : expr) : bool :=
  match e with App _ _ [] => true | _ => false end.

(** [e] occurs in [t] (as a node of the DAG below [t], [t] included). *)
Fixpoint occurs (e t : expr) {struct t} : bool :=
  let fix any (l : list expr) : bool :=
    match l with
    | [] => false
    | x :: r => occurs e x || any r
    end in
  expr_eqb e t ||
  match t with
  | Num _ _ | ETrue | EFalse => false
  | App _ _ args | Add args | Mul args | Sub args
  | Distinct args | And args | Or args => any args
  | Uminus x | Not x => occurs e x
  | Mod x y | Idiv x y | Div x y | Le x y | Lt x y | Ge x y | Gt x y
  | Eq x y => occurs e x || occurs e y
  | Ite x y z => occurs e x || occurs e y || occurs e z
  end.

(** ** Rationals *)

Definition Qlt_bool (a b : Q) : bool := negb (Qle_bool b a).

(** [mod] and [div] of two rationals that hold integers (math/rational.h);
    the divisor is positive wherever the file calls them. *)
Definition q_mod (a m : Q) : Q := inject_Z (Z.modulo (Qfloor a) (Qfloor m)).
Definition q_div (a m : Q) : Q := inject_Z (Z.div (Qfloor a) (Qfloor m)).

(** ** [obj_map<expr, V>]

    A hash table keyed by node identity.  The embedding keeps the entries
    in insertion order; the source iterates in hash order, which no
    property below depends on. *)
Definition obj_map (V : Type) := list (expr * V).

Fixpoint find {V} (m : obj_map V) (k : expr) : option V :=
  match m with
  | [] => None
  | (k', v) :: r => if expr_eqb k k' then Some v else find r k
  end.

Definition contains {V} (m : obj_map V) (k : expr) : bool :=
  match find m k with Some _ => true | None => false end.

Fixpoint insert {V} (k : expr) (v : V) (m : obj_map V) : obj_map V :=
  match m with
  | [] => [(k, v)]
  | (k', v') :: r =>
      if expr_eqb k k' then (k', v) :: r else (k', v') :: insert k v r
  end.

(** [imp::insert_mul]. *)
Definition insert_mul (x : expr) (v : Q) (ts : obj_map Q) : obj_map Q :=
  match find ts x with
  | Some w => insert x (w + v) ts
  | None => insert x v ts
  end.

(** ** The MBO kernel (math/simplex/model_based_opt.h) *)

Inductive ineq_type := t_eq | t_lt | t_le | t_divides | t_mod | t_div.

Module Var.
(** [model_based_opt::var]. *)
Record t := mk { m_id : nat; m_coeff : Q }.
End Var.
Definition var := Var.t.
Definition vars := list var.

Module Row.
(** [model_based_opt::row], the fields the file reads. *)
Record t := mk {
  m_vars : vars;
  m_coeff : Q;
  m_mod : Q;
  m_type : ineq_type;
  m_id : nat
}.
End Row.
Definition row := Row.t.

(** [model_based_opt::def]: the symbolic definition of an eliminated
    variable. *)
Inductive opt_def :=
| def_add (x y : opt_def)
| def_mul (x y : opt_def)
| def_const (c : Q)
| def_var (v : var)
| def_div (x : opt_def) (m_div : Q).

(** [opt::inf_eps]: [infty * oo + rational + infinitesimal * eps]. *)
Record inf_eps := mk_inf_eps {
  get_infinity : Q;
  get_rational : Q;
  get_infinitesimal : Q
}.
Definition is_finite (v : inf_eps) : bool := Qeq_bool (get_infinity v) 0.

Inductive mbo_call :=
| call_add_constraint (coeffs : vars) (c : Q) (ty : ineq_type)
| call_add_mod (coeffs : vars) (c : Q) (m : Q) (v : nat)
| call_add_div (coeffs : vars) (c : Q) (m : Q) (v : nat)
| call_add_divides (coeffs : vars) (c : Q) (m : Q)
| call_set_objective (coeffs : vars) (c : Q)
| call_project (ids : list nat) (compute_def : bool)
| call_maximize.

(** Modelled from the spec: the MBO kernel, which is not part of the two
    files.  The spec (sections 3 and 6.2) fixes its interface: variables
    are dense indices created by [add_var(value, is_int)]; [add_mod] and
    [add_div] return the id of a fresh variable that denotes
    [(sum + c) mod m], respectively [floor((sum + c) / m)]; the other
    entry points submit a constraint or an objective.  The model is the
    kernel's history: the variables created so far with their values and
    integrality, and the calls received in order.  What the kernel answers
    to [project], [get_live_rows], [maximize] and [get_value] is left to
    the kernel (parameters of the section below). *)
Record model_based_opt := mk_mbo {
  m_var2value : list Q;
  m_var2is_int : list bool;
  m_calls : list mbo_call
}.

Definition mbo_empty : model_based_opt := mk_mbo [] [] [].

Definition record_call (k : mbo_call) (o : model_based_opt) : model_based_opt :=
  mk_mbo (m_var2value o) (m_var2is_int o) (m_calls o ++ [k]).

Definition add_var (value : Q) (is_int : bool) (o : model_based_opt)
  : nat * model_based_opt :=
  (length (m_var2value o),
   mk_mbo (m_var2value o ++ [value]) (m_var2is_int o ++ [is_int]) (m_calls o)).

Definition var_value (o : model_based_opt) (id : nat) : Q :=
  nth id (m_var2value o) 0.

(** The value of [sum coeffs + c] at the kernel's current values. *)
Definition eval_coeffs (o : model_based_opt) (coeffs : vars) (c : Q) : Q :=
  fold_left (fun acc v => acc + Var.m_coeff v * var_value o (Var.m_id v))
            coeffs c.

Definition add_constraint (coeffs : vars) (c : Q) (ty : ineq_type)
    (o : model_based_opt) : model_based_opt :=
  record_call (call_add_constraint coeffs c ty) o.

Definition add_mod (coeffs : vars) (c : Q) (m : Q) (o : model_based_opt)
  : nat * model_based_opt :=
  let '(v, o1) := add_var (q_mod (eval_coeffs o coeffs c) m) true o in
  (v, record_call (call_add_mod coeffs c m v) o1).

Definition add_div (coeffs : vars) (c : Q) (m : Q) (o : model_based_opt)
  : nat * model_based_opt :=
  let '(v, o1) := add_var (q_div (eval_coeffs o coeffs c) m) true o in
  (v, record_call (call_add_div coeffs c m v) o1).

Definition add_divides (coeffs : vars) (c : Q) (m : Q) (o : model_based_opt)
  : model_based_opt :=
  record_call (call_add_divides coeffs c m) o.

Definition set_objective (coeffs : vars) (c : Q) (o : model_based_opt)
  : model_based_opt :=
  record_call (call_set_objective coeffs c) o.

(** ** Model and evaluator *)

(** The model: the interpretation of the uninterpreted constants (a
    declaration is a name and a range) and the [set_inline] flag. *)
Record model := mk_model {
  m_interp : list (string * sort * expr);
  m_inline : bool
}.

Definition set_inline (mdl : model) : model := mk_model (m_interp mdl) true.

Fixpoint register (f : string) (r : sort) (val : expr)
    (l : list (string * sort * expr)) : list (string * sort * expr) :=
  match l with
  | [] => [(f, r, val)]
  | (g, s, w) :: rest =>
      if String.eqb f g && sort_eqb r s then (g, s, val) :: rest
      else (g, s, w) :: register f r val rest
  end.

(** [model::register_decl] for a constant. *)
Definition register_decl (f : string) (r : sort) (val : expr) (mdl : model)
  : model :=
  mk_model (register f r val (m_interp mdl)) (m_inline mdl).

(** [model_evaluator]: a reference to the model and the completion flag. *)
Record model_evaluator := mk_evaluator {
  ev_model : model;
  ev_completion : bool
}.

Definition set_model_completion (b : bool) (ev : model_evaluator)
  : model_evaluator :=
  mk_evaluator (ev_model ev) b.

(** ** Linearization state

    What [linearize] and [extract_coefficients] reach through their
    reference parameters: the kernel, the evaluator, the side-formula
    vector and the map from expressions to kernel variables. *)
Record lin_state := mk_lin_state {
  mbo : model_based_opt;
  ev : model_evaluator;
  fmls : list expr;
  tids : obj_map nat
}.

Definition set_mbo (s : lin_state) (o : model_based_opt) : lin_state :=
  mk_lin_state o (ev s) (fmls s) (tids s).
Definition set_ev (s : lin_state) (e : model_evaluator) : lin_state :=
  mk_lin_state (mbo s) e (fmls s) (tids s).
Definition set_fmls (s : lin_state) (f : list expr) : lin_state :=
  mk_lin_state (mbo s) (ev s) f (tids s).
Definition set_tids (s : lin_state) (t : obj_map nat) : lin_state :=
  mk_lin_state (mbo s) (ev s) (fmls s) t.
Definition push_back (s : lin_state) (f : expr) : lin_state :=
  set_fmls s (fmls s ++ [f]).

(** Two states that differ at most in the contents of [fmls]. *)
Definition agree (s1 s2 : lin_state) : Prop :=
  mbo s1 = mbo s2 /\ ev s1 = ev s2 /\ tids s1 = tids s2.

(** The accumulator of the term linearizer: the constant [c], the
    coefficient map [ts], and the shared state. *)
Record term_acc := mk_acc {
  acc_c : Q;
  acc_ts : obj_map Q;
  acc_st : lin_state
}.

Definition is_true (e : expr) : bool :=
  match e with ETrue => true | _ => false end.
Definition is_false (e : expr) : bool :=
  match e with EFalse => true | _ => false end.

(** [a.is_numeral(e, r)]. *)
Definition is_numeral (e : expr) : option Q :=
  match e with Num r _ => Some r | _ => None end.

(** [std::sort(nums.begin(), nums.end(), compare_second())]: ascending in
    the model value.  (The source's sort is not stable; the order of
    entries with equal values, which the source asserts not to occur, is
    the insertion order here.) *)
Fixpoint sort_insert (x : expr * Q) (l : list (expr * Q)) : list (expr * Q) :=
  match l with
  | [] => [x]
  | y :: r => if Qlt_bool (snd x) (snd y) then x :: y :: r
              else y :: sort_insert x r
  end.

Definition sort_second (l : list (expr * Q)) : list (expr * Q) :=
  fold_left (fun acc x => sort_insert x acc) l [].

(** [map<rational, expr*>::find] of the negated [distinct] arm. *)
Fixpoint find_value (values : list (Q * expr)) (r : Q) : option expr :=
  match values with
  | [] => None
  | (r', e) :: rest => if Qeq_bool r r' then Some e else find_value rest r
  end.

Section Imp.

(** The collaborators outside the file. *)

(** [model_evaluator::operator()]. *)
Variable eval : model_evaluator -> expr -> expr.
(** [arith_util::is_extended_numeral]. *)
Variable is_extended_numeral : expr -> option Q.
(** [mk_not(m, e)] of ast_util.h. *)
Variable mk_not : expr -> expr.
(** [m.inc()]: false once the host has cancelled the call. *)
Variable m_inc : bool.

(** [is_numeral(t2, mul1) && mul1 > 0], the part of the guards at lines
    248, 255 and 261 that reads the divisor. *)
Definition is_numeral_pos (t2 : expr) : option Q :=
  match is_extended_numeral t2 with
  | Some mul1 => if Qlt_bool 0 mul1 then Some mul1 else None
  | None => None
  end.

(** One iteration of the loop of [extract_coefficients]: the kernel id
    of [v], allocated if [tids] has none. *)
Definition id_of (v : expr) (s : lin_state) : result (nat * lin_state) :=
  match find (tids s) v with
  | Some id => Ok (id, s)
  | None =>
      match is_numeral (eval (ev s) v) with
      | Some r =>
          let '(id, o) := add_var r (is_int v) (mbo s) in
          Ok (id, set_tids (set_mbo s o) (insert v id (tids s)))
      | None => throw "mbp evaluation was only partial"
      end
  end.

Fixpoint extract_loop (ts : obj_map Q) (coeffs : vars) (s : lin_state)
  : result (vars * lin_state) :=
  match ts with
  | [] => Ok (coeffs, s)
  | (v, q) :: rest =>
      '(id, s1) <- id_of v s ;;
      extract_loop rest
        (if Qeq_bool q 0 then coeffs else coeffs ++ [Var.mk id q]) s1
  end.

(** [imp::extract_coefficients]. *)
Definition extract_coefficients (ts : obj_map Q) (s : lin_state)
  : result (vars * lin_state) :=
  extract_loop ts [] (set_ev s (set_model_completion true (ev s))).

Definition opaque (t : expr) (mul : Q) (a : term_acc) : term_acc :=
  mk_acc (acc_c a) (insert_mul t mul (acc_ts a)) (acc_st a).

(** [imp::linearize] on a term (lines 197-281).  The arms are tried in
    the order of the source; [t1], [t2], [t3] and [mul1] are the
    source's. *)
Fixpoint linearize_term (t : expr) (mul : Q) (a : term_acc) {struct t}
  : result term_acc :=
  if contains (tids (acc_st a)) t then Ok (opaque t mul a)
  else
    match t with
    | Mul [t1; t2] =>
        match is_extended_numeral t1 with
        | Some mul1 => linearize_term t2 (mul * mul1) a
        | None =>
            match is_extended_numeral t2 with
            | Some mul1 => linearize_term t1 (mul * mul1) a
            | None => Ok (opaque t mul a)
            end
        end
    | Uminus t1 => linearize_term t1 (- mul) a
    | Num mul1 _ => Ok (mk_acc (acc_c a + mul * mul1) (acc_ts a) (acc_st a))
    | Add args =>
        (fix each (l : list expr) (a : term_acc) : result term_acc :=
           match l with
           | [] => Ok a
           | arg :: r => a1 <- linearize_term arg mul a ;; each r a1
           end) args a
    | Sub [t1; t2] =>
        a1 <- linearize_term t1 mul a ;;
        linearize_term t2 (- mul) a1
    | Ite t1 t2 t3 =>
        let val := eval (ev (acc_st a)) t1 in
        if is_true val then
          a1 <- linearize_term t2 mul a ;;
          Ok (mk_acc (acc_c a1) (acc_ts a1) (push_back (acc_st a1) t1))
        else if is_false val then
          linearize_term t3 mul
            (mk_acc (acc_c a) (acc_ts a) (push_back (acc_st a) (mk_not t1)))
        else throw "mbp evaluation didn't produce a truth value"
    | Mod t1 t2 =>
        match is_numeral_pos t2 with
        | Some mul1 =>
            (* line 248: v = t1 mod mul1 *)
            a0 <- linearize_term t1 1 (mk_acc 0 [] (acc_st a)) ;;
            '(coeffs, s1) <- extract_coefficients (acc_ts a0) (acc_st a0) ;;
            let '(v, o) := add_mod coeffs (acc_c a0) mul1 (mbo s1) in
            Ok (mk_acc (acc_c a) (insert_mul t mul (acc_ts a))
                  (set_tids (set_mbo s1 o) (insert t v (tids s1))))
        | None =>
            (* line 255 does not match a mod term; line 261 repeats the
               guard of line 248 *)
            match is_numeral_pos t2 with
            | Some mul1 =>
                match is_numeral (eval (ev (acc_st a)) t) with
                | None => throw "mbp evaluation didn't produce an integer"
                | Some r =>
                    a0 <- linearize_term t1 1 (mk_acc (- r) [] (acc_st a)) ;;
                    '(coeffs, s1) <-
                       extract_coefficients (acc_ts a0) (acc_st a0) ;;
                    Ok (mk_acc (acc_c a + mul * r) (acc_ts a)
                          (set_mbo s1
                             (add_divides coeffs (acc_c a0) mul1 (mbo s1))))
                end
            | None => Ok (opaque t mul a)
            end
        end
    | Idiv t1 t2 =>
        match is_numeral_pos t2 with
        | Some mul1 =>
            (* line 255: v = t1 div mul1 *)
            a0 <- linearize_term t1 1 (mk_acc 0 [] (acc_st a)) ;;
            '(coeffs, s1) <- extract_coefficients (acc_ts a0) (acc_st a0) ;;
            let '(v, o) := add_div coeffs (acc_c a0) mul1 (mbo s1) in
            Ok (mk_acc (acc_c a) (insert_mul t mul (acc_ts a))
                  (set_tids (set_mbo s1 o) (insert t v (tids s1))))
        | None => Ok (opaque t mul a)
        end
    | _ => Ok (opaque t mul a)
    end.

(** The tail of the literal linearizer (lines 188-191). *)
Definition submit (ty : ineq_type) (a : term_acc) : result (bool * lin_state) :=
  '(coeffs, s1) <- extract_coefficients (acc_ts a) (acc_st a) ;;
  Ok (true, set_mbo s1 (add_constraint coeffs (acc_c a) ty (mbo s1))).

(** [linearize(mul, e1); linearize(-mul, e2)] into a fresh accumulator. *)
Definition linearize_diff (mul : Q) (e1 e2 : expr) (s : lin_state)
  : result term_acc :=
  a1 <- linearize_term e1 mul (mk_acc 0 [] s) ;;
  linearize_term e2 (- mul) a1.

(** The first loop of the positive [distinct] arm: the model value of
    every argument, or nothing when one of them is not a numeral. *)
Fixpoint eval_nums (ev0 : model_evaluator) (args : list expr)
  : option (list (expr * Q)) :=
  match args with
  | [] => Some []
  | arg :: r =>
      match is_numeral (eval ev0 arg) with
      | None => None
      | Some q =>
          match eval_nums ev0 r with
          | None => None
          | Some l => Some ((arg, q) :: l)
          end
      end
  end.

(** The loop of the negated [distinct] arm (lines 137-152). *)
Fixpoint find_equal (mul : Q) (args : list expr) (values : list (Q * expr))
    (ty : ineq_type) (a : term_acc) : result (option (ineq_type * term_acc)) :=
  match args with
  | [] => Ok (Some (ty, a))
  | arg1 :: r =>
      match is_numeral (eval (ev (acc_st a)) arg1) with
      | None => Ok None
      | Some q =>
          match find_value values q with
          | Some arg2 =>
              a1 <- linearize_term arg1 mul a ;;
              a2 <- linearize_term arg2 (- mul) a1 ;;
              Ok (Some (t_eq, a2))
          | None => find_equal mul r (values ++ [(q, arg1)]) ty a
          end
      end
  end.

(** The first argument of an [and]/[or] the evaluator gives the wanted
    truth value to. *)
Fixpoint first_with (p : expr -> bool) (args : list expr) : option expr :=
  match args with
  | [] => None
  | arg :: r => if p arg then Some arg else first_with p r
  end.

(** [imp::linearize] on a literal (lines 59-192).  [depth] bounds the
    nested calls: the positive [distinct] arm calls the literal
    linearizer on the [<] atoms it builds, and those do not call it
    again, so 2 is enough for every literal ([linearize_depth]).  The
    DEBUG_CODE block is not part of a release build. *)
Fixpoint linearize (depth : nat) (lit : expr) (s : lin_state) {struct depth}
  : result (bool * lin_state) :=
  match depth with
  | O => Err out_of_fuel
  | S depth' =>
      if negb m_inc then Ok (false, s)
      else
        let is_not := match lit with Not _ => true | _ => false end in
        let lit := match lit with Not l => l | _ => lit end in
        let mul : Q := if is_not then - (1) else 1 in
        match lit with
        | Le e1 e2 | Ge e2 e1 =>
            a <- linearize_diff mul e1 e2 s ;;
            submit (if is_not then t_lt else t_le) a
        | Lt e1 e2 | Gt e2 e1 =>
            a <- linearize_diff mul e1 e2 s ;;
            submit (if is_not then t_le else t_lt) a
        | Eq e1 e2 =>
            if negb (is_arith e1) then Ok (false, s)
            else if negb is_not then
              a <- linearize_diff mul e1 e2 s ;;
              submit t_eq a
            else
              match is_numeral (eval (ev s) e1),
                    is_numeral (eval (ev s) e2) with
              | Some r1, Some r2 =>
                  let '(e1, e2) :=
                    if Qlt_bool r1 r2 then (e2, e1) else (e1, e2) in
                  a <- linearize_diff mul e1 e2 s ;;
                  submit t_lt a
              | _, _ => Ok (false, s)
              end
        | Distinct [] => Err null_deref
        | Distinct ((arg0 :: _) as args) =>
            if negb (is_arith arg0) then Ok (false, s)
            else if negb is_not then
              match eval_nums (ev s) args with
              | None => Ok (false, s)
              | Some nums =>
                  (fix pairs (l : list (expr * Q)) (s : lin_state)
                     : result (bool * lin_state) :=
                     match l with
                     | x :: ((y :: _) as r) =>
                         '(b, s1) <- linearize depth' (Lt (fst x) (fst y)) s ;;
                         if b then pairs r s1 else Ok (false, s1)
                     | _ => Ok (true, s)
                     end) (sort_second nums) s
              end
            else
              r <- find_equal mul args [] t_le (mk_acc 0 [] s) ;;
              match r with
              | None => Ok (false, s)
              | Some (ty, a) => submit ty a
              end
        | And args =>
            if negb is_not then Ok (true, set_fmls s (fmls s ++ args))
            else
              match first_with (fun arg => is_false (eval (ev s) arg)) args with
              | Some arg => Ok (true, push_back s (mk_not arg))
              | None => Ok (false, s)
              end
        | Or args =>
            if is_not then
              Ok (true, set_fmls s (fmls s ++ map mk_not args))
            else
              match first_with (fun arg => is_true (eval (ev s) arg)) args with
              | Some arg => Ok (true, push_back s arg)
              | None => Ok (false, s)
              end
        | _ => Ok (false, s)
        end
  end.

(** *** Projection *)

(** The two flags of [imp]. *)
Variable m_check_purified : bool.
Variable m_apply_projection : bool.
(** [arith_util::mk_add_simplify]. *)
Variable mk_add_simplify : list expr -> expr.
(** [expr_safe_replace]: the substitution built from the pairs inserted
    so far, applied to an expression. *)
Variable safe_replace : list (expr * expr) -> expr -> expr.
(** The kernel's answers, as functions of its history. *)
Variable kernel_project :
  model_based_opt -> list nat -> bool -> list (option opt_def).
Variable kernel_live_rows : model_based_opt -> list row.
Variable kernel_maximize : model_based_opt -> inf_eps.
Variable get_value : model_based_opt -> nat -> Q.
(** The completion flag of a freshly constructed evaluator. *)
Variable default_completion : bool.

Definition mbo_project (ids : list nat) (compute_def : bool)
    (o : model_based_opt) : list (option opt_def) * model_based_opt :=
  (kernel_project o ids compute_def,
   record_call (call_project ids compute_def) o).

Definition mbo_maximize (o : model_based_opt) : inf_eps * model_based_opt :=
  (kernel_maximize o, record_call call_maximize o).

(** [fmls[j] = fml]. *)
Fixpoint set_nth {A} (j : nat) (x : A) (l : list A) : list A :=
  match l, j with
  | [], _ => []
  | _ :: r, O => x :: r
  | y :: r, S j' => y :: set_nth j' x r
  end.

(** The linearization loop of [project] (lines 338-347): [i] runs over
    [fmls], which grows while it is traversed, and the literals that
    are refused are moved to the front, [j] counting them.  ([pinned]
    only keeps references alive.) *)
Fixpoint linearize_loop (fuel i j : nat) (s : lin_state)
  : result (nat * lin_state) :=
  match nth_error (fmls s) i with
  | None => Ok (j, s)
  | Some fml =>
      match fuel with
      | O => Err out_of_fuel
      | S fuel' =>
          '(b, s1) <- linearize 2 fml s ;;
          if b then linearize_loop fuel' (S i) j s1
          else linearize_loop fuel' (S i) (S j)
                 (set_fmls s1 (set_nth j fml (fmls s1)))
      end
  end.

(** The same loop as a work list.  [scan pending s residue s']: the
    literals of [pending] are offered to the linearizer one after the
    other, each in the state (kernel, evaluator, [tids]) the previous
    ones left; the side formulas a call appends to [fmls] join the end
    of the work list; [residue] collects, in order, the literals the
    linearizer returned false on; [s'] is the state at the end. *)
Inductive scan : list expr -> lin_state -> list expr -> lin_state -> Prop :=
| scan_done s : scan [] s [] s
| scan_step fml rest s b s1 side s2 residue s' :
    linearize 2 fml s = Ok (b, s1) ->
    fmls s1 = fmls s ++ side ->
    agree s1 s2 ->
    scan (rest ++ side) s2 residue s' ->
    scan (fml :: rest) s (if b then residue else fml :: residue) s'.

(** Lines 362-376; [None] is the [return false] on cancellation. *)
Fixpoint add_vars (vs : list expr) (s : lin_state)
  : result (option lin_state) :=
  match vs with
  | [] => Ok (Some s)
  | v :: rest =>
      if is_arith v && negb (contains (tids s) v) then
        let val := eval (ev s) v in
        if negb m_inc then Ok None
        else
          match is_numeral val with
          | None => throw "evaluation did not produce a numeral"
          | Some r =>
              let '(id, o) := add_var r (is_int v) (mbo s) in
              add_vars rest (set_tids (set_mbo s o) (insert v id (tids s)))
          end
      else add_vars rest s
  end.

(** The lambda [is_pure] of [project]. *)
Definition is_pure (e : expr) : bool :=
  match e with
  | Mod x y => match is_numeral y with Some _ => true | None => false end
  | Idiv x y =>
      match is_numeral y with Some r => Qlt_bool 0 r | None => false end
  | _ => false
  end.

Definition var_marked (vars0 : list expr) (e : expr) : bool :=
  existsb (expr_eqb e) vars0.

(** The expressions [mark_rec] is called on (lines 389-401); [fmls_mark]
    holds every node below one of them. *)
Definition mark_roots (vars0 : list expr) (s : lin_state) : list expr :=
  map fst (filter (fun kv => is_arith (fst kv) && negb (is_pure (fst kv))
                             && negb (var_marked vars0 (fst kv))) (tids s))
  ++ (if m_check_purified then
        fmls s ++
        map fst (filter (fun kv => negb (var_marked vars0 (fst kv))
                                   && negb (is_pure (fst kv))) (tids s))
      else []).

Definition fmls_marked (roots : list expr) (v : expr) : bool :=
  existsb (occurs v) roots.

(** [ptr_vector::setx(idx, elem, nullptr)]. *)
Fixpoint setx {A} (l : list (option A)) (idx : nat) (x : A)
  : list (option A) :=
  match l, idx with
  | [], O => [Some x]
  | [], S i => None :: setx [] i x
  | _ :: r, O => Some x :: r
  | y :: r, S i => y :: setx r i x
  end.

Definition mk_index2expr (t : obj_map nat) : list (option expr) :=
  fold_left (fun acc kv => setx acc (snd kv) (fst kv)) t [].

(** [index2expr[id]], dereferenced. *)
Definition index (index2expr : list (option expr)) (id : nat) : result expr :=
  match nth_error index2expr id with
  | Some (Some e) => Ok e
  | _ => Err null_deref
  end.

(** Lines 407-415: the variables to eliminate, as kernel ids, and the
    variables that stay. *)
Fixpoint split_vars (roots : list expr) (t : obj_map nat) (vs : list expr)
  : result (list nat * list expr) :=
  match vs with
  | [] => Ok ([], [])
  | v :: rest =>
      if is_arith v && negb (fmls_marked roots v) then
        match find t v with
        | Some id =>
            '(real_vars, kept) <- split_vars roots t rest ;;
            Ok (id :: real_vars, kept)
        | None => Err null_deref
        end
      else
        '(real_vars, kept) <- split_vars roots t rest ;;
        Ok (real_vars, v :: kept)
  end.

(** [u_map<row> def_vars]: the mod and div rows, looked up by the id
    they define; a later insertion replaces an earlier one. *)
Definition is_def_row (r : row) : bool :=
  match Row.m_type r with t_mod | t_div => true | _ => false end.

Definition mk_def_vars (rows : list row) : list row := filter is_def_row rows.

Definition find_def (def_vars : list row) (id : nat) : option row :=
  List.find (fun r => Nat.eqb (Row.m_id r) id) (rev def_vars).

Definition is_one (q : Q) : bool := Qeq_bool q 1.
Definition is_minus_one (q : Q) : bool := Qeq_bool q (- (1)).
Definition is_neg (q : Q) : bool := Qlt_bool q 0.
Definition is_zero (q : Q) : bool := Qeq_bool q 0.
(** [rational::is_int]. *)
Definition q_is_int (q : Q) : bool := Pos.eqb (Qden (Qred q)) 1.

(** The loop body of [row2expr] (lines 505-514), given the expression
    [t] of the variable. *)
Definition scaled (v : var) (t : expr) (ts : list expr) : list expr :=
  match is_numeral t with
  | Some n =>
      if is_zero n then ts
      else ts ++ [Num (Var.m_coeff v * n) (is_int t)]
  | None =>
      if negb (is_one (Var.m_coeff v))
      then ts ++ [Mul [Num (Var.m_coeff v) (is_int t); t]]
      else ts ++ [t]
  end.

(** [imp::row2expr], with [imp::id2expr] inlined where it calls back;
    [fuel] bounds the chain of mod/div rows that refer to one another. *)
Fixpoint row2expr (fuel : nat) (def_vars : list row)
    (index2expr : list (option expr)) (r : row) {struct fuel} : result expr :=
  match fuel with
  | O => Err out_of_fuel
  | S fuel' =>
      let id2expr id :=
        match find_def def_vars id with
        | Some r' => row2expr fuel' def_vars index2expr r'
        | None => index index2expr id
        end in
      ts <- (fix each (l : vars) (ts : list expr) : result (list expr) :=
               match l with
               | [] => Ok ts
               | v :: rest =>
                   t <- id2expr (Var.m_id v) ;;
                   each rest (scaled v t ts)
               end) (Row.m_vars r) [] ;;
      match Row.m_type r with
      | t_mod =>
          match ts with
          | [] => Ok (Num (q_mod (Row.m_coeff r) (Row.m_mod r)) true)
          | _ =>
              let ts := if negb (is_zero (Row.m_coeff r))
                        then ts ++ [Num (Row.m_coeff r) true] else ts in
              Ok (Mod (mk_add_simplify ts) (Num (Row.m_mod r) true))
          end
      | t_div =>
          match ts with
          | [] => Ok (Num (q_div (Row.m_coeff r) (Row.m_mod r)) true)
          | _ =>
              let ts := if negb (is_zero (Row.m_coeff r))
                        then ts ++ [Num (Row.m_coeff r) true] else ts in
              Ok (Idiv (mk_add_simplify ts) (Num (Row.m_mod r) true))
          end
      | t_divides => Ok (mk_add_simplify (ts ++ [Num (Row.m_coeff r) true]))
      | _ => Ok (mk_add_simplify ts)
      end
  end.

(** [imp::id2expr]. *)
Definition id2expr (fuel : nat) (def_vars : list row)
    (index2expr : list (option expr)) (id : nat) : result expr :=
  match find_def def_vars id with
  | Some r => row2expr fuel def_vars index2expr r
  | None => index index2expr id
  end.

(** The sign-normalized literal of lines 556-571. *)
Definition row2fml_neg (fuel : nat) (def_vars : list row)
    (index2expr : list (option expr)) (r : row) (v : var) : result expr :=
  t <- id2expr fuel def_vars index2expr (Var.m_id v) ;;
  let t := if negb (is_minus_one (Var.m_coeff v))
           then Mul [Num (- Var.m_coeff v) (is_int t); t] else t in
  let s := Num (Row.m_coeff r) (is_int t) in
  match Row.m_type r with
  | t_lt => Ok (Gt t s)
  | t_le => Ok (Ge t s)
  | t_eq => Ok (Eq t s)
  | _ => Err unreachable
  end.

(** The general literal of lines 573-586; [UNREACHABLE] for the kinds
    that were skipped before. *)
Definition row2fml (fuel : nat) (def_vars : list row)
    (index2expr : list (option expr)) (r : row) : result expr :=
  t <- row2expr fuel def_vars index2expr r ;;
  let s := Num (- Row.m_coeff r) (q_is_int (Row.m_coeff r) && is_int t) in
  match Row.m_type r with
  | t_lt => Ok (Lt t s)
  | t_le => Ok (Le t s)
  | t_eq => Ok (Eq t s)
  | t_divides => Ok (Eq (Mod t (Num (Row.m_mod r) true)) (Num 0 true))
  | _ => Err unreachable
  end.

(** The rows [rows2fmls] does not [continue] over. *)
Definition reified (r : row) : bool :=
  match Row.m_vars r with
  | [] => false
  | _ => negb (is_def_row r)
  end.

Definition sign_normalized (r : row) : option var :=
  match Row.m_vars r with
  | [v] =>
      if is_neg (Var.m_coeff v) &&
         match Row.m_type r with
         | t_eq | t_le | t_lt => true
         | _ => false
         end
      then Some v else None
  | _ => None
  end.

(** The literal [rows2fmls] pushes for a row it does not skip. *)
Definition reify_row (fuel : nat) (def_vars : list row)
    (index2expr : list (option expr)) (r : row) : result expr :=
  match sign_normalized r with
  | Some v => row2fml_neg fuel def_vars index2expr r v
  | None => row2fml fuel def_vars index2expr r
  end.

(** [imp::rows2fmls]. *)
Fixpoint rows2fmls (fuel : nat) (def_vars : list row) (rows : list row)
    (index2expr : list (option expr)) (fmls0 : list expr)
  : result (list expr) :=
  match rows with
  | [] => Ok fmls0
  | r :: rest =>
      if negb (reified r) then
        rows2fmls fuel def_vars rest index2expr fmls0
      else
        t <- reify_row fuel def_vars index2expr r ;;
        rows2fmls fuel def_vars rest index2expr (fmls0 ++ [t])
  end.

(** [imp::from_def]. *)
Fixpoint from_def (fuel : nat) (def_vars : list row) (d : opt_def)
    (is_int0 : bool) (index2expr : list (option expr)) : result expr :=
  match d with
  | def_add x y =>
      tx <- from_def fuel def_vars x is_int0 index2expr ;;
      ty <- from_def fuel def_vars y is_int0 index2expr ;;
      Ok (Add [tx; ty])
  | def_mul x y =>
      tx <- from_def fuel def_vars x is_int0 index2expr ;;
      ty <- from_def fuel def_vars y is_int0 index2expr ;;
      Ok (Mul [tx; ty])
  | def_const c => Ok (Num c is_int0)
  | def_var v =>
      t <- id2expr fuel def_vars index2expr (Var.m_id v) ;;
      if negb (is_one (Var.m_coeff v))
      then Ok (Mul [Num (Var.m_coeff v) is_int0; t])
      else Ok t
  | def_div x m_div =>
      t <- from_def fuel def_vars x is_int0 index2expr ;;
      if is_int0 then Ok (Idiv t (Num m_div is_int0))
      else Ok (Div t (Num m_div is_int0))
  end.

(** [mbp::def] of mbp_plugin.h. *)
Record def := mk_def { def_var_ : expr; def_term : expr }.

(** [imp::optdefs2mbpdef]. *)
Fixpoint optdefs2mbpdef (fuel : nat) (def_vars : list row)
    (defs : list (option opt_def)) (index2expr : list (option expr))
    (real_vars : list nat) (result0 : list def) : result (list def) :=
  match defs with
  | [] => Ok result0
  | d :: defs' =>
      match real_vars with
      | [] => Err null_deref
      | id :: real_vars' =>
          x <- index index2expr id ;;
          d <- match d with Some d => Ok d | None => Err null_deref end ;;
          t <- from_def fuel def_vars d (is_int x) index2expr ;;
          optdefs2mbpdef fuel def_vars defs' index2expr real_vars'
            (result0 ++ [mk_def x t])
      end
  end.

(** The substitution [apply_projection] builds (lines 699-703): the
    definitions from the last to the first, each term rewritten by the
    pairs inserted before it. *)
Definition mk_subst (defs : list def) : list (expr * expr) :=
  fold_left (fun sub d => sub ++ [(def_var_ d, safe_replace sub (def_term d))])
            (rev defs) [].

(** The second loop of [apply_projection]: [done] is the rewritten
    prefix, [todo] the literals not visited yet. *)
Fixpoint subst_fmls (ev0 : model_evaluator) (sub : list (expr * expr))
    (done todo : list expr) : bool * list expr :=
  match todo with
  | [] => (true, done)
  | fml :: rest =>
      let tmp := safe_replace sub fml in
      if is_false (eval ev0 tmp) then (false, done ++ todo)
      else subst_fmls ev0 sub (done ++ [tmp]) rest
  end.

(** [imp::apply_projection]. *)
Definition apply_projection (ev0 : model_evaluator) (defs : list def)
    (fmls0 : list expr) : bool * list expr :=
  match fmls0, defs with
  | [], _ | _, [] => (true, fmls0)
  | _, _ => subst_fmls ev0 (mk_subst defs) [] fmls0
  end.

(** What [project] leaves in its reference parameters, and its return
    value. *)
Record project_out := mk_project_out {
  ret : bool;
  out_model : model;
  out_vars : list expr;
  out_fmls : list expr;
  out_defs : list def
}.

(** [imp::project] (lines 320-449). *)
Definition project (fuel : nat) (mdl : model) (vars0 : list expr)
    (fmls0 : list expr) (result0 : list def) (compute_def : bool)
  : result project_out :=
  if negb (existsb is_arith vars0) then
    Ok (mk_project_out true mdl vars0 fmls0 result0)
  else
    let mdl := set_inline mdl in
    let ev0 := mk_evaluator mdl true in
    let compute_def := compute_def || m_apply_projection in
    '(j, s) <- linearize_loop fuel 0 0 (mk_lin_state mbo_empty ev0 fmls0 []) ;;
    let s := set_fmls s (firstn j (fmls s)) in
    r <- add_vars vars0 s ;;
    match r with
    | None => Ok (mk_project_out false mdl vars0 (fmls s) result0)
    | Some s =>
        let roots := mark_roots vars0 s in
        let index2expr := mk_index2expr (tids s) in
        '(real_vars, vars1) <- split_vars roots (tids s) vars0 ;;
        let '(defs, o) := mbo_project real_vars compute_def (mbo s) in
        let rows := kernel_live_rows o in
        let def_vars := mk_def_vars rows in
        fmls1 <- rows2fmls fuel def_vars rows index2expr (fmls s) ;;
        result1 <- (if compute_def
                    then optdefs2mbpdef fuel def_vars defs index2expr
                           real_vars result0
                    else Ok result0) ;;
        if m_apply_projection then
          let '(ok, fmls2) := apply_projection (ev s) result1 fmls1 in
          Ok (mk_project_out ok mdl vars1 fmls2 result1)
        else Ok (mk_project_out true mdl vars1 fmls1 result1)
    end.

(** What [project1] leaves in [lits] (and in the model), and its
    return value; [vars] is not touched. *)
Record project1_out := mk_project1_out {
  ret1 : bool;
  out1_model : model;
  out1_lits : list expr
}.

(** [imp::project1] (lines 302-307): [vs.empty()] is read only when
    [project] returned true. *)
Definition project1 (fuel : nat) (mdl : model) (v : expr)
    (vars0 : list expr) (lits : list expr) : result project1_out :=
  o <- project fuel mdl [v] lits [] false ;;
  Ok (mk_project1_out
        (ret o && match out_vars o with [] => true | _ => false end)
        (out_model o) (out_fmls o)).

(** *** Maximize *)

(** The loop of lines 613-615 visits the literals [fmls] holds when it
    starts; what [linearize] returns is dropped. *)
Fixpoint linearize_each (lits : list expr) (s : lin_state) : result lin_state :=
  match lits with
  | [] => Ok s
  | fml :: rest =>
      '(_, s1) <- linearize 2 fml s ;;
      linearize_each rest s1
  end.

(** Lines 622-634: the kernel's values written back to the model. *)
Definition update_model (o : model_based_opt) (t : obj_map nat) (mdl : model)
  : model :=
  fold_left
    (fun mdl kv =>
       match fst kv with
       | App f r [] => register_decl f r (Num (get_value o (snd kv)) false) mdl
       | _ => mdl
       end) t mdl.

Record maximize_out := mk_maximize_out {
  max_value : inf_eps;
  max_model : model;
  max_ge : expr;
  max_gt : expr
}.

(** The first half of [imp::maximize] (lines 596-615): the objective and
    the constraints are handed to a fresh kernel. *)
Definition maximize_setup (fmls0 : list expr) (mdl : model) (t : expr)
  : result lin_state :=
  let s0 := mk_lin_state mbo_empty (mk_evaluator mdl default_completion)
              fmls0 [] in
  a <- linearize_term t 1 (mk_acc 0 [] s0) ;;
  '(coeffs, s1) <- extract_coefficients (acc_ts a) (acc_st a) ;;
  let s2 := set_mbo s1 (set_objective coeffs (acc_c a) (mbo s1)) in
  linearize_each (fmls s2) s2.

(** [imp::maximize] (lines 594-655). *)
Definition maximize (fmls0 : list expr) (mdl : model) (t : expr)
  : result maximize_out :=
  s3 <- maximize_setup fmls0 mdl t ;;
  let '(value, o) := mbo_maximize (mbo s3) in
  let mdl' := update_model o (tids s3) mdl in
  let val := Num (get_rational value) false in
  let tval := eval (mk_evaluator mdl' (ev_completion (ev s3))) t in
  if negb (is_finite value) then
    Ok (mk_maximize_out value mdl' (Ge t tval) EFalse)
  else if is_neg (get_infinitesimal value) then
    Ok (mk_maximize_out value mdl' (Ge t tval) (Ge t val))
  else
    Ok (mk_maximize_out value mdl' (Ge t val) (Gt t val)).

End Imp.

(** ** Sample collaborators

    One choice of the collaborators the section above is parametric in,
    used to run the embedding on concrete inputs: constructors and
    recognizers as in ast_util and arith_decl_plugin, an evaluator for
    ground arithmetic over the model, and a kernel that eliminates
    nothing and hands back the constraints it was given. *)
Module Std.

Definition mk_not (e : expr) : expr :=
  match e with
  | Not a => a
  | ETrue => EFalse
  | EFalse => ETrue
  | _ => Not e
  end.

Fixpoint is_extended_numeral (e : expr) : option Q :=
  match e with
  | Num q _ => Some q
  | Uminus x =>
      match is_extended_numeral x with
      | Some q => Some (- q)
      | None => None
      end
  | _ => None
  end.

Definition mk_add_simplify (ts : list expr) : expr :=
  match ts with
  | [] => Num 0 true
  | [t] => t
  | _ => Add ts
  end.

Fixpoint lookup (f : string) (r : sort) (l : list (string * sort * expr))
  : option expr :=
  match l with
  | [] => None
  | (g, s, v) :: rest =>
      if String.eqb f g && sort_eqb r s then Some v else lookup f r rest
  end.

Definition default_value (r : sort) : option expr :=
  match r with
  | SInt => Some (Num 0 true)
  | SReal => Some (Num 0 false)
  | SBool => Some EFalse
  | SOther _ => None
  end.

(** The values of a list of evaluated arguments, when all of them are
    numerals. *)
Fixpoint numerals (l : list expr) : option (list Q) :=
  match l with
  | [] => Some []
  | x :: r =>
      match is_numeral x, numerals r with
      | Some q, Some qs => Some (q :: qs)
      | _, _ => None
      end
  end.

Definition sum (qs : list Q) : Q := fold_right Qplus 0 qs.
Definition product (qs : list Q) : Q := fold_right Qmult 1 qs.

Definition of_bool (b : bool) : expr := if b then ETrue else EFalse.

Definition compare (op : Q -> Q -> bool) (e x y : expr) : expr :=
  match is_numeral x, is_numeral y with
  | Some p, Some q => of_bool (op p q)
  | _, _ => e
  end.

Fixpoint eval (ev0 : model_evaluator) (e : expr) {struct e} : expr :=
  match e with
  | Num _ _ | ETrue | EFalse => e
  | App f r [] =>
      match lookup f r (m_interp (ev_model ev0)) with
      | Some v => v
      | None =>
          if ev_completion ev0 then
            match default_value r with Some v => v | None => e end
          else e
      end
  | App f r args => App f r (map (eval ev0) args)
  | Add args =>
      match numerals (map (eval ev0) args) with
      | Some qs => Num (sum qs) (is_int e)
      | None => Add (map (eval ev0) args)
      end
  | Mul args =>
      match numerals (map (eval ev0) args) with
      | Some qs => Num (product qs) (is_int e)
      | None => Mul (map (eval ev0) args)
      end
  | Sub [x; y] =>
      match is_numeral (eval ev0 x), is_numeral (eval ev0 y) with
      | Some p, Some q => Num (p - q) (is_int e)
      | _, _ => Sub [eval ev0 x; eval ev0 y]
      end
  | Sub args => Sub (map (eval ev0) args)
  | Uminus x =>
      match is_numeral (eval ev0 x) with
      | Some q => Num (- q) (is_int e)
      | None => Uminus (eval ev0 x)
      end
  | Mod x y =>
      match is_numeral (eval ev0 x), is_numeral (eval ev0 y) with
      | Some p, Some q =>
          if Qlt_bool 0 q then Num (q_mod p q) true
          else Mod (eval ev0 x) (eval ev0 y)
      | _, _ => Mod (eval ev0 x) (eval ev0 y)
      end
  | Idiv x y =>
      match is_numeral (eval ev0 x), is_numeral (eval ev0 y) with
      | Some p, Some q =>
          if Qlt_bool 0 q then Num (q_div p q) true
          else Idiv (eval ev0 x) (eval ev0 y)
      | _, _ => Idiv (eval ev0 x) (eval ev0 y)
      end
  | Div x y => Div (eval ev0 x) (eval ev0 y)
  | Le x y => compare Qle_bool (Le (eval ev0 x) (eval ev0 y))
                (eval ev0 x) (eval ev0 y)
  | Lt x y => compare Qlt_bool (Lt (eval ev0 x) (eval ev0 y))
                (eval ev0 x) (eval ev0 y)
  | Ge x y => compare (fun p q => Qle_bool q p) (Ge (eval ev0 x) (eval ev0 y))
                (eval ev0 x) (eval ev0 y)
  | Gt x y => compare (fun p q => Qlt_bool q p) (Gt (eval ev0 x) (eval ev0 y))
                (eval ev0 x) (eval ev0 y)
  | Eq x y =>
      match is_numeral (eval ev0 x), is_numeral (eval ev0 y) with
      | Some p, Some q => of_bool (Qeq_bool p q)
      | _, _ => if expr_eqb (eval ev0 x) (eval ev0 y) then ETrue
                else Eq (eval ev0 x) (eval ev0 y)
      end
  | Distinct args => Distinct (map (eval ev0) args)
  | Not x =>
      match eval ev0 x with
      | ETrue => EFalse
      | EFalse => ETrue
      | v => Not v
      end
  | And args =>
      if forallb is_true (map (eval ev0) args) then ETrue
      else if existsb is_false (map (eval ev0) args) then EFalse
      else And (map (eval ev0) args)
  | Or args =>
      if existsb is_true (map (eval ev0) args) then ETrue
      else if forallb is_false (map (eval ev0) args) then EFalse
      else Or (map (eval ev0) args)
  | Ite g x y =>
      match eval ev0 g with
      | ETrue => eval ev0 x
      | EFalse => eval ev0 y
      | v => Ite v (eval ev0 x) (eval ev0 y)
      end
  end.

(** Replace the nodes that are keys of [sub], outermost first. *)
Fixpoint safe_replace (sub : list (expr * expr)) (e : expr) {struct e} : expr :=
  match find sub e with
  | Some t => t
  | None =>
      match e with
      | Num _ _ | ETrue | EFalse => e
      | App f r args => App f r (map (safe_replace sub) args)
      | Add args => Add (map (safe_replace sub) args)
      | Mul args => Mul (map (safe_replace sub) args)
      | Sub args => Sub (map (safe_replace sub) args)
      | Distinct args => Distinct (map (safe_replace sub) args)
      | And args => And (map (safe_replace sub) args)
      | Or args => Or (map (safe_replace sub) args)
      | Uminus x => Uminus (safe_replace sub x)
      | Not x => Not (safe_replace sub x)
      | Mod x y => Mod (safe_replace sub x) (safe_replace sub y)
      | Idiv x y => Idiv (safe_replace sub x) (safe_replace sub y)
      | Div x y => Div (safe_replace sub x) (safe_replace sub y)
      | Le x y => Le (safe_replace sub x) (safe_replace sub y)
      | Lt x y => Lt (safe_replace sub x) (safe_replace sub y)
      | Ge x y => Ge (safe_replace sub x) (safe_replace sub y)
      | Gt x y => Gt (safe_replace sub x) (safe_replace sub y)
      | Eq x y => Eq (safe_replace sub x) (safe_replace sub y)
      | Ite x y z =>
          Ite (safe_replace sub x) (safe_replace sub y) (safe_replace sub z)
      end
  end.

(** A kernel that eliminates nothing: no definitions, and the live rows
    are the rows of the calls it received. *)
Definition kernel_project (o : model_based_opt) (ids : list nat)
    (compute_def : bool) : list (option opt_def) :=
  map (fun _ => None) ids.

Definition row_of_call (k : mbo_call) : list row :=
  match k with
  | call_add_constraint coeffs c ty => [Row.mk coeffs c 0 ty 0]
  | call_add_mod coeffs c m v => [Row.mk coeffs c m t_mod v]
  | call_add_div coeffs c m v => [Row.mk coeffs c m t_div v]
  | call_add_divides coeffs c m => [Row.mk coeffs c m t_divides 0]
  | _ => []
  end.

Definition kernel_live_rows (o : model_based_opt) : list row :=
  flat_map row_of_call (m_calls o).

Definition get_value (o : model_based_opt) (id : nat) : Q := var_value o id.

End Std.

(** The coefficient vector a call hands to the kernel. *)
Definition call_coeffs (k : mbo_call) : vars :=
  match k with
  | call_add_constraint coeffs _ _ | call_add_mod coeffs _ _ _
  | call_add_div coeffs _ _ _ | call_add_divides coeffs _ _
  | call_set_objective coeffs _ => coeffs
  | call_project _ _ | call_maximize => []
  end.

Definition is_add_divides (k : mbo_call) : bool :=
  match k with call_add_divides _ _ _ => true | _ => false end.

(** ** Concrete inputs *)
Module Scenario.

Definition x : expr := App "x" SInt [].
Definition y : expr := App "y" SInt [].
Definition z : expr := App "z" SInt [].
(** An uninterpreted function applied to [x]; the sample evaluator has
    no value for it. *)
Definition fx : expr := App "f" SInt [x].
(** A Boolean constant and a real constant. *)
Definition p : expr := App "p" SBool [].
Definition u : expr := App "u" SReal [].

Definition num (n : Z) : expr := Num (inject_Z n) true.
Definition rnum (n : Z) : expr := Num (inject_Z n) false.

(** The model [x := 0, y := 1, z := 2, p := true, u := 0]. *)
Definition mdl : model :=
  mk_model [("x"%string, SInt, num 0); ("y"%string, SInt, num 1);
            ("z"%string, SInt, num 2); ("p"%string, SBool, ETrue);
            ("u"%string, SReal, rnum 0)] false.

(** The state in which [project] starts the linearization loop. *)
Definition start (fmls0 : list expr) : lin_state :=
  mk_lin_state mbo_empty (mk_evaluator (set_inline mdl) true) fmls0 [].

Definition run_linearize_term :=
  linearize_term Std.eval Std.is_extended_numeral Std.mk_not.

Definition run_linearize :=
  linearize Std.eval Std.is_extended_numeral Std.mk_not true 2.

(** The calls the kernel has received when a run returns. *)
Definition calls_of (r : result (bool * lin_state)) : list mbo_call :=
  match r with
  | Ok (_, s) => m_calls (mbo s)
  | Err _ => []
  end.

Definition coeff (id : nat) (n : Z) : var := Var.mk id (inject_Z n).

(** [project] with the default flags ([m_check_purified] set,
    [m_apply_projection] clear). *)
Definition run_project :=
  project Std.eval Std.is_extended_numeral Std.mk_not true true false
    Std.mk_add_simplify Std.safe_replace Std.kernel_project
    Std.kernel_live_rows.

Definition run_project1 :=
  project1 Std.eval Std.is_extended_numeral Std.mk_not true true false
    Std.mk_add_simplify Std.safe_replace Std.kernel_project
    Std.kernel_live_rows.

(** A kernel answer for an open supremum: the optimum is [7 - eps], and
    the values it hands back put every variable at 6. *)
Definition open_sup : inf_eps := mk_inf_eps 0 (inject_Z 7) (- (1)).

Definition run_maximize_open :=
  maximize Std.eval Std.is_extended_numeral Std.mk_not true
    (fun _ => open_sup) (fun _ _ => inject_Z 6) false.

End Scenario.

(** ** Meaning of arithmetic literals

    The value of a term built from numerals, sums, products, differences
    and negations, given the values [rho] of all other nodes; and the
    truth of a comparison of two such terms. *)
Fixpoint term_value (rho : expr -> Q) (t : expr) {struct t} : Q :=
  match t with
  | Num q _ => q
  | Add args =>
      (fix sum (l : list expr) : Q :=
         match l with
         | [] => 0
         | a :: r => term_value rho a + sum r
         end) args
  | Mul args =>
      (fix prod (l : list expr) : Q :=
         match l with
         | [] => 1
         | a :: r => term_value rho a * prod r
         end) args
  | Sub [a; b] => term_value rho a - term_value rho b
  | Uminus a => - term_value rho a
  | _ => rho t
  end.

Definition holds (rho : expr -> Q) (lit : expr) : Prop :=
  match lit with
  | Le a b => term_value rho a <= term_value rho b
  | Lt a b => term_value rho a < term_value rho b
  | Ge a b => term_value rho b <= term_value rho a
  | Gt a b => term_value rho b < term_value rho a
  | Eq a b => term_value rho a == term_value rho b
  | _ => False
  end.

(** The meaning [sum + k op 0] of a row with comparator [ty], for the
    value [sum] of its linear part. *)
Definition row_holds (ty : ineq_type) (sum k : Q) : Prop :=
  match ty with
  | t_le => sum + k <= 0
  | t_lt => sum + k < 0
  | t_eq => sum + k == 0
  | _ => False
  end.

(** [subseq l1 l2]: [l1] is [l2] with some elements left out, the
    others in the same order. *)
Inductive subseq {A : Type} : list A -> list A -> Prop :=
| subseq_nil : subseq [] []
| subseq_keep x l1 l2 : subseq l1 l2 -> subseq (x :: l1) (x :: l2)
| subseq_drop x l1 l2 : subseq l1 l2 -> subseq l1 (x :: l2).

(** The literals [rows2fmls] builds are comparisons. *)
Definition is_comparison (lit : expr) : bool :=
  match lit with
  | Le _ _ | Lt _ _ | Ge _ _ | Gt _ _ | Eq _ _ => true
  | _ => false
  end.

(** ** The guiding model

    What it means for the kernel to hold the model: the evaluator is an
    evaluator of arithmetic (it computes the value of a term from the
    values of its arguments), and every kernel variable has the value the
    evaluator gives to the expression it stands for. *)
Section GuidingModel.

Variable eval : model_evaluator -> expr -> expr.
Variable is_extended_numeral : expr -> option Q.
(** The evaluator of the call. *)
Variable ev0 : model_evaluator.

(** The numeral [e] evaluates to, if any. *)
Definition val_of (e : expr) : option Q := is_numeral (eval ev0 e).

Definition qval (e : expr) : Q :=
  match val_of e with Some r => r | None => 0 end.

(** [e] evaluates to a numeral equal to [q]. *)
Definition has_value (e : expr) (q : Q) : Prop :=
  exists q', val_of e = Some q' /\ q' == q.

Definition sum_of (qs : list Q) : Q := fold_right Qplus 0 qs.

(** The evaluator evaluates the arithmetic operations of the term
    linearizer. *)
Record arith_eval : Prop := {
  ev_num : forall q i, has_value (Num q i) q;
  ev_mul_l : forall t1 t2 k q,
    is_extended_numeral t1 = Some k -> has_value t2 q ->
    has_value (Mul [t1; t2]) (k * q);
  ev_mul_r : forall t1 t2 k q,
    is_extended_numeral t2 = Some k -> has_value t1 q ->
    has_value (Mul [t1; t2]) (q * k);
  ev_uminus : forall t1 q, has_value t1 q -> has_value (Uminus t1) (- q);
  ev_add : forall args qs,
    Forall2 has_value args qs -> has_value (Add args) (sum_of qs);
  ev_sub : forall t1 t2 q1 q2,
    has_value t1 q1 -> has_value t2 q2 -> has_value (Sub [t1; t2]) (q1 - q2);
  ev_ite_true : forall t1 t2 t3 q,
    is_true (eval ev0 t1) = true -> has_value t2 q ->
    has_value (Ite t1 t2 t3) q;
  ev_ite_false : forall t1 t2 t3 q,
    is_false (eval ev0 t1) = true -> has_value t3 q ->
    has_value (Ite t1 t2 t3) q;
  ev_mod : forall t1 t2 k q,
    is_numeral_pos is_extended_numeral t2 = Some k -> has_value t1 q ->
    has_value (Mod t1 t2) (q_mod q k);
  ev_idiv : forall t1 t2 k q,
    is_numeral_pos is_extended_numeral t2 = Some k -> has_value t1 q ->
    has_value (Idiv t1 t2) (q_div q k)
}.

(** The state works with the evaluator [ev0], and every expression in
    [tids] is mapped to a kernel variable that holds its model value. *)
Definition holds_model (s : lin_state) : Prop :=
  ev s = ev0 /\
  forall e id,
    find (tids s) e = Some id ->
    (id < length (m_var2value (mbo s)))%nat /\
    has_value e (var_value (mbo s) id).

(** The model value of the linear form an accumulator stands for. *)
Definition ts_value (ts : obj_map Q) : Q :=
  fold_right (fun kv acc => snd kv * qval (fst kv) + acc) 0 ts.

Definition acc_value (a : term_acc) : Q := acc_c a + ts_value (acc_ts a).

Definition leaves_ok (ts : obj_map Q) : Prop :=
  Forall (fun kv => exists r, val_of (fst kv) = Some r) ts.

End GuidingModel.

(** The value of [sum coeffs] at the kernel's values. *)
Definition coeffs_sum (o : model_based_opt) (coeffs : vars) : Q :=
  fold_right (fun v acc => Var.m_coeff v * var_value o (Var.m_id v) + acc)
             0 coeffs.

(** The kernel of [s'] has the variables of [s], with their values, and
    possibly more. *)
Definition vals_ext (s s' : lin_state) : Prop :=
  exists more, m_var2value (mbo s') = m_var2value (mbo s) ++ more.

Definition ids_below (n : nat) (coeffs : vars) : Prop :=
  Forall (fun v => (Var.m_id v < n)%nat) coeffs.

(** ** Predicates on runs of the linearizers *)

Definition nonzero_coeffs (coeffs : vars) : Prop :=
  Forall (fun v => ~ Var.m_coeff v == 0) coeffs.

(** The calls the term linearizer makes: definitions of mod and div
    variables. *)
Definition def_call (k : mbo_call) : Prop :=
  match k with
  | call_add_mod coeffs _ _ _ | call_add_div coeffs _ _ _ =>
      nonzero_coeffs coeffs
  | _ => False
  end.

(** The calls the literal linearizer makes. *)
Definition lit_call (k : mbo_call) : Prop :=
  match k with
  | call_add_mod coeffs _ _ _ | call_add_div coeffs _ _ _ =>
      nonzero_coeffs coeffs
  | call_add_constraint coeffs _ ty =>
      nonzero_coeffs coeffs /\ (ty = t_le \/ ty = t_lt \/ ty = t_eq)
  | _ => False
  end.

(** [s'] comes from [s] by calls that satisfy [P], by side formulas
    appended to [fmls], and possibly by switching model completion on. *)
Record extends (P : mbo_call -> Prop) (s s' : lin_state) : Prop := {
  ext_calls : exists ks, m_calls (mbo s') = m_calls (mbo s) ++ ks /\ Forall P ks;
  ext_fmls : exists ls, fmls s' = fmls s ++ ls;
  ext_ev : ev s' = ev s \/ ev s' = set_model_completion true (ev s)
}.

(** The exceptions of the linearizers. *)
Definition term_error (e : error) : Prop :=
  e = default_exception "mbp evaluation didn't produce a truth value" \/
  e = default_exception "mbp evaluation was only partial".

(** [tids] of [s'] maps what [tids] of [s] maps, to the same ids. *)
Definition tids_le (s s' : lin_state) : Prop :=
  forall k id, find (tids s) k = Some id -> find (tids s') k = Some id.

(** The loop over the arguments of an addition, for a term linearizer
    [step]: a chain of calls that return, each related to its result by
    [P]. *)
Section Chain.

Variable step : expr -> Q -> term_acc -> result term_acc.
Variable P : expr -> Q -> term_acc -> term_acc -> Prop.

Inductive chain (mul : Q) : list expr -> term_acc -> term_acc -> Prop :=
| chain_nil a : chain mul [] a a
| chain_cons arg r a a1 a' :
    step arg mul a = Ok a1 -> P arg mul a a1 ->
    chain mul r a1 a' -> chain mul (arg :: r) a a'.

End Chain.

(** ** A measure for the linearization loop

    [weight e] exceeds twice the weight of the arguments of [e]: the
    side literals one call of the linearizer enqueues weigh less than
    the literal it was called on. *)
Fixpoint weight (e : expr) : nat :=
  let fix total (l : list expr) : nat :=
    match l with
    | [] => 0%nat
    | x :: r => (weight x + total r)%nat
    end in
  match e with
  | Num _ _ | ETrue | EFalse => 1%nat
  | App _ _ args | Add args | Mul args | Sub args
  | Distinct args | And args | Or args => S (2 * total args)
  | Uminus x | Not x => S (2 * weight x)
  | Mod x y | Idiv x y | Div x y | Le x y | Lt x y | Ge x y | Gt x y
  | Eq x y => S (2 * (weight x + weight y))
  | Ite x y z => S (2 * (weight x + weight y + weight z))
  end.

Definition total_weight (l : list expr) : nat :=
  fold_right (fun x acc => (weight x + acc)%nat) 0%nat l.

(** ** What the kernel's values satisfy

    [call_ok o k]: every variable the call [k] mentions exists in the
    kernel [o], and the values of [o] satisfy the row the call stands
    for: the comparison of a constraint, the defining equation of a mod
    or div variable. *)
Definition call_ok (o : model_based_opt) (k : mbo_call) : Prop :=
  let n := length (m_var2value o) in
  match k with
  | call_add_constraint coeffs c ty =>
      ids_below n coeffs /\ row_holds ty (coeffs_sum o coeffs) c
  | call_add_mod coeffs c m v =>
      ids_below n coeffs /\ (v < n)%nat /\
      var_value o v == q_mod (c + coeffs_sum o coeffs) m
  | call_add_div coeffs c m v =>
      ids_below n coeffs /\ (v < n)%nat /\
      var_value o v == q_div (c + coeffs_sum o coeffs) m
  | _ => True
  end.

Definition kernel_ok (o : model_based_opt) : Prop :=
  Forall (call_ok o) (m_calls o).

(** The truth of an arithmetic literal under the values [value] of its
    sides; literals of another shape hand no constraint to the kernel. *)
Definition lit_true (value : expr -> Q) (lit : expr) : Prop :=
  match lit with
  | Le a b => value a <= value b
  | Lt a b => value a < value b
  | Ge a b => value b <= value a
  | Gt a b => value b < value a
  | Eq a b => value a == value b
  | Distinct args => ForallOrdPairs (fun a b => ~ value a == value b) args
  | Not (Le a b) => ~ value a <= value b
  | Not (Lt a b) => ~ value a < value b
  | Not (Ge a b) => ~ value b <= value a
  | Not (Gt a b) => ~ value b < value a
  | Not (Eq a b) => ~ value a == value b
  | _ => True
  end.

(** [tids] hands out the kernel variables, each of them once: the
    ids it holds are pairwise different, and they are exactly the
    variables the kernel has. *)
Definition tids_wf (s : lin_state) : Prop :=
  NoDup (map snd (tids s)) /\
  forall id, In id (map snd (tids s)) <->
             (id < length (m_var2value (mbo s)))%nat.

(** The value of the linear part of a row: the sum of [coefficient *
    value] over its variables, [xes] being the expressions the
    variables stand for. *)
Definition row_value (rho : expr -> Q) (vs : vars) (xes : list expr) : Q :=
  fold_right
    (fun p acc => Var.m_coeff (fst p) * term_value rho (snd p) + acc)
    0 (combine vs xes).

(** [f] is a guard the evaluator [ev1] makes true, or [mk_not] of a
    guard it makes false. *)
Definition decided_guard (eval : model_evaluator -> expr -> expr)
    (mk_not : expr -> expr) (ev1 : model_evaluator) (f : expr) : Prop :=
  exists g, (f = g /\ is_true (eval ev1 g) = true) \/
            (f = mk_not g /\ is_false (eval ev1 g) = true).

(** The value of a definition of the kernel, for the values
    [value_of_id] of its variables; [def_ids] lists the variables it
    mentions, and [div_free] tells whether it is built without
    division. *)
Fixpoint def_value (value_of_id : nat -> Q) (d : opt_def) : Q :=
  match d with
  | def_add x y => def_value value_of_id x + def_value value_of_id y
  | def_mul x y => def_value value_of_id x * def_value value_of_id y
  | def_const c => c
  | def_var v => Var.m_coeff v * value_of_id (Var.m_id v)
  | def_div x m_div => def_value value_of_id x / m_div
  end.

Fixpoint def_ids (d : opt_def) : list nat :=
  match d with
  | def_add x y | def_mul x y => def_ids x ++ def_ids y
  | def_const _ => []
  | def_var v => [Var.m_id v]
  | def_div x _ => def_ids x
  end.

Fixpoint div_free (d : opt_def) : bool :=
  match d with
  | def_add x y | def_mul x y => div_free x && div_free y
  | def_const _ | def_var _ => true
  | def_div _ _ => false
  end.

(** [imp::n_sign] (lines 298-300). *)
Definition n_sign (b : Q) : Q := if Qlt_bool 0 b then - (1) else 1.

(** [imp::var2expr] (lines 313-318). *)
Definition var2expr (index2expr : list (option expr)) (v : var)
  : result expr :=
  t <- index index2expr (Var.m_id v) ;;
  if negb (is_one (Var.m_coeff v))
  then Ok (Mul [Num (Var.m_coeff v) (is_int t); t])
  else Ok t.

(** ** [arith_project_plugin] and [arith_project] (lines 716-758)

    The plugin owns an [imp]; what of it can change are the two flags,
    which the constructor of [imp] sets to true and false. *)
Record arith_project_plugin := mk_plugin {
  plugin_check_purified : bool;
  plugin_apply_projection : bool
}.

Definition plugin_new : arith_project_plugin := mk_plugin true false.

Definition set_check_purified (check_purified : bool)
    (ap : arith_project_plugin) : arith_project_plugin :=
  mk_plugin check_purified (plugin_apply_projection ap).

Definition set_apply_projection (f : bool) (ap : arith_project_plugin)
  : arith_project_plugin :=
  mk_plugin (plugin_check_purified ap) f.

Section Plugin.

Variable eval : model_evaluator -> expr -> expr.
Variable is_extended_numeral : expr -> option Q.
Variable mk_not : expr -> expr.
Variable m_inc : bool.
Variable mk_add_simplify : list expr -> expr.
Variable safe_replace : list (expr * expr) -> expr -> expr.
Variable kernel_project :
  model_based_opt -> list nat -> bool -> list (option opt_def).
Variable kernel_live_rows : model_based_opt -> list row.

(** [arith_project_plugin::project1]. *)
Definition plugin_project1 (ap : arith_project_plugin) (fuel : nat)
    (mdl : model) (v : expr) (vars0 lits : list expr)
  : result project1_out :=
  project1 eval is_extended_numeral mk_not m_inc
    (plugin_check_purified ap) (plugin_apply_projection ap)
    mk_add_simplify safe_replace kernel_project kernel_live_rows
    fuel mdl v vars0 lits.

(** [arith_project_plugin::project(model, vars, lits)]: the definitions
    go to a local vector. *)
Definition plugin_project (ap : arith_project_plugin) (fuel : nat)
    (mdl : model) (vars0 lits : list expr) : result project_out :=
  project eval is_extended_numeral mk_not m_inc
    (plugin_check_purified ap) (plugin_apply_projection ap)
    mk_add_simplify safe_replace kernel_project kernel_live_rows
    fuel mdl vars0 lits [] false.

(** [arith_project_plugin::project(model, vars, lits, defs)]. *)
Definition plugin_project_defs (ap : arith_project_plugin) (fuel : nat)
    (mdl : model) (vars0 lits : list expr) (defs : list def)
  : result project_out :=
  project eval is_extended_numeral mk_not m_inc
    (plugin_check_purified ap) (plugin_apply_projection ap)
    mk_add_simplify safe_replace kernel_project kernel_live_rows
    fuel mdl vars0 lits defs true.

(** [arith_project(model, var, lits)]: a fresh plugin, an empty [vars]. *)
Definition arith_project (fuel : nat) (mdl : model) (v : expr)
    (lits : list expr) : result project1_out :=
  plugin_project1 plugin_new fuel mdl v [] lits.

End Plugin.

(** ** Lines of [display] *)



(* ================================================================== *)
(** * Properties *)
(* ================================================================== *)

(** ** The result monad *)

Lemma bind_Ok {A B} (r : result A) (k : A -> result B) (b : B) :
  bind r k = Ok b -> exists a, r = Ok a /\ k a = Ok b.
Proof.
  destruct r as [a|e]; simpl; intros H; [eauto | discriminate].
Qed.

Lemma bind_Err {A B} (r : result A) (k : A -> result B) (e : error) :
  bind r k = Err e -> r = Err e \/ exists a, r = Ok a /\ k a = Err e.
Proof.
  destruct r as [a|e']; simpl; intros H; [right; eauto | left; congruence].
Qed.

(** Split a hypothesis [x <- r ;; k = Ok b]. *)
Ltac bind_inv H :=
  let a := fresh "a" in
  let Ha := fresh "Ha" in
  apply bind_Ok in H; destruct H as [a [Ha H]].

(** ** Node identity *)

Lemma Q_same_eq (a b : Q) : Q_same a b = true <-> a = b.
Proof.
  unfold Q_same. destruct a as [n d], b as [n' d']; simpl.
  rewrite andb_true_iff, Z.eqb_eq, Pos.eqb_eq.
  split; [intros [-> ->]; reflexivity | intros H; inversion H; auto].
Qed.

Lemma sort_eqb_eq (a b : sort) : sort_eqb a b = true <-> a = b.
Proof.
  destruct a, b; simpl; try (split; [discriminate | congruence]);
    try (split; reflexivity).
  rewrite String.eqb_eq. split; congruence.
Qed.

Lemma expr_eqb_sound a : forall b, expr_eqb a b = true -> a = b.
Proof.
  assert (Hl : forall l1 : list expr,
             Forall (fun x => forall y, expr_eqb x y = true -> x = y) l1 ->
             forall l2,
               (fix list_eqb (l1 l2 : list expr) {struct l1} : bool :=
                  match l1, l2 with
                  | [], [] => true
                  | x :: xs, y :: ys => expr_eqb x y && list_eqb xs ys
                  | _, _ => false
                  end) l1 l2 = true -> l1 = l2).
  { induction 1 as [|x xs Hx _ IH]; intros [|y ys] E; try discriminate; auto.
    apply andb_true_iff in E. destruct E as [E1 E2].
    f_equal; auto. }
  induction a using expr_nested_ind; intros b E; destruct b;
    simpl in E; try discriminate;
    repeat match goal with
           | H : _ && _ = true |- _ =>
               apply andb_true_iff in H; destruct H
           end;
    repeat match goal with
           | H : Q_same _ _ = true |- _ => apply Q_same_eq in H
           | H : Bool.eqb _ _ = true |- _ => apply Bool.eqb_prop in H
           | H : String.eqb _ _ = true |- _ => apply String.eqb_eq in H
           | H : sort_eqb _ _ = true |- _ => apply sort_eqb_eq in H
           end;
    subst; try reflexivity; f_equal; auto.
Qed.

Lemma expr_eqb_refl a : expr_eqb a a = true.
Proof.
  assert (Hl : forall l : list expr,
             Forall (fun x => expr_eqb x x = true) l ->
             (fix list_eqb (l1 l2 : list expr) {struct l1} : bool :=
                match l1, l2 with
                | [], [] => true
                | x :: xs, y :: ys => expr_eqb x y && list_eqb xs ys
                | _, _ => false
                end) l l = true).
  { induction 1 as [|x xs Hx _ IH]; auto. rewrite Hx, IH. reflexivity. }
  induction a using expr_nested_ind; simpl;
    rewrite ?andb_true_iff; repeat split; auto.
  - apply Q_same_eq; reflexivity.
  - apply Bool.eqb_reflx.
  - apply String.eqb_refl.
  - apply sort_eqb_eq; reflexivity.
Qed.

Lemma expr_eqb_eq a b : expr_eqb a b = true <-> a = b.
Proof.
  split; [apply expr_eqb_sound | intros ->; apply expr_eqb_refl].
Qed.

Lemma expr_eqb_neq a b : expr_eqb a b = false <-> a <> b.
Proof.
  rewrite <- expr_eqb_eq. destruct (expr_eqb a b); split; congruence.
Qed.

(** ** [obj_map] *)

Lemma find_insert_same {V} (m : obj_map V) k v : find (insert k v m) k = Some v.
Proof.
  induction m as [|[k' v'] m IH]; simpl.
  - rewrite expr_eqb_refl. reflexivity.
  - destruct (expr_eqb k k') eqn:E; simpl; rewrite E; auto.
Qed.

Lemma find_insert_other {V} (m : obj_map V) k v k' :
  k' <> k -> find (insert k v m) k' = find m k'.
Proof.
  intros Hne. induction m as [|[k0 v0] m IH]; simpl.
  - apply expr_eqb_neq in Hne. rewrite Hne. reflexivity.
  - destruct (expr_eqb k k0) eqn:E; simpl.
    + apply expr_eqb_eq in E. subst k0.
      apply expr_eqb_neq in Hne. rewrite Hne. reflexivity.
    + rewrite IH. reflexivity.
Qed.

Lemma contains_insert {V} (m : obj_map V) k v k' :
  contains (insert k v m) k' = expr_eqb k' k || contains m k'.
Proof.
  unfold contains. destruct (expr_eqb k' k) eqn:E.
  - apply expr_eqb_eq in E. subst. rewrite find_insert_same. reflexivity.
  - apply expr_eqb_neq in E. rewrite find_insert_other; auto.
Qed.

(** ** Lists *)

Lemma skipn_nth_error_cons {A} (l : list A) : forall i x,
  nth_error l i = Some x -> skipn i l = x :: skipn (S i) l.
Proof.
  induction l as [|y l IH]; intros [|i] x H; simpl in *;
    try discriminate.
  - inversion H; reflexivity.
  - apply IH in H. exact H.
Qed.

Lemma skipn_app_le {A} (l r : list A) i :
  (i <= length l)%nat -> skipn i (l ++ r) = skipn i l ++ r.
Proof.
  intros H. rewrite skipn_app.
  replace (i - length l)%nat with 0%nat by lia. reflexivity.
Qed.

Lemma firstn_app_le {A} (l r : list A) j :
  (j <= length l)%nat -> firstn j (l ++ r) = firstn j l.
Proof.
  intros H. rewrite firstn_app.
  replace (j - length l)%nat with 0%nat by lia.
  simpl. apply app_nil_r.
Qed.

Lemma skipn_set_nth {A} (x : A) (l : list A) : forall j i,
  (j < i)%nat -> skipn i (set_nth j x l) = skipn i l.
Proof.
  induction l as [|y l IH]; intros j i H.
  - destruct j; reflexivity.
  - destruct i as [|i]; [lia|]. destruct j as [|j]; simpl; auto.
    apply IH. lia.
Qed.

Lemma firstn_set_nth {A} (x : A) (l : list A) : forall j,
  (j < length l)%nat -> firstn (S j) (set_nth j x l) = firstn j l ++ [x].
Proof.
  induction l as [|y l IH]; intros j H; simpl in H; [lia|].
  destruct j as [|j]; [reflexivity|].
  cbn [set_nth firstn app]. f_equal. apply IH. lia.
Qed.

(** ** What a linearization step may do to the shared state *)

Lemma def_call_lit_call k : def_call k -> lit_call k.
Proof. destruct k; simpl; tauto. Qed.

Lemma extends_refl P s : extends P s s.
Proof.
  split; [exists [] | exists [] | left]; rewrite ?app_nil_r; auto.
Qed.

Lemma extends_trans P s1 s2 s3 :
  extends P s1 s2 -> extends P s2 s3 -> extends P s1 s3.
Proof.
  intros [[k1 [C1 F1]] [l1 L1] E1] [[k2 [C2 F2]] [l2 L2] E2]. split.
  - exists (k1 ++ k2). rewrite C2, C1, app_assoc. split; auto.
    apply Forall_app; auto.
  - exists (l1 ++ l2). rewrite L2, L1, app_assoc. reflexivity.
  - destruct E1 as [E1|E1], E2 as [E2|E2]; rewrite E2, E1; auto.
Qed.

Lemma extends_weaken (P Q : mbo_call -> Prop) s s' :
  (forall k, P k -> Q k) -> extends P s s' -> extends Q s s'.
Proof.
  intros PQ [[ks [C F]] L E]. split; auto.
  exists ks. split; auto. eapply Forall_impl; eauto.
Qed.

Lemma extends_push_back P s f : extends P s (push_back s f).
Proof.
  split; simpl; [exists [] | exists [f] | left]; rewrite ?app_nil_r; auto.
Qed.

Lemma extends_append P s l : extends P s (set_fmls s (fmls s ++ l)).
Proof.
  split; simpl; [exists [] | exists l | left]; rewrite ?app_nil_r; auto.
Qed.

Lemma extends_call P s k :
  P k -> extends P s (set_mbo s (record_call k (mbo s))).
Proof.
  intros Hk. split; simpl; [exists [k] | exists [] | left];
    rewrite ?app_nil_r; auto.
Qed.

Lemma extends_add_var (P : mbo_call -> Prop) s value b t :
  extends P s (set_tids (set_mbo s (snd (add_var value b (mbo s)))) t).
Proof.
  split; simpl; [exists [] | exists [] | left]; rewrite ?app_nil_r; auto.
Qed.

Arguments add_mod : simpl never.
Arguments add_div : simpl never.
Arguments extract_coefficients : simpl never.

Section ImpFacts.

Variable eval : model_evaluator -> expr -> expr.
Variable is_extended_numeral : expr -> option Q.
Variable mk_not : expr -> expr.
Variable m_inc : bool.

Local Notation lin_id := (id_of eval).
Local Notation lin_extract_loop := (extract_loop eval).
Local Notation lin_extract := (extract_coefficients eval).
Local Notation lin_term := (linearize_term eval is_extended_numeral mk_not).
Local Notation lin_lit := (linearize eval is_extended_numeral mk_not m_inc).

Lemma id_of_extends P v s id s' :
  lin_id v s = Ok (id, s') -> extends P s s'.
Proof.
  unfold id_of. destruct (find (tids s) v).
  - intros H; inversion H; subst. apply extends_refl.
  - destruct (is_numeral (eval (ev s) v)); [|discriminate].
    intros H; inversion H; subst. apply extends_add_var.
Qed.

Lemma extract_loop_extends P ts : forall coeffs s coeffs' s',
  lin_extract_loop ts coeffs s = Ok (coeffs', s') ->
  nonzero_coeffs coeffs ->
  extends P s s' /\ nonzero_coeffs coeffs'.
Proof.
  induction ts as [|[v q] ts IH]; simpl; intros coeffs s coeffs' s' H Hnz.
  - inversion H; subst. split; auto using extends_refl.
  - bind_inv H. destruct a as [id s1]. simpl in H.
    apply IH in H.
    + destruct H as [H1 H2]. split; auto.
      eapply extends_trans; [eapply id_of_extends; eauto | exact H1].
    + destruct (Qeq_bool q 0) eqn:Hq; auto.
      apply Forall_app. split; auto. constructor; auto. simpl.
      intros Hz. apply Qeq_bool_iff in Hz. congruence.
Qed.

Lemma extract_coefficients_extends P ts s coeffs s' :
  lin_extract ts s = Ok (coeffs, s') ->
  extends P s s' /\ nonzero_coeffs coeffs /\
  ev s' = set_model_completion true (ev s).
Proof.
  unfold extract_coefficients. intros H.
  apply (extract_loop_extends P) in H; [|constructor].
  destruct H as [[C L E] Hnz]. simpl in *. repeat split; auto.
  - destruct E as [E|E]; rewrite E; auto.
  - destruct E as [E|E]; rewrite E; auto.
Qed.

(** *** An induction principle that follows the arms of the term
    linearizer, for the calls that return *)
Section LinearizeTermInd.

Variable P : expr -> Q -> term_acc -> term_acc -> Prop.

Local Notation arg_chain := (chain lin_term P).

Hypothesis P_opaque : forall t mul a, P t mul a (opaque t mul a).
Hypothesis P_mul_l : forall t1 t2 mul1 mul a a',
  contains (tids (acc_st a)) (Mul [t1; t2]) = false ->
  is_extended_numeral t1 = Some mul1 ->
  lin_term t2 (mul * mul1) a = Ok a' -> P t2 (mul * mul1) a a' ->
  P (Mul [t1; t2]) mul a a'.
Hypothesis P_mul_r : forall t1 t2 mul1 mul a a',
  contains (tids (acc_st a)) (Mul [t1; t2]) = false ->
  is_extended_numeral t1 = None ->
  is_extended_numeral t2 = Some mul1 ->
  lin_term t1 (mul * mul1) a = Ok a' -> P t1 (mul * mul1) a a' ->
  P (Mul [t1; t2]) mul a a'.
Hypothesis P_uminus : forall t1 mul a a',
  contains (tids (acc_st a)) (Uminus t1) = false ->
  lin_term t1 (- mul) a = Ok a' -> P t1 (- mul) a a' ->
  P (Uminus t1) mul a a'.
Hypothesis P_num : forall mul1 i mul a,
  contains (tids (acc_st a)) (Num mul1 i) = false ->
  P (Num mul1 i) mul a (mk_acc (acc_c a + mul * mul1) (acc_ts a) (acc_st a)).
Hypothesis P_add : forall args mul a a',
  contains (tids (acc_st a)) (Add args) = false ->
  arg_chain mul args a a' -> P (Add args) mul a a'.
Hypothesis P_sub : forall t1 t2 mul a a1 a',
  contains (tids (acc_st a)) (Sub [t1; t2]) = false ->
  lin_term t1 mul a = Ok a1 -> P t1 mul a a1 ->
  lin_term t2 (- mul) a1 = Ok a' -> P t2 (- mul) a1 a' ->
  P (Sub [t1; t2]) mul a a'.
Hypothesis P_ite_true : forall t1 t2 t3 mul a a1,
  contains (tids (acc_st a)) (Ite t1 t2 t3) = false ->
  is_true (eval (ev (acc_st a)) t1) = true ->
  lin_term t2 mul a = Ok a1 -> P t2 mul a a1 ->
  P (Ite t1 t2 t3) mul a
    (mk_acc (acc_c a1) (acc_ts a1) (push_back (acc_st a1) t1)).
Hypothesis P_ite_false : forall t1 t2 t3 mul a a',
  contains (tids (acc_st a)) (Ite t1 t2 t3) = false ->
  is_true (eval (ev (acc_st a)) t1) = false ->
  is_false (eval (ev (acc_st a)) t1) = true ->
  lin_term t3 mul
    (mk_acc (acc_c a) (acc_ts a) (push_back (acc_st a) (mk_not t1))) = Ok a' ->
  P t3 mul
    (mk_acc (acc_c a) (acc_ts a) (push_back (acc_st a) (mk_not t1))) a' ->
  P (Ite t1 t2 t3) mul a a'.
Hypothesis P_mod : forall t1 t2 mul1 mul a a0 coeffs s1,
  contains (tids (acc_st a)) (Mod t1 t2) = false ->
  is_numeral_pos is_extended_numeral t2 = Some mul1 ->
  lin_term t1 1 (mk_acc 0 [] (acc_st a)) = Ok a0 ->
  P t1 1 (mk_acc 0 [] (acc_st a)) a0 ->
  lin_extract (acc_ts a0) (acc_st a0) = Ok (coeffs, s1) ->
  P (Mod t1 t2) mul a
    (mk_acc (acc_c a) (insert_mul (Mod t1 t2) mul (acc_ts a))
       (set_tids
          (set_mbo s1 (snd (add_mod coeffs (acc_c a0) mul1 (mbo s1))))
          (insert (Mod t1 t2)
             (fst (add_mod coeffs (acc_c a0) mul1 (mbo s1))) (tids s1)))).
Hypothesis P_idiv : forall t1 t2 mul1 mul a a0 coeffs s1,
  contains (tids (acc_st a)) (Idiv t1 t2) = false ->
  is_numeral_pos is_extended_numeral t2 = Some mul1 ->
  lin_term t1 1 (mk_acc 0 [] (acc_st a)) = Ok a0 ->
  P t1 1 (mk_acc 0 [] (acc_st a)) a0 ->
  lin_extract (acc_ts a0) (acc_st a0) = Ok (coeffs, s1) ->
  P (Idiv t1 t2) mul a
    (mk_acc (acc_c a) (insert_mul (Idiv t1 t2) mul (acc_ts a))
       (set_tids
          (set_mbo s1 (snd (add_div coeffs (acc_c a0) mul1 (mbo s1))))
          (insert (Idiv t1 t2)
             (fst (add_div coeffs (acc_c a0) mul1 (mbo s1))) (tids s1)))).

Lemma linearize_term_ok_ind t : forall mul a a',
  lin_term t mul a = Ok a' -> P t mul a a'.
Proof.
  induction t using expr_nested_ind; intros mul a a' Hlin;
    cbn [linearize_term] in Hlin;
    destruct (contains (tids (acc_st a)) _) eqn:Hc;
    try (inversion Hlin; subst; apply P_opaque).
  - (* numeral *)
    inversion Hlin; subst. apply P_num; auto.
  - (* addition *)
    apply P_add; auto. clear Hc. revert a a' Hlin.
    induction H as [|arg r Harg Hr IH]; intros a a' Hlin.
    + inversion Hlin; subst. constructor.
    + bind_inv Hlin. econstructor; eauto.
  - (* multiplication *)
    destruct args as [|t1 [|t2 [|t3 r]]];
      try (inversion Hlin; subst; apply P_opaque).
    inversion H as [|? ? IH1 H']; inversion H' as [|? ? IH2 _]; subst.
    destruct (is_extended_numeral t1) eqn:E1.
    + eapply P_mul_l; eauto.
    + destruct (is_extended_numeral t2) eqn:E2.
      * eapply P_mul_r; eauto.
      * inversion Hlin; subst. apply P_opaque.
  - (* subtraction *)
    destruct args as [|t1 [|t2 [|t3 r]]];
      try (inversion Hlin; subst; apply P_opaque).
    inversion H as [|? ? IH1 H']; inversion H' as [|? ? IH2 _]; subst.
    bind_inv Hlin. eapply P_sub; eauto.
  - (* unary minus *)
    eapply P_uminus; eauto.
  - (* mod *)
    destruct (is_numeral_pos is_extended_numeral t2) as [mul1|] eqn:E.
    + bind_inv Hlin. bind_inv Hlin. destruct a1 as [coeffs s1].
      cbv beta iota in Hlin.
      pose proof (P_mod t1 t2 mul1 mul a a0 coeffs s1 Hc E Ha
                    (IHt1 _ _ _ Ha) Ha0) as X.
      destruct (add_mod coeffs (acc_c a0) mul1 (mbo s1)) as [v o].
      inversion Hlin; subst. exact X.
    + inversion Hlin; subst. apply P_opaque.
  - (* div *)
    destruct (is_numeral_pos is_extended_numeral t2) as [mul1|] eqn:E.
    + bind_inv Hlin. bind_inv Hlin. destruct a1 as [coeffs s1].
      cbv beta iota in Hlin.
      pose proof (P_idiv t1 t2 mul1 mul a a0 coeffs s1 Hc E Ha
                    (IHt1 _ _ _ Ha) Ha0) as X.
      destruct (add_div coeffs (acc_c a0) mul1 (mbo s1)) as [v o].
      inversion Hlin; subst. exact X.
    + inversion Hlin; subst. apply P_opaque.
  - (* ite *)
    destruct (is_true (eval (ev (acc_st a)) t1)) eqn:Et.
    + bind_inv Hlin. inversion Hlin; subst. eapply P_ite_true; eauto.
    + destruct (is_false (eval (ev (acc_st a)) t1)) eqn:Ef.
      * eapply P_ite_false; eauto.
      * discriminate.
Qed.

End LinearizeTermInd.

Lemma extends_add_mod (P : mbo_call -> Prop) s coeffs c m t :
  P (call_add_mod coeffs c m (length (m_var2value (mbo s)))) ->
  extends P s (set_tids (set_mbo s (snd (add_mod coeffs c m (mbo s)))) t).
Proof.
  intros HP. split; simpl;
    [eexists; split; [reflexivity | auto] | exists [] | left];
    rewrite ?app_nil_r; auto.
Qed.

Lemma extends_add_div (P : mbo_call -> Prop) s coeffs c m t :
  P (call_add_div coeffs c m (length (m_var2value (mbo s)))) ->
  extends P s (set_tids (set_mbo s (snd (add_div coeffs c m (mbo s)))) t).
Proof.
  intros HP. split; simpl;
    [eexists; split; [reflexivity | auto] | exists [] | left];
    rewrite ?app_nil_r; auto.
Qed.

(** The term linearizer only defines mod and div variables, appends
    side formulas, and may switch completion on. *)
Lemma linearize_term_extends t mul a a' :
  lin_term t mul a = Ok a' -> extends def_call (acc_st a) (acc_st a').
Proof.
  revert t mul a a'.
  apply (linearize_term_ok_ind
           (fun _ _ a a' => extends def_call (acc_st a) (acc_st a')));
    simpl; intros; auto using extends_refl.
  - (* addition *)
    match goal with
    | Hc : contains _ _ = false, H : chain _ _ _ _ _ _ |- _ =>
        clear Hc; induction H
    end; eauto using extends_refl, extends_trans.
  - (* subtraction *)
    eauto using extends_trans.
  - (* ite, guard true *)
    eapply extends_trans; [eassumption | apply extends_push_back].
  - (* ite, guard false *)
    eapply extends_trans; [apply extends_push_back | eassumption].
  - (* mod *)
    match goal with H : lin_extract _ _ = Ok _ |- _ =>
      apply (extract_coefficients_extends def_call) in H;
      destruct H as [He [Hnz _]] end.
    eapply extends_trans; [eassumption|].
    eapply extends_trans; [eassumption|].
    apply extends_add_mod. exact Hnz.
  - (* div *)
    match goal with H : lin_extract _ _ = Ok _ |- _ =>
      apply (extract_coefficients_extends def_call) in H;
      destruct H as [He [Hnz _]] end.
    eapply extends_trans; [eassumption|].
    eapply extends_trans; [eassumption|].
    apply extends_add_div. exact Hnz.
Qed.

Lemma linearize_diff_extends mul e1 e2 s a :
  linearize_diff eval is_extended_numeral mk_not mul e1 e2 s = Ok a ->
  extends def_call s (acc_st a).
Proof.
  unfold linearize_diff. intros H. bind_inv H.
  apply linearize_term_extends in Ha, H. simpl in Ha.
  eauto using extends_trans.
Qed.

(** The tail of the literal linearizer makes one call, [add_constraint],
    and returns true. *)
Lemma submit_inv ty a b s' :
  submit eval ty a = Ok (b, s') ->
  exists coeffs s1,
    lin_extract (acc_ts a) (acc_st a) = Ok (coeffs, s1) /\
    b = true /\
    s' = set_mbo s1 (add_constraint coeffs (acc_c a) ty (mbo s1)).
Proof.
  unfold submit. intros H. bind_inv H. destruct a0 as [coeffs s1].
  simpl in H. inversion H; subst. eauto.
Qed.

Lemma submit_extends ty a b s' :
  submit eval ty a = Ok (b, s') ->
  ty = t_le \/ ty = t_lt \/ ty = t_eq ->
  extends lit_call (acc_st a) s' /\ b = true.
Proof.
  intros H Hty. apply submit_inv in H.
  destruct H as [coeffs [s1 [He [-> ->]]]].
  apply (extract_coefficients_extends lit_call) in He.
  destruct He as [He [Hnz _]]. split; auto.
  eapply extends_trans; [exact He|].
  apply extends_call. simpl. auto.
Qed.

Lemma diff_submit_extends mul e1 e2 ty s b s' :
  (a <- linearize_diff eval is_extended_numeral mk_not mul e1 e2 s ;;
   submit eval ty a) = Ok (b, s') ->
  ty = t_le \/ ty = t_lt \/ ty = t_eq ->
  extends lit_call s s' /\ b = true.
Proof.
  intros H Hty. bind_inv H.
  apply linearize_diff_extends in Ha.
  apply submit_extends in H; auto. destruct H as [H ->]. split; auto.
  eapply extends_trans; [|exact H].
  eapply extends_weaken; [apply def_call_lit_call | exact Ha].
Qed.

Lemma find_equal_extends mul args : forall values ty a r,
  find_equal eval is_extended_numeral mk_not mul args values ty a = Ok r ->
  match r with
  | None => True
  | Some (ty', a') =>
      extends def_call (acc_st a) (acc_st a') /\ (ty' = ty \/ ty' = t_eq)
  end.
Proof.
  induction args as [|arg1 rest IH]; simpl; intros values ty a r H.
  - inversion H; subst. auto using extends_refl.
  - destruct (is_numeral (eval (ev (acc_st a)) arg1)) as [q|].
    + destruct (find_value values q) as [arg2|].
      * bind_inv H. bind_inv H. inversion H; subst.
        apply linearize_term_extends in Ha, Ha0.
        eauto using extends_trans.
      * eapply IH; eauto.
    + inversion H; subst. exact I.
Qed.

(** The literal linearizer submits constraints with comparator [<=],
    [<] or [=] (besides the definitions of the term linearizer). *)
Lemma linearize_extends depth : forall lit s b s',
  lin_lit depth lit s = Ok (b, s') -> extends lit_call s s'.
Proof.
  induction depth as [|depth IH]; intros lit s b s' H; [discriminate|].
  cbn [linearize] in H.
  destruct m_inc; cbn [negb] in H;
    [|inversion H; subst; apply extends_refl].
  set (is_not := match lit with Not _ => true | _ => false end) in H.
  set (atom := match lit with Not l => l | _ => lit end) in H.
  clearbody is_not atom.
  destruct atom; try (inversion H; subst; apply extends_refl).
  - (* <= *)
    apply diff_submit_extends in H; [tauto | destruct is_not; auto].
  - (* < *)
    apply diff_submit_extends in H; [tauto | destruct is_not; auto].
  - (* >= *)
    apply diff_submit_extends in H; [tauto | destruct is_not; auto].
  - (* > *)
    apply diff_submit_extends in H; [tauto | destruct is_not; auto].
  - (* = *)
    destruct (is_arith atom1); cbn [negb] in H;
      [|inversion H; subst; apply extends_refl].
    destruct is_not; cbn [negb] in H.
    + destruct (is_numeral (eval (ev s) atom1)) as [r1|];
        [|inversion H; subst; apply extends_refl].
      destruct (is_numeral (eval (ev s) atom2)) as [r2|];
        [|inversion H; subst; apply extends_refl].
      destruct (Qlt_bool r1 r2);
        apply diff_submit_extends in H; auto; tauto.
    + apply diff_submit_extends in H; auto; tauto.
  - (* distinct *)
    destruct args as [|arg0 args]; [discriminate|].
    destruct (is_arith arg0); cbn [negb] in H;
      [|inversion H; subst; apply extends_refl].
    destruct is_not; cbn [negb] in H.
    + bind_inv H.
      apply find_equal_extends in Ha. destruct a as [[ty a']|].
      * destruct Ha as [Ha Hty]. simpl in Ha.
        apply submit_extends in H; [|destruct Hty; subst; auto].
        destruct H as [H _].
        eapply extends_trans; [|exact H].
        eapply extends_weaken; [apply def_call_lit_call | exact Ha].
      * inversion H; subst. apply extends_refl.
    + destruct (eval_nums eval (ev s) (arg0 :: args)) as [nums|];
        [|inversion H; subst; apply extends_refl].
      revert s H. generalize (sort_second nums) as l.
      induction l as [|x r IHl]; intros s H.
      * inversion H; subst. apply extends_refl.
      * destruct r as [|y r'].
        { inversion H; subst. apply extends_refl. }
        bind_inv H. destruct a as [b1 s1]. apply IH in Ha.
        cbv beta iota in H. destruct b1.
        { apply IHl in H. eauto using extends_trans. }
        { inversion H; subst. exact Ha. }
  - (* and *)
    destruct is_not; cbn [negb] in H.
    + destruct (first_with _ args);
        inversion H; subst; auto using extends_refl, extends_push_back.
    + inversion H; subst. apply extends_append.
  - (* or *)
    destruct is_not; cbn [negb] in H.
    + inversion H; subst. apply extends_append.
    + destruct (first_with _ args);
        inversion H; subst; auto using extends_refl, extends_push_back.
Qed.

(** *** The exceptions of the linearizers *)

Lemma id_of_errors v s e : lin_id v s = Err e -> term_error e.
Proof.
  unfold id_of. destruct (find (tids s) v); [discriminate|].
  destruct (is_numeral (eval (ev s) v)).
  - destruct (add_var _ _ _); discriminate.
  - intros H; inversion H; subst. right; reflexivity.
Qed.

Lemma extract_loop_errors ts : forall coeffs s e,
  lin_extract_loop ts coeffs s = Err e -> term_error e.
Proof.
  induction ts as [|[v q] ts IH]; simpl; intros coeffs s e H;
    [discriminate|].
  apply bind_Err in H. destruct H as [H|[[id s1] [_ H]]].
  - eapply id_of_errors; eauto.
  - eapply IH; eauto.
Qed.

Lemma extract_coefficients_errors ts s e :
  lin_extract ts s = Err e -> term_error e.
Proof. apply extract_loop_errors. Qed.

Lemma linearize_term_errors t : forall mul a e,
  lin_term t mul a = Err e -> term_error e.
Proof.
  induction t using expr_nested_ind; intros mul a e Hlin;
    cbn [linearize_term] in Hlin;
    destruct (contains (tids (acc_st a)) _) eqn:Hc; try discriminate.
  - (* addition *)
    clear Hc. revert a Hlin.
    induction H as [|arg r Harg Hr IH]; intros a Hlin; [discriminate|].
    apply bind_Err in Hlin. destruct Hlin as [Hlin|[a1 [_ Hlin]]]; eauto.
  - (* multiplication *)
    destruct args as [|t1 [|t2 [|t3 r]]]; try discriminate.
    inversion H as [|? ? IH1 H']; inversion H' as [|? ? IH2 _]; subst.
    destruct (is_extended_numeral t1); eauto.
    destruct (is_extended_numeral t2); eauto. discriminate.
  - (* subtraction *)
    destruct args as [|t1 [|t2 [|t3 r]]]; try discriminate.
    inversion H as [|? ? IH1 H']; inversion H' as [|? ? IH2 _]; subst.
    apply bind_Err in Hlin. destruct Hlin as [Hlin|[a1 [_ Hlin]]]; eauto.
  - (* unary minus *)
    eauto.
  - (* mod *)
    destruct (is_numeral_pos is_extended_numeral t2); [|discriminate].
    apply bind_Err in Hlin. destruct Hlin as [Hlin|[a0 [_ Hlin]]]; eauto.
    apply bind_Err in Hlin. destruct Hlin as [Hlin|[[coeffs s1] [_ Hlin]]].
    + eapply extract_coefficients_errors; eauto.
    + cbv beta iota in Hlin. destruct (add_mod _ _ _ _). discriminate.
  - (* div *)
    destruct (is_numeral_pos is_extended_numeral t2); [|discriminate].
    apply bind_Err in Hlin. destruct Hlin as [Hlin|[a0 [_ Hlin]]]; eauto.
    apply bind_Err in Hlin. destruct Hlin as [Hlin|[[coeffs s1] [_ Hlin]]].
    + eapply extract_coefficients_errors; eauto.
    + cbv beta iota in Hlin. destruct (add_div _ _ _ _). discriminate.
  - (* ite *)
    destruct (is_true (eval (ev (acc_st a)) t1)).
    + apply bind_Err in Hlin. destruct Hlin as [Hlin|[a1 [_ Hlin]]]; eauto.
      discriminate.
    + destruct (is_false (eval (ev (acc_st a)) t1)); eauto.
      inversion Hlin; subst. left; reflexivity.
Qed.

Lemma linearize_diff_errors mul e1 e2 s e :
  linearize_diff eval is_extended_numeral mk_not mul e1 e2 s = Err e ->
  term_error e.
Proof.
  unfold linearize_diff. intros H. apply bind_Err in H.
  destruct H as [H|[a1 [_ H]]]; eapply linearize_term_errors; eauto.
Qed.

Lemma submit_errors ty a e : submit eval ty a = Err e -> term_error e.
Proof.
  unfold submit. intros H. apply bind_Err in H.
  destruct H as [H|[[coeffs s1] [_ H]]]; [|discriminate].
  eapply extract_coefficients_errors; eauto.
Qed.

Lemma diff_submit_errors mul e1 e2 ty s e :
  (a <- linearize_diff eval is_extended_numeral mk_not mul e1 e2 s ;;
   submit eval ty a) = Err e -> term_error e.
Proof.
  intros H. apply bind_Err in H. destruct H as [H|[a [_ H]]].
  - eapply linearize_diff_errors; eauto.
  - eapply submit_errors; eauto.
Qed.

Lemma find_equal_errors mul args : forall values ty a e,
  find_equal eval is_extended_numeral mk_not mul args values ty a = Err e ->
  term_error e.
Proof.
  induction args as [|arg1 rest IH]; simpl; intros values ty a e H;
    [discriminate|].
  destruct (is_numeral (eval (ev (acc_st a)) arg1)) as [q|]; [|discriminate].
  destruct (find_value values q) as [arg2|]; eauto.
  apply bind_Err in H. destruct H as [H|[a1 [_ H]]];
    [eapply linearize_term_errors; eauto|].
  apply bind_Err in H. destruct H as [H|[a2 [_ H]]];
    [eapply linearize_term_errors; eauto | discriminate].
Qed.

(** A literal is refused with an exception only when an evaluation
    fails, or when it is a [distinct] without arguments; with depth 2
    the bound on nested calls is never reached. *)
Lemma linearize_errors lit s e :
  lin_lit 2 lit s = Err e ->
  term_error e \/ (e = null_deref /\
                   (lit = Distinct [] \/ lit = Not (Distinct []))).
Proof.
  intros H. cbn [linearize] in H.
  destruct m_inc; cbn [negb] in H; [|discriminate].
  assert (Hatom : forall args,
             match lit with Not l => l | _ => lit end = Distinct args ->
             lit = Distinct args \/ lit = Not (Distinct args)).
  { intros args. destruct lit; intros E; try discriminate; subst; auto. }
  revert Hatom H.
  set (is_not := match lit with Not _ => true | _ => false end).
  set (atom := match lit with Not l => l | _ => lit end).
  clearbody is_not atom. intros Hatom H.
  destruct atom; try discriminate;
    try (left; eapply diff_submit_errors; eassumption).
  - (* = *)
    destruct (is_arith atom1); cbn [negb] in H; [|discriminate].
    destruct is_not; cbn [negb] in H.
    + destruct (is_numeral (eval (ev s) atom1)) as [r1|]; [|discriminate].
      destruct (is_numeral (eval (ev s) atom2)) as [r2|]; [|discriminate].
      destruct (Qlt_bool r1 r2); left; eapply diff_submit_errors; eauto.
    + left; eapply diff_submit_errors; eauto.
  - (* distinct *)
    destruct args as [|arg0 args].
    { inversion H; subst. right. split; auto. }
    destruct (is_arith arg0); cbn [negb] in H; [|discriminate].
    destruct is_not; cbn [negb] in H.
    + apply bind_Err in H. destruct H as [H|[r [_ H]]].
      * left; eapply find_equal_errors; eauto.
      * destruct r as [[ty a]|]; [|discriminate].
        left; eapply submit_errors; eauto.
    + destruct (eval_nums eval (ev s) (arg0 :: args)) as [nums|];
        [|discriminate].
      revert s H. generalize (sort_second nums) as l.
      induction l as [|x r IHl]; intros s H; [discriminate|].
      destruct r as [|y r']; [discriminate|].
      apply bind_Err in H. destruct H as [H|[[b1 s1] [_ H]]].
      * cbn [linearize negb] in H.
        left; eapply diff_submit_errors; eauto.
      * cbv beta iota in H. destruct b1; [eauto | discriminate].
  - (* and *)
    destruct is_not; cbn [negb] in H; [|discriminate].
    destruct (first_with _ args); discriminate.
  - (* or *)
    destruct is_not; cbn [negb] in H; [discriminate|].
    destruct (first_with _ args); discriminate.
Qed.

(** More depth changes nothing. *)
Lemma linearize_depth d lit s : lin_lit (S (S d)) lit s = lin_lit 2 lit s.
Proof.
  cbn [linearize]. destruct m_inc; cbn [negb]; [|reflexivity].
  set (is_not := match lit with Not _ => true | _ => false end).
  set (atom := match lit with Not l => l | _ => lit end).
  clearbody is_not atom.
  destruct atom; reflexivity.
Qed.

(** *** Evaluation failures *)

Lemma find_value_none values q :
  Forall (fun v => ~ q == fst v) values -> find_value values q = None.
Proof.
  induction 1 as [|[r e] values Hv _ IH]; simpl; auto.
  destruct (Qeq_bool q r) eqn:E; auto.
  apply Qeq_bool_iff in E. contradiction.
Qed.

Lemma find_equal_bad mul bad post ty a : forall pre nums values,
  eval_nums eval (ev (acc_st a)) pre = Some nums ->
  Forall (fun n => Forall (fun v => ~ snd n == fst v) values) nums ->
  ForallOrdPairs (fun n n' => ~ snd n == snd n') nums ->
  is_numeral (eval (ev (acc_st a)) bad) = None ->
  find_equal eval is_extended_numeral mk_not mul (pre ++ bad :: post)
    values ty a = Ok None.
Proof.
  induction pre as [|x pre IH]; simpl; intros nums values Hn Hv Hd Hbad.
  - rewrite Hbad. reflexivity.
  - destruct (is_numeral (eval (ev (acc_st a)) x)) as [q|]; [|discriminate].
    destruct (eval_nums eval (ev (acc_st a)) pre) as [nums'|];
      [|discriminate].
    inversion Hn; subst. inversion Hv as [|? ? Hq Hv']; subst.
    inversion Hd as [|? ? Hq' Hd']; subst. simpl in *.
    rewrite (find_value_none _ _ Hq).
    apply (IH nums'); auto.
    rewrite Forall_forall in *. intros n Hin.
    apply Forall_app. split; auto.
    constructor; auto. simpl. intros E. apply (Hq' n Hin).
    symmetry. exact E.
Qed.

Lemma eval_nums_none ev0 args arg :
  In arg args -> is_numeral (eval ev0 arg) = None ->
  eval_nums eval ev0 args = None.
Proof.
  induction args as [|x args IH]; simpl; intros Hin Hbad; [contradiction|].
  destruct Hin as [->|Hin].
  - rewrite Hbad. reflexivity.
  - rewrite (IH Hin Hbad). destruct (is_numeral (eval ev0 x)); reflexivity.
Qed.

(** *** [tids] only grows *)

Lemma tids_le_refl s : tids_le s s.
Proof. intros k id H; exact H. Qed.

Lemma tids_le_trans s1 s2 s3 : tids_le s1 s2 -> tids_le s2 s3 -> tids_le s1 s3.
Proof. intros H1 H2 k id H. auto. Qed.

Lemma tids_le_insert s o k id :
  find (tids s) k = None ->
  tids_le s (set_tids (set_mbo s o) (insert k id (tids s))).
Proof.
  intros Hk k' id' H. simpl. rewrite find_insert_other; auto.
  intros ->. congruence.
Qed.

Lemma id_of_tids v s id s' :
  lin_id v s = Ok (id, s') -> tids_le s s' /\ find (tids s') v = Some id.
Proof.
  unfold id_of. destruct (find (tids s) v) eqn:Hf.
  - intros H; inversion H; subst. split; auto using tids_le_refl.
  - destruct (is_numeral (eval (ev s) v)); [|discriminate].
    destruct (add_var q (is_int v) (mbo s)) as [id' o].
    intros H; inversion H; subst. split.
    + apply tids_le_insert; auto.
    + simpl. apply find_insert_same.
Qed.

Lemma extract_loop_tids ts : forall coeffs s coeffs' s',
  lin_extract_loop ts coeffs s = Ok (coeffs', s') ->
  tids_le s s' /\ forall e q, In (e, q) ts -> contains (tids s') e = true.
Proof.
  induction ts as [|[v q] ts IH]; simpl; intros coeffs s coeffs' s' H.
  - inversion H; subst. split; [apply tids_le_refl | contradiction].
  - bind_inv H. destruct a as [id s1]. simpl in H.
    apply id_of_tids in Ha. destruct Ha as [Hle Hv].
    apply IH in H. destruct H as [Hle' Hall]. split.
    + eapply tids_le_trans; eauto.
    + intros e q' [E|Hin]; [|eauto].
      inversion E; subst. unfold contains. rewrite (Hle' _ _ Hv).
      reflexivity.
Qed.

Lemma extract_coefficients_tids ts s coeffs s' :
  lin_extract ts s = Ok (coeffs, s') ->
  tids_le s s' /\ forall e q, In (e, q) ts -> contains (tids s') e = true.
Proof.
  unfold extract_coefficients. intros H.
  apply extract_loop_tids in H. exact H.
Qed.

Lemma linearize_each_extends lits : forall s s',
  linearize_each eval is_extended_numeral mk_not m_inc lits s = Ok s' ->
  extends lit_call s s'.
Proof.
  induction lits as [|fml rest IH]; cbn [linearize_each]; intros s s' H.
  - inversion H; subst. apply extends_refl.
  - bind_inv H. destruct a as [b s1]. cbv beta iota in H.
    apply linearize_extends in Ha. apply IH in H.
    eauto using extends_trans.
Qed.

Lemma extends_completion P s s' :
  extends P s s' -> ev_completion (ev s) = true ->
  ev_completion (ev s') = true.
Proof.
  intros [_ _ [E|E]] H; rewrite E; auto.
Qed.

(** *** The calls of the whole loops *)

Lemma linearize_loop_calls fuel : forall i j s j' s',
  linearize_loop eval is_extended_numeral mk_not m_inc fuel i j s =
  Ok (j', s') ->
  exists ks, m_calls (mbo s') = m_calls (mbo s) ++ ks /\ Forall lit_call ks.
Proof.
  induction fuel as [|fuel IH]; intros i j s j' s' H;
    cbn [linearize_loop] in H;
    destruct (nth_error (fmls s) i) as [fml|]; try discriminate.
  1, 3: inversion H; subst; exists []; rewrite app_nil_r; split; auto.
  bind_inv H. destruct a as [b s1]. cbv beta iota in H.
  apply linearize_extends in Ha. destruct Ha as [[k1 [C1 F1]] _ _].
  destruct b; apply IH in H; destruct H as [k2 [C2 F2]];
    cbn [mbo set_fmls] in C2;
    exists (k1 ++ k2); rewrite C2, C1, app_assoc; split; auto;
    apply Forall_app; auto.
Qed.

Lemma maximize_setup_calls default_completion fmls0 mdl t s3 :
  maximize_setup eval is_extended_numeral mk_not m_inc default_completion
    fmls0 mdl t = Ok s3 ->
  Forall (fun k => nonzero_coeffs (call_coeffs k)) (m_calls (mbo s3)).
Proof.
  unfold maximize_setup. intros H.
  bind_inv H. bind_inv H. destruct a0 as [coeffs s1]. cbv beta iota in H.
  apply linearize_term_extends in Ha. destruct Ha as [[k1 [C1 F1]] _ _].
  apply (extract_coefficients_extends lit_call) in Ha0.
  destruct Ha0 as [[[k2 [C2 F2]] _ _] [Hnz _]].
  apply linearize_each_extends in H. destruct H as [[k3 [C3 F3]] _ _].
  cbn [mbo set_mbo set_objective record_call m_calls acc_st mbo_empty] in *.
  rewrite C3, C2, C1. simpl.
  repeat (apply Forall_app; split).
  - eapply Forall_impl; [|exact F1]. intros k Hk.
    destruct k; simpl in *; tauto.
  - eapply Forall_impl; [|exact F2]. intros k Hk.
    destruct k; simpl in *; tauto.
  - constructor; [exact Hnz | constructor].
  - eapply Forall_impl; [|exact F3]. intros k Hk.
    destruct k; simpl in *; tauto.
Qed.

End ImpFacts.

(** ** The linearization loop comes to an end *)

Lemma weight_total (l : list expr) :
  (fix total (l : list expr) : nat :=
     match l with
     | [] => 0%nat
     | x :: r => (weight x + total r)%nat
     end) l = total_weight l.
Proof. induction l as [|x l IH]; simpl; congruence. Qed.

Lemma weight_Add args : weight (Add args) = S (2 * total_weight args).
Proof. reflexivity. Qed.

Lemma weight_Distinct args :
  weight (Distinct args) = S (2 * total_weight args).
Proof. reflexivity. Qed.

Lemma weight_And args : weight (And args) = S (2 * total_weight args).
Proof. reflexivity. Qed.

Lemma weight_Or args : weight (Or args) = S (2 * total_weight args).
Proof. reflexivity. Qed.

Lemma weight_pos e : (1 <= weight e)%nat.
Proof. destruct e; simpl; lia. Qed.

Lemma total_weight_cons x l :
  total_weight (x :: l) = (weight x + total_weight l)%nat.
Proof. reflexivity. Qed.

Lemma total_weight_app l1 l2 :
  total_weight (l1 ++ l2) = (total_weight l1 + total_weight l2)%nat.
Proof. induction l1 as [|x l1 IH]; simpl; lia. Qed.

Lemma total_weight_in e l : In e l -> (weight e <= total_weight l)%nat.
Proof.
  induction l as [|x l IH]; simpl; intros H; [contradiction|].
  destruct H as [->|H]; [lia|]. apply IH in H. lia.
Qed.

Lemma total_weight_length l : (length l <= total_weight l)%nat.
Proof.
  induction l as [|x l IH]; simpl; [lia|].
  pose proof (weight_pos x). lia.
Qed.

Section LoopEnds.

Variable eval : model_evaluator -> expr -> expr.
Variable is_extended_numeral : expr -> option Q.
Variable mk_not : expr -> expr.
Variable m_inc : bool.
(** [mk_not] adds at most a negation. *)
Hypothesis mk_not_weight :
  forall e, (weight (mk_not e) <= weight (Not e))%nat.

Local Notation lin_id := (id_of eval).
Local Notation lin_extract_loop := (extract_loop eval).
Local Notation lin_extract := (extract_coefficients eval).
Local Notation lin_term := (linearize_term eval is_extended_numeral mk_not).
Local Notation lin_lit := (linearize eval is_extended_numeral mk_not m_inc).

Lemma id_of_fmls v s id s' : lin_id v s = Ok (id, s') -> fmls s' = fmls s.
Proof.
  unfold id_of. destruct (find (tids s) v).
  - intros H; inversion H; reflexivity.
  - destruct (is_numeral (eval (ev s) v)); [|discriminate].
    destruct (add_var _ _ _). intros H; inversion H; reflexivity.
Qed.

Lemma extract_coefficients_fmls ts s coeffs s' :
  lin_extract ts s = Ok (coeffs, s') -> fmls s' = fmls s.
Proof.
  unfold extract_coefficients.
  change (fmls s) with (fmls (set_ev s (set_model_completion true (ev s)))).
  generalize (set_ev s (set_model_completion true (ev s))) as s0.
  generalize (@nil var) as c0. revert coeffs s'.
  induction ts as [|[v q] ts IH]; cbn [extract_loop];
    intros coeffs s' c0 s0 H.
  - inversion H; reflexivity.
  - bind_inv H. destruct a as [id s1]. cbv beta iota in H.
    apply IH in H. apply id_of_fmls in Ha. congruence.
Qed.

(** The side literals of a term weigh less than the term. *)
Lemma linearize_term_weight t mul a a' :
  lin_term t mul a = Ok a' ->
  exists ls, fmls (acc_st a') = fmls (acc_st a) ++ ls /\
             (S (total_weight ls) <= weight t)%nat.
Proof.
  revert t mul a a'.
  apply (linearize_term_ok_ind eval is_extended_numeral mk_not
           (fun t mul a a' =>
              exists ls, fmls (acc_st a') = fmls (acc_st a) ++ ls /\
                         (S (total_weight ls) <= weight t)%nat)).
  - intros t mul a. exists []. rewrite app_nil_r. split; auto.
    apply weight_pos.
  - intros t1 t2 mul1 mul a a' _ _ _ [ls [Hf Hw]]. exists ls.
    split; auto. simpl. lia.
  - intros t1 t2 mul1 mul a a' _ _ _ _ [ls [Hf Hw]]. exists ls.
    split; auto. simpl. lia.
  - intros t1 mul a a' _ _ [ls [Hf Hw]]. exists ls. split; auto. simpl. lia.
  - intros mul1 i mul a _. exists []. rewrite app_nil_r. split; auto.
  - intros args mul a a' _ Hch.
    assert (H : exists ls, fmls (acc_st a') = fmls (acc_st a) ++ ls /\
                           (total_weight ls <= total_weight args)%nat).
    { induction Hch as [a|arg r a a1 a' _ [l1 [Hf1 Hw1]] _ [l2 [Hf2 Hw2]]].
      - exists []. rewrite app_nil_r. split; auto.
      - exists (l1 ++ l2). rewrite Hf2, Hf1, app_assoc. split; auto.
        rewrite total_weight_app. simpl. lia. }
    destruct H as [ls [Hf Hw]]. exists ls. split; auto.
    rewrite weight_Add. lia.
  - intros t1 t2 mul a a1 a' _ _ [l1 [Hf1 Hw1]] _ [l2 [Hf2 Hw2]].
    exists (l1 ++ l2). rewrite Hf2, Hf1, app_assoc. split; auto.
    rewrite total_weight_app. simpl. lia.
  - intros t1 t2 t3 mul a a1 _ _ _ [ls [Hf Hw]].
    exists (ls ++ [t1]). cbn [acc_st push_back fmls set_fmls].
    rewrite Hf, app_assoc. split; auto.
    rewrite total_weight_app. simpl. lia.
  - intros t1 t2 t3 mul a a' _ _ _ _ [ls [Hf Hw]].
    cbn [acc_st push_back fmls set_fmls] in Hf.
    exists (mk_not t1 :: ls). rewrite Hf, <- app_assoc. split; auto.
    pose proof (mk_not_weight t1) as Hn. cbn [weight] in *.
    rewrite total_weight_cons. lia.
  - intros t1 t2 mul1 mul a a0 coeffs s1 _ _ _ [ls [Hf Hw]] Hx.
    apply extract_coefficients_fmls in Hx. cbn [acc_st] in Hf.
    exists ls. cbn [acc_st fmls set_tids set_mbo].
    rewrite Hx, Hf. split; auto. simpl. lia.
  - intros t1 t2 mul1 mul a a0 coeffs s1 _ _ _ [ls [Hf Hw]] Hx.
    apply extract_coefficients_fmls in Hx. cbn [acc_st] in Hf.
    exists ls. cbn [acc_st fmls set_tids set_mbo].
    rewrite Hx, Hf. split; auto. simpl. lia.
Qed.

Lemma submit_fmls ty a b s' :
  submit eval ty a = Ok (b, s') -> fmls s' = fmls (acc_st a).
Proof.
  intros H. apply submit_inv in H. destruct H as [coeffs [s1 [Hx [_ ->]]]].
  apply extract_coefficients_fmls in Hx. exact Hx.
Qed.

Lemma diff_submit_weight mul e1 e2 ty s b s' :
  (a <- linearize_diff eval is_extended_numeral mk_not mul e1 e2 s ;;
   submit eval ty a) = Ok (b, s') ->
  exists ls, fmls s' = fmls s ++ ls /\
             (total_weight ls + 2 <= weight e1 + weight e2)%nat.
Proof.
  intros H. bind_inv H. unfold linearize_diff in Ha. bind_inv Ha.
  apply linearize_term_weight in Ha0, Ha.
  destruct Ha0 as [l1 [Hf1 Hw1]], Ha as [l2 [Hf2 Hw2]].
  apply submit_fmls in H. cbn [acc_st] in Hf1.
  exists (l1 ++ l2). rewrite H, Hf2, Hf1, app_assoc. split; auto.
  rewrite total_weight_app. lia.
Qed.

Lemma sort_insert_weight x l :
  total_weight (map fst (sort_insert x l)) =
  (weight (fst x) + total_weight (map fst l))%nat.
Proof.
  induction l as [|y l IH]; simpl; auto.
  destruct (Qlt_bool (snd x) (snd y)); simpl; auto. rewrite IH. lia.
Qed.

Lemma sort_second_weight l :
  total_weight (map fst (sort_second l)) = total_weight (map fst l).
Proof.
  unfold sort_second.
  assert (H : forall acc,
             total_weight
               (map fst (fold_left (fun acc x => sort_insert x acc) l acc)) =
             (total_weight (map fst l) + total_weight (map fst acc))%nat).
  { induction l as [|x l IH]; intros acc; simpl; auto.
    rewrite IH, sort_insert_weight. lia. }
  rewrite H. simpl. lia.
Qed.

Lemma eval_nums_fst ev0 args : forall nums,
  eval_nums eval ev0 args = Some nums -> map fst nums = args.
Proof.
  induction args as [|arg args IH]; simpl; intros nums H.
  - inversion H; reflexivity.
  - destruct (is_numeral (eval ev0 arg)); [|discriminate].
    destruct (eval_nums eval ev0 args) as [l|]; [|discriminate].
    inversion H; subst. simpl. f_equal. apply IH. reflexivity.
Qed.

Lemma find_value_in values : forall r e,
  find_value values r = Some e -> In e (map snd values).
Proof.
  induction values as [|[r' e'] values IH]; simpl; intros r e H;
    [discriminate|].
  destruct (Qeq_bool r r'); [inversion H; auto | eauto].
Qed.

Lemma first_with_in p args : forall e,
  first_with p args = Some e -> In e args.
Proof.
  induction args as [|arg args IH]; simpl; intros e H; [discriminate|].
  destruct (p arg); [inversion H; auto | eauto].
Qed.

Lemma find_equal_weight mul bound args : forall values ty a r,
  find_equal eval is_extended_numeral mk_not mul args values ty a = Ok r ->
  (forall e, In e args -> (weight e <= bound)%nat) ->
  (forall e, In e (map snd values) -> (weight e <= bound)%nat) ->
  match r with
  | None => True
  | Some (_, a') =>
      exists ls, fmls (acc_st a') = fmls (acc_st a) ++ ls /\
                 (total_weight ls <= 2 * bound)%nat
  end.
Proof.
  induction args as [|arg1 rest IH]; simpl; intros values ty a r H Ha Hv.
  - inversion H; subst. exists []. rewrite app_nil_r. split; auto. simpl. lia.
  - destruct (is_numeral (eval (ev (acc_st a)) arg1)) as [q|].
    + destruct (find_value values q) as [arg2|] eqn:Hfv.
      * bind_inv H. bind_inv H. inversion H; subst.
        apply linearize_term_weight in Ha0, Ha1.
        destruct Ha0 as [l1 [Hf1 Hw1]], Ha1 as [l2 [Hf2 Hw2]].
        exists (l1 ++ l2). rewrite Hf2, Hf1, app_assoc. split; auto.
        rewrite total_weight_app.
        apply find_value_in in Hfv. apply Hv in Hfv.
        pose proof (Ha arg1 (or_introl eq_refl)). lia.
      * eapply IH; eauto. intros e He. rewrite map_app in He.
        apply in_app_or in He. destruct He as [He|[<-|[]]]; auto.
    + inversion H; subst. exact I.
Qed.

(** The side literals of a literal weigh less than the literal. *)
Lemma linearize_weight depth lit s b s' :
  lin_lit depth lit s = Ok (b, s') ->
  exists ls, fmls s' = fmls s ++ ls /\
             (S (total_weight ls) <= weight lit)%nat.
Proof.
  intros H. destruct depth as [|depth]; [discriminate|].
  cbn [linearize] in H.
  assert (Hnone : exists ls, fmls s = fmls s ++ ls /\
                             (S (total_weight ls) <= weight lit)%nat).
  { exists []. rewrite app_nil_r. split; auto. apply weight_pos. }
  destruct m_inc; cbn [negb] in H; [|inversion H; subst; exact Hnone].
  assert (Hw : (weight match lit with Not l => l | _ => lit end
                <= weight lit)%nat /\
               (match lit with Not _ => true | _ => false end = true ->
                (S (2 * weight match lit with Not l => l | _ => lit end)
                 <= weight lit)%nat)).
  { destruct lit; simpl; split; intros; try discriminate; lia. }
  revert Hw H.
  set (is_not := match lit with Not _ => true | _ => false end).
  set (atom := match lit with Not l => l | _ => lit end).
  clearbody is_not atom. intros [Hw Hwn] H.
  assert (Hcmp : forall mul e1 e2 ty,
             (a <- linearize_diff eval is_extended_numeral mk_not mul e1 e2 s ;;
              submit eval ty a) = Ok (b, s') ->
             (S (2 * (weight e1 + weight e2)) <= weight lit)%nat ->
             exists ls, fmls s' = fmls s ++ ls /\
                        (S (total_weight ls) <= weight lit)%nat).
  { intros mul e1 e2 ty H0 Hle. apply diff_submit_weight in H0.
    destruct H0 as [ls [Hf Hl]]. exists ls. split; auto. lia. }
  destruct atom; try (inversion H; subst; exact Hnone);
    try (eapply Hcmp; [exact H | simpl in Hw; lia]).
  - (* = *)
    destruct (is_arith atom1); cbn [negb] in H;
      [|inversion H; subst; exact Hnone].
    destruct is_not; cbn [negb] in H.
    + destruct (is_numeral (eval (ev s) atom1)) as [r1|];
        [|inversion H; subst; exact Hnone].
      destruct (is_numeral (eval (ev s) atom2)) as [r2|];
        [|inversion H; subst; exact Hnone].
      destruct (Qlt_bool r1 r2);
        (eapply Hcmp; [exact H | simpl in Hw; lia]).
    + eapply Hcmp; [exact H | simpl in Hw; lia].
  - (* distinct *)
    rewrite weight_Distinct in Hw.
    destruct args as [|arg0 args]; [discriminate|].
    destruct (is_arith arg0); cbn [negb] in H;
      [|inversion H; subst; exact Hnone].
    destruct is_not; cbn [negb] in H.
    + bind_inv H.
      apply (find_equal_weight _ (total_weight (arg0 :: args))) in Ha;
        [|intros e He; apply total_weight_in; exact He|intros e []].
      destruct a as [[ty a']|]; [|inversion H; subst; exact Hnone].
      destruct Ha as [ls [Hf Hl]]. apply submit_fmls in H.
      exists ls. rewrite H, Hf. split; auto. lia.
    + destruct (eval_nums eval (ev s) (arg0 :: args)) as [nums|] eqn:Hn;
        [|inversion H; subst; exact Hnone].
      assert (HW : total_weight (map fst (sort_second nums)) =
                   total_weight (arg0 :: args))
        by (rewrite sort_second_weight, (eval_nums_fst _ _ _ Hn);
            reflexivity).
      assert (Hp : exists ls, fmls s' = fmls s ++ ls /\
                     (total_weight ls <=
                      2 * total_weight (map fst (sort_second nums)))%nat).
      { clear HW Hn Hcmp Hnone. revert s H.
        generalize (sort_second nums) as l.
        assert (G : forall l s,
                   (fix pairs (l : list (expr * Q)) (s : lin_state)
                      {struct l} : result (bool * lin_state) :=
                      match l with
                      | x :: (y :: _) as r =>
                          ' (b0, s1) <-
                            linearize eval is_extended_numeral mk_not true
                              depth (Lt (fst x) (fst y)) s;;
                          (if b0 then pairs r s1 else Ok (false, s1))
                      | _ => Ok (true, s)
                      end) l s = Ok (b, s') ->
                   exists ls, fmls s' = fmls s ++ ls /\
                     (total_weight ls +
                      match l with [] => 0 | x :: _ => weight (fst x) end
                      <= 2 * total_weight (map fst l))%nat).
        { induction l as [|x r IHl]; intros s0 H0.
          - inversion H0; subst. exists []. rewrite app_nil_r.
            split; auto.
          - destruct r as [|y r'].
            + inversion H0; subst. exists []. rewrite app_nil_r.
              split; auto. simpl. lia.
            + bind_inv H0. destruct a as [b1 s1]. cbv beta iota in H0.
              destruct depth as [|d]; [discriminate|].
              cbn [linearize negb] in Ha.
              apply diff_submit_weight in Ha.
              destruct Ha as [l1 [Hf1 Hl1]].
              destruct b1.
              * apply IHl in H0. destruct H0 as [l2 [Hf2 Hl2]].
                exists (l1 ++ l2). rewrite Hf2, Hf1, app_assoc.
                split; auto. rewrite total_weight_app.
                cbn [map total_weight fold_right fst] in *. lia.
              * inversion H0; subst. exists l1. split; auto.
                cbn [map total_weight fold_right fst] in *. lia. }
        intros l s0 H0. apply G in H0. destruct H0 as [ls [Hf Hl]].
        exists ls. split; auto. lia. }
      destruct Hp as [ls [Hf Hl]]. exists ls. split; auto. lia.
  - (* and *)
    rewrite weight_And in Hw.
    destruct is_not; cbn [negb] in H.
    + destruct (first_with _ args) as [arg|] eqn:Hfw;
        inversion H; subst; [|exact Hnone].
      apply first_with_in, total_weight_in in Hfw.
      exists [mk_not arg]. split; [reflexivity|].
      pose proof (mk_not_weight arg) as Hn. pose proof (Hwn eq_refl).
      rewrite weight_And in *. cbn [weight] in Hn.
      rewrite total_weight_cons. cbn [total_weight fold_right]. lia.
    + inversion H; subst. exists args. split; [reflexivity|]. lia.
  - (* or *)
    rewrite weight_Or in Hw.
    destruct is_not; cbn [negb] in H.
    + inversion H; subst. exists (map mk_not args). split; [reflexivity|].
      assert (Hm : (total_weight (map mk_not args)
                    <= length args + 2 * total_weight args)%nat).
      { clear - mk_not_weight.
        induction args as [|x l IH]; [simpl; lia|].
        cbn [map length]. rewrite !total_weight_cons.
        pose proof (mk_not_weight x) as Hn. cbn [weight] in Hn. lia. }
      pose proof (total_weight_length args). pose proof (Hwn eq_refl) as Hn.
      rewrite weight_Or in Hn. lia.
    + destruct (first_with _ args) as [arg|] eqn:Hfw;
        inversion H; subst; [|exact Hnone].
      apply first_with_in, total_weight_in in Hfw.
      exists [arg]. split; [reflexivity|]. simpl. lia.
Qed.

(** With fuel for the weight of the literals not yet visited, the loop
    of [project] ends: it returns, or a linearization raised. *)
Lemma linearize_loop_ends fuel : forall i j s,
  (j <= i)%nat ->
  (total_weight (skipn i (fmls s)) <= fuel)%nat ->
  linearize_loop eval is_extended_numeral mk_not m_inc fuel i j s <>
  Err out_of_fuel.
Proof.
  induction fuel as [|fuel IH]; intros i j s Hji Hw;
    cbn [linearize_loop];
    destruct (nth_error (fmls s) i) as [fml|] eqn:Hi; try discriminate.
  - rewrite (skipn_nth_error_cons _ _ _ Hi), total_weight_cons in Hw.
    pose proof (weight_pos fml). lia.
  - assert (Hlen : (i < length (fmls s))%nat)
      by (apply nth_error_Some; congruence).
    rewrite (skipn_nth_error_cons _ _ _ Hi), total_weight_cons in Hw.
    destruct (linearize eval is_extended_numeral mk_not m_inc 2 fml s)
      as [[b s1]|e] eqn:Hl; cbn [bind].
    + destruct (linearize_weight _ _ _ _ _ Hl) as [ls [Hf Hls]].
      destruct b; apply IH; try lia; cbn [fmls set_fmls].
      * rewrite Hf, skipn_app_le, total_weight_app by lia. lia.
      * rewrite skipn_set_nth by lia.
        rewrite Hf, skipn_app_le, total_weight_app by lia. lia.
    + intros E. inversion E; subst.
      apply linearize_errors in Hl.
      destruct Hl as [[Hl|Hl]|[Hl _]]; discriminate.
Qed.

(** More fuel does not change what the loop returns. *)
Lemma linearize_loop_fuel fuel : forall fuel' i j s r,
  (fuel <= fuel')%nat ->
  linearize_loop eval is_extended_numeral mk_not m_inc fuel i j s = Ok r ->
  linearize_loop eval is_extended_numeral mk_not m_inc fuel' i j s = Ok r.
Proof.
  induction fuel as [|fuel IH]; intros fuel' i j s r Hle H;
    cbn [linearize_loop] in H.
  - destruct (nth_error (fmls s) i) eqn:Hi; [discriminate|].
    destruct fuel'; cbn [linearize_loop]; rewrite Hi; exact H.
  - destruct fuel' as [|fuel']; [lia|]. cbn [linearize_loop].
    destruct (nth_error (fmls s) i); [|exact H].
    destruct (linearize eval is_extended_numeral mk_not m_inc 2 e s)
      as [[b s1]|e0]; cbn [bind] in *; [|discriminate].
    destruct b; apply IH; auto; lia.
Qed.

End LoopEnds.

(** ** The literal and term linearizers (claims C1, C2, C3, C9) *)

Section LinearizerClaims.

Variable eval : model_evaluator -> expr -> expr.
Variable is_extended_numeral : expr -> option Q.
Variable mk_not : expr -> expr.

Local Notation lin_extract := (extract_coefficients eval).
Local Notation lin_term := (linearize_term eval is_extended_numeral mk_not).
Local Notation lin_lit := (linearize eval is_extended_numeral mk_not).

(** C1 (as amended).  When the guard of an [ite] evaluates neither to
    true nor to false, the term linearizer, and with it the literal
    linearizer, aborts with the exception "mbp evaluation didn't
    produce a truth value".  When a side of a negated arithmetic
    equality, or an argument of an arithmetic [distinct] that the
    linearizer evaluates, does not evaluate to a numeral, the literal
    linearizer returns false and leaves the kernel, the side formulas
    and [tids] as they were: the literal stays in the residue. *)
Theorem linearize_evaluation_failure :
  (forall t1 t2 t3 mul a,
      contains (tids (acc_st a)) (Ite t1 t2 t3) = false ->
      is_true (eval (ev (acc_st a)) t1) = false ->
      is_false (eval (ev (acc_st a)) t1) = false ->
      lin_term (Ite t1 t2 t3) mul a =
      throw "mbp evaluation didn't produce a truth value") /\
  (forall depth t1 t2 t3 e2 s,
      contains (tids s) (Ite t1 t2 t3) = false ->
      is_true (eval (ev s) t1) = false ->
      is_false (eval (ev s) t1) = false ->
      lin_lit true (S depth) (Le (Ite t1 t2 t3) e2) s =
      throw "mbp evaluation didn't produce a truth value") /\
  (forall depth e1 e2 s,
      is_arith e1 = true ->
      is_numeral (eval (ev s) e1) = None \/
      is_numeral (eval (ev s) e2) = None ->
      lin_lit true (S depth) (Not (Eq e1 e2)) s = Ok (false, s)) /\
  (forall depth arg0 args bad s,
      is_arith arg0 = true ->
      In bad (arg0 :: args) ->
      is_numeral (eval (ev s) bad) = None ->
      lin_lit true (S depth) (Distinct (arg0 :: args)) s = Ok (false, s)) /\
  (forall depth arg0 args pre bad post nums s,
      is_arith arg0 = true ->
      arg0 :: args = pre ++ bad :: post ->
      eval_nums eval (ev s) pre = Some nums ->
      ForallOrdPairs (fun n n' => ~ snd n == snd n') nums ->
      is_numeral (eval (ev s) bad) = None ->
      lin_lit true (S depth) (Not (Distinct (arg0 :: args))) s =
      Ok (false, s)).
Proof.
  assert (Hite : forall t1 t2 t3 mul a,
      contains (tids (acc_st a)) (Ite t1 t2 t3) = false ->
      is_true (eval (ev (acc_st a)) t1) = false ->
      is_false (eval (ev (acc_st a)) t1) = false ->
      lin_term (Ite t1 t2 t3) mul a =
      throw "mbp evaluation didn't produce a truth value").
  { intros t1 t2 t3 mul a Hc Ht Hf. cbn [linearize_term].
    rewrite Hc, Ht, Hf. reflexivity. }
  split; [exact Hite|]. split; [|split; [|split]].
  - intros depth t1 t2 t3 e2 s Hc Ht Hf.
    cbn [linearize negb]. unfold linearize_diff.
    rewrite Hite; auto.
  - intros depth e1 e2 s Ha Hbad. cbn [linearize negb].
    rewrite Ha. cbn [negb].
    destruct Hbad as [Hbad|Hbad]; rewrite Hbad; [reflexivity|].
    destruct (is_numeral (eval (ev s) e1)); reflexivity.
  - intros depth arg0 args bad s Ha Hin Hbad. cbn [linearize negb].
    rewrite Ha. cbn [negb].
    rewrite (eval_nums_none eval _ _ _ Hin Hbad). reflexivity.
  - intros depth arg0 args pre bad post nums s Ha Hargs Hn Hd Hbad.
    cbn [linearize negb]. rewrite Ha. cbn [negb]. rewrite Hargs.
    rewrite (find_equal_bad eval is_extended_numeral mk_not (- (1)) bad post
               t_le (mk_acc 0 [] s) pre nums []); auto.
    rewrite Forall_forall. intros; constructor.
Qed.

Lemma lit_call_facts k :
  lit_call k -> nonzero_coeffs (call_coeffs k) /\ is_add_divides k = false.
Proof. destruct k; simpl; tauto. Qed.

(** C3.  The second arm for mod by a positive numeral (line 261, the
    one that calls [add_divides]) is dead: on a mod term the
    linearizer behaves as the function without that arm; no call that
    returns has submitted a divides constraint; and the exception of
    that arm is never raised. *)
Theorem mod_divides_arm_dead :
  (forall t1 t2 mul a,
      contains (tids (acc_st a)) (Mod t1 t2) = false ->
      lin_term (Mod t1 t2) mul a =
      match is_numeral_pos is_extended_numeral t2 with
      | Some mul1 =>
          a0 <- lin_term t1 1 (mk_acc 0 [] (acc_st a)) ;;
          '(coeffs, s1) <- lin_extract (acc_ts a0) (acc_st a0) ;;
          let '(v, o) := add_mod coeffs (acc_c a0) mul1 (mbo s1) in
          Ok (mk_acc (acc_c a) (insert_mul (Mod t1 t2) mul (acc_ts a))
                (set_tids (set_mbo s1 o) (insert (Mod t1 t2) v (tids s1))))
      | None => Ok (opaque (Mod t1 t2) mul a)
      end) /\
  (forall t mul a a',
      lin_term t mul a = Ok a' ->
      exists ks,
        m_calls (mbo (acc_st a')) = m_calls (mbo (acc_st a)) ++ ks /\
        forallb (fun k => negb (is_add_divides k)) ks = true) /\
  (forall m_inc depth lit s b s',
      lin_lit m_inc depth lit s = Ok (b, s') ->
      exists ks,
        m_calls (mbo s') = m_calls (mbo s) ++ ks /\
        forallb (fun k => negb (is_add_divides k)) ks = true) /\
  (forall t mul a,
      lin_term t mul a <>
      throw "mbp evaluation didn't produce an integer") /\
  (forall m_inc lit s,
      lin_lit m_inc 2 lit s <>
      throw "mbp evaluation didn't produce an integer").
Proof.
  assert (Hks : forall ks, Forall lit_call ks ->
              forallb (fun k => negb (is_add_divides k)) ks = true).
  { intros ks H. apply forallb_forall. intros k Hin.
    rewrite Forall_forall in H. apply H in Hin.
    apply lit_call_facts in Hin. destruct Hin as [_ ->]. reflexivity. }
  split; [|split; [|split; [|split]]].
  - intros t1 t2 mul a Hc. cbn [linearize_term]. rewrite Hc.
    destruct (is_numeral_pos is_extended_numeral t2); reflexivity.
  - intros t mul a a' H.
    apply linearize_term_extends in H.
    destruct H as [[ks [Hc Hk]] _ _]. exists ks. split; auto.
    apply Hks. eapply Forall_impl; [|exact Hk]. apply def_call_lit_call.
  - intros m_inc depth lit s b s' H.
    apply linearize_extends in H.
    destruct H as [[ks [Hc Hk]] _ _]. exists ks. split; auto.
  - intros t mul a H. apply linearize_term_errors in H.
    destruct H as [H|H]; discriminate.
  - intros m_inc lit s H. apply linearize_errors in H.
    destruct H as [[H|H]|[H _]]; discriminate.
Qed.

(** C9.  Coefficient extraction drops the entries whose coefficient is
    zero, and still gives each of them a kernel variable; every
    coefficient vector the term linearizer and the literal linearizer
    submit to the kernel is free of zero coefficients, and so is every
    vector the kernel has received when the linearization loop of
    [project] or the setup of [maximize] (objective included) is
    through. *)
Theorem submitted_coefficients_nonzero :
  (forall ts s coeffs s',
      lin_extract ts s = Ok (coeffs, s') ->
      Forall (fun v => ~ Var.m_coeff v == 0) coeffs /\
      forall e q, In (e, q) ts -> contains (tids s') e = true) /\
  (forall t mul a a',
      lin_term t mul a = Ok a' ->
      exists ks,
        m_calls (mbo (acc_st a')) = m_calls (mbo (acc_st a)) ++ ks /\
        Forall (fun k =>
                  Forall (fun v => ~ Var.m_coeff v == 0) (call_coeffs k)) ks) /\
  (forall m_inc depth lit s b s',
      lin_lit m_inc depth lit s = Ok (b, s') ->
      exists ks,
        m_calls (mbo s') = m_calls (mbo s) ++ ks /\
        Forall (fun k =>
                  Forall (fun v => ~ Var.m_coeff v == 0) (call_coeffs k)) ks) /\
  (forall m_inc fuel ev0 fmls0 j s',
      linearize_loop eval is_extended_numeral mk_not m_inc fuel 0 0
        (mk_lin_state mbo_empty ev0 fmls0 []) = Ok (j, s') ->
      Forall (fun k =>
                Forall (fun v => ~ Var.m_coeff v == 0) (call_coeffs k))
             (m_calls (mbo s'))) /\
  (forall m_inc default_completion fmls0 mdl t s',
      maximize_setup eval is_extended_numeral mk_not m_inc default_completion
        fmls0 mdl t = Ok s' ->
      Forall (fun k =>
                Forall (fun v => ~ Var.m_coeff v == 0) (call_coeffs k))
             (m_calls (mbo s'))).
Proof.
  split; [|split; [|split; [|split]]].
  4: { intros m_inc fuel ev0 fmls0 j s' H.
       apply linearize_loop_calls in H. destruct H as [ks [Hc Hk]].
       rewrite Hc. simpl.
       eapply Forall_impl; [|exact Hk].
       intros k Hd. apply lit_call_facts in Hd. tauto. }
  4: { intros m_inc dc fmls0 mdl t s' H.
       apply maximize_setup_calls in H. exact H. }
  - intros ts s coeffs s' H. split.
    + apply (extract_coefficients_extends eval lit_call) in H. tauto.
    + apply extract_coefficients_tids in H. tauto.
  - intros t mul a a' H.
    apply linearize_term_extends in H.
    destruct H as [[ks [Hc Hk]] _ _]. exists ks. split; auto.
    eapply Forall_impl; [|exact Hk].
    intros k Hd. apply def_call_lit_call, lit_call_facts in Hd. tauto.
  - intros m_inc depth lit s b s' H.
    apply linearize_extends in H.
    destruct H as [[ks [Hc Hk]] _ _]. exists ks. split; auto.
    eapply Forall_impl; [|exact Hk].
    intros k Hd. apply lit_call_facts in Hd. tauto.
Qed.

End LinearizerClaims.

(** ** The kernel holds the model (claim C2) *)

Lemma q_mod_comp a b m : a == b -> q_mod a m = q_mod b m.
Proof. intros H. unfold q_mod. rewrite H. reflexivity. Qed.

Lemma q_div_comp a b m : a == b -> q_div a m = q_div b m.
Proof. intros H. unfold q_div. rewrite H. reflexivity. Qed.

Lemma eval_coeffs_sum o coeffs : forall c,
  eval_coeffs o coeffs c == c + coeffs_sum o coeffs.
Proof.
  unfold eval_coeffs.
  induction coeffs as [|v coeffs IH]; intros c; simpl.
  - ring.
  - rewrite IH. ring.
Qed.

Lemma coeffs_sum_app o c1 c2 :
  coeffs_sum o (c1 ++ c2) == coeffs_sum o c1 + coeffs_sum o c2.
Proof.
  induction c1 as [|v c1 IH]; simpl.
  - ring.
  - rewrite IH. ring.
Qed.

Lemma var_value_app o more ints calls id :
  (id < length (m_var2value o))%nat ->
  var_value (mk_mbo (m_var2value o ++ more) ints calls) id = var_value o id.
Proof.
  intros H. unfold var_value. simpl. apply app_nth1. exact H.
Qed.

Lemma var_value_last o v ints calls :
  var_value (mk_mbo (m_var2value o ++ [v]) ints calls)
    (length (m_var2value o)) = v.
Proof.
  unfold var_value. simpl. rewrite app_nth2 by lia.
  rewrite Nat.sub_diag. reflexivity.
Qed.

Lemma set_model_completion_true ev0 :
  ev_completion ev0 = true -> set_model_completion true ev0 = ev0.
Proof. destruct ev0; simpl; intros ->; reflexivity. Qed.

Lemma Forall_keys_insert {V} (K : expr -> Prop) (m : obj_map V) k v :
  Forall (fun kv => K (fst kv)) (insert k v m) <->
  K k /\ Forall (fun kv => K (fst kv)) m.
Proof.
  induction m as [|[k' v'] m IH]; simpl.
  - split.
    + intros H; inversion H; subst. auto.
    + intros [H _]. constructor; auto.
  - destruct (expr_eqb k k') eqn:E.
    + apply expr_eqb_eq in E. subst k'. split.
      * intros H; inversion H; subst. simpl in *. split; auto.
      * intros [_ H]. inversion H; subst. constructor; auto.
    + split.
      * intros H; inversion H; subst. apply IH in H3. simpl in *.
        destruct H3. split; auto.
      * intros [Hk H]. inversion H; subst. constructor; auto.
        apply IH. auto.
Qed.

Lemma Forall_keys_insert_mul (K : expr -> Prop) ts t mul :
  Forall (fun kv => K (fst kv)) (insert_mul t mul ts) <->
  K t /\ Forall (fun kv => K (fst kv)) ts.
Proof.
  unfold insert_mul. destruct (find ts t); apply Forall_keys_insert.
Qed.

Section ModelFacts.

Variable eval : model_evaluator -> expr -> expr.
Variable is_extended_numeral : expr -> option Q.
Variable mk_not : expr -> expr.
Variable ev0 : model_evaluator.
Hypothesis ev0_completion : ev_completion ev0 = true.
Hypothesis ev0_arith : arith_eval eval is_extended_numeral ev0.

Local Notation lin_id := (id_of eval).
Local Notation lin_extract_loop := (extract_loop eval).
Local Notation lin_extract := (extract_coefficients eval).
Local Notation lin_term := (linearize_term eval is_extended_numeral mk_not).
Local Notation has_val := (has_value eval ev0).
Local Notation value_of := (val_of eval ev0).
Local Notation model_val := (qval eval ev0).
Local Notation ts_val := (ts_value eval ev0).
Local Notation acc_val := (acc_value eval ev0).
Local Notation in_model := (holds_model eval ev0).
Local Notation numeral_leaves := (leaves_ok eval ev0).

Lemma has_value_eq e q q' : has_val e q -> q == q' -> has_val e q'.
Proof.
  intros [r [Hr E]] E'. exists r. split; auto. rewrite E. exact E'.
Qed.

Lemma has_value_qval e q : has_val e q -> model_val e == q.
Proof.
  intros [r [Hr E]]. unfold qval. rewrite Hr. exact E.
Qed.

Lemma val_of_has_value e r : value_of e = Some r -> has_val e r.
Proof. intros H. exists r. split; auto. reflexivity. Qed.

Lemma ts_value_insert_new ts x v :
  find ts x = None ->
  ts_val (insert x v ts) == ts_val ts + v * model_val x.
Proof.
  induction ts as [|[k w] ts IH]; simpl; intros H.
  - ring.
  - destruct (expr_eqb x k) eqn:E; [discriminate|].
    simpl. rewrite (IH H). ring.
Qed.

Lemma ts_value_insert_old ts x w v :
  find ts x = Some w ->
  ts_val (insert x (w + v) ts) == ts_val ts + v * model_val x.
Proof.
  induction ts as [|[k w'] ts IH]; simpl; intros H; [discriminate|].
  destruct (expr_eqb x k) eqn:E.
  - inversion H; subst. apply expr_eqb_eq in E. subst k. simpl. ring.
  - simpl. rewrite (IH H). ring.
Qed.

Lemma ts_value_insert_mul ts t mul :
  ts_val (insert_mul t mul ts) == ts_val ts + mul * model_val t.
Proof.
  unfold insert_mul. destruct (find ts t) eqn:E.
  - apply ts_value_insert_old; auto.
  - apply ts_value_insert_new; auto.
Qed.

Lemma vals_ext_refl s : vals_ext s s.
Proof. exists []. rewrite app_nil_r. reflexivity. Qed.

Lemma vals_ext_trans s1 s2 s3 : vals_ext s1 s2 -> vals_ext s2 s3 -> vals_ext s1 s3.
Proof.
  intros [m1 H1] [m2 H2]. exists (m1 ++ m2). rewrite H2, H1, app_assoc.
  reflexivity.
Qed.

Lemma vals_ext_length s s' :
  vals_ext s s' ->
  (length (m_var2value (mbo s)) <= length (m_var2value (mbo s')))%nat.
Proof. intros [more H]. rewrite H, length_app. lia. Qed.

Lemma var_value_ext s s' id :
  vals_ext s s' -> (id < length (m_var2value (mbo s)))%nat ->
  var_value (mbo s') id = var_value (mbo s) id.
Proof.
  intros [more H] Hid. unfold var_value. rewrite H. apply app_nth1. exact Hid.
Qed.

Lemma coeffs_sum_ext s s' coeffs :
  vals_ext s s' -> ids_below (length (m_var2value (mbo s))) coeffs ->
  coeffs_sum (mbo s') coeffs = coeffs_sum (mbo s) coeffs.
Proof.
  intros He. induction 1 as [|v coeffs Hv _ IH]; simpl; auto.
  rewrite IH, (var_value_ext _ _ _ He Hv). reflexivity.
Qed.

Lemma ids_below_le n m coeffs :
  (n <= m)%nat -> ids_below n coeffs -> ids_below m coeffs.
Proof.
  intros Hle H. eapply Forall_impl; [|exact H]. simpl. intros; lia.
Qed.

Lemma id_of_model v s id s' :
  in_model s -> lin_id v s = Ok (id, s') ->
  in_model s' /\ vals_ext s s' /\
  (id < length (m_var2value (mbo s')))%nat /\
  has_val v (var_value (mbo s') id).
Proof.
  intros [Hev Hm]. unfold id_of. destruct (find (tids s) v) as [id0|] eqn:Hf.
  - intros H; inversion H as [[Hid Hs]]. subst id s'.
    destruct (Hm _ _ Hf) as [Hlt Hv].
    split; [split; assumption|].
    split; [apply vals_ext_refl|]. split; assumption.
  - rewrite Hev. destruct (is_numeral (eval ev0 v)) as [r|] eqn:Hr;
      [|discriminate].
    unfold add_var. intros H; inversion H as [[Hid Hs]]; clear H.
    subst id s'.
    assert (Hext : vals_ext s
              (set_tids
                 (set_mbo s
                    (mk_mbo (m_var2value (mbo s) ++ [r])
                       (m_var2is_int (mbo s) ++ [is_int v])
                       (m_calls (mbo s))))
                 (insert v (length (m_var2value (mbo s))) (tids s))))
      by (exists [r]; reflexivity).
    split; [|split; [exact Hext|split]].
    + split; [exact Hev|]. intros e id0 He. cbn [tids set_tids] in He.
      cbn [mbo set_tids set_mbo m_var2value].
      destruct (expr_eqb e v) eqn:E.
      * apply expr_eqb_eq in E. subst e. rewrite find_insert_same in He.
        inversion He; subst id0. rewrite length_app. simpl. split; [lia|].
        rewrite var_value_last. apply val_of_has_value. exact Hr.
      * apply expr_eqb_neq in E. rewrite find_insert_other in He by auto.
        destruct (Hm _ _ He) as [Hlt Hv]. rewrite length_app. split; [lia|].
        rewrite var_value_app by exact Hlt. exact Hv.
    + simpl. rewrite length_app. simpl. lia.
    + simpl. rewrite var_value_last. apply val_of_has_value. exact Hr.
Qed.

Lemma extract_loop_model ts : forall coeffs s coeffs' s',
  in_model s -> lin_extract_loop ts coeffs s = Ok (coeffs', s') ->
  in_model s' /\ vals_ext s s' /\ numeral_leaves ts /\
  (ids_below (length (m_var2value (mbo s))) coeffs ->
   coeffs_sum (mbo s') coeffs' == coeffs_sum (mbo s) coeffs + ts_val ts).
Proof.
  induction ts as [|[v q] ts IH]; cbn [extract_loop];
    intros coeffs s coeffs' s' Hm H.
  - inversion H; subst. split; [exact Hm|].
    split; [apply vals_ext_refl|]. split; [constructor|].
    intros _. simpl. ring.
  - bind_inv H. destruct a as [id s1]. cbv beta iota in H.
    destruct (id_of_model _ _ _ _ Hm Ha) as [Hm1 [He1 [Hid Hv]]].
    destruct (IH _ _ _ _ Hm1 H) as [Hm' [He' [Hl Hsum]]].
    split; [exact Hm'|]. split; [eauto using vals_ext_trans|]. split.
    + constructor; auto. simpl. destruct Hv as [r [Hr _]]. eauto.
    + intros Hb.
      assert (Hb1 : ids_below (length (m_var2value (mbo s1))) coeffs)
        by (eapply ids_below_le; [apply vals_ext_length; eauto | exact Hb]).
      cbn [ts_value fold_right fst snd]. fold (ts_val ts).
      destruct (Qeq_bool q 0) eqn:Hq.
      * apply Qeq_bool_iff in Hq. rewrite (Hsum Hb1).
        rewrite (coeffs_sum_ext _ _ _ He1 Hb). rewrite Hq. ring.
      * rewrite Hsum.
        -- rewrite coeffs_sum_app. simpl.
           rewrite (coeffs_sum_ext _ _ _ He1 Hb).
           rewrite (has_value_qval _ _ Hv). ring.
        -- apply Forall_app. split; [exact Hb1|]. constructor; auto.
Qed.

Lemma extract_coefficients_model ts s coeffs s' :
  in_model s -> lin_extract ts s = Ok (coeffs, s') ->
  in_model s' /\ vals_ext s s' /\ numeral_leaves ts /\
  forall c, eval_coeffs (mbo s') coeffs c == c + ts_val ts.
Proof.
  intros [Hev Hm] H. unfold extract_coefficients in H.
  apply extract_loop_model in H.
  - destruct H as [Hm' [He [Hl Hsum]]].
    split; [exact Hm'|]. split; [exact He|]. split; [exact Hl|].
    intros c. rewrite eval_coeffs_sum, Hsum by constructor. simpl. ring.
  - split; simpl; [|exact Hm].
    rewrite Hev. apply set_model_completion_true. exact ev0_completion.
Qed.

Lemma holds_model_push_back s f : in_model s -> in_model (push_back s f).
Proof. intros H. exact H. Qed.

Lemma leaves_insert_mul ts t mul :
  numeral_leaves (insert_mul t mul ts) ->
  numeral_leaves ts /\ exists r, value_of t = Some r.
Proof.
  unfold leaves_ok. intros H.
  apply (Forall_keys_insert_mul (fun e => exists r, value_of e = Some r)) in H.
  tauto.
Qed.

Lemma opaque_model t mul a :
  numeral_leaves (acc_ts (opaque t mul a)) ->
  numeral_leaves (acc_ts a) /\
  exists r, has_val t r /\ acc_val (opaque t mul a) == acc_val a + mul * r.
Proof.
  unfold opaque, acc_value. cbn [acc_ts acc_c]. intros H.
  apply leaves_insert_mul in H. destruct H as [Hl [r Hr]].
  split; auto. exists r. split; [apply val_of_has_value; exact Hr|].
  rewrite ts_value_insert_mul. unfold qval. rewrite Hr. ring.
Qed.

(** A variable defined by [add_mod] or [add_div] holds the model value of
    the term it stands for. *)
Lemma def_var_model t mul a s1 (value : Q) ints calls :
  in_model s1 ->
  has_val t value ->
  let s' := set_tids
              (set_mbo s1 (mk_mbo (m_var2value (mbo s1) ++ [value]) ints calls))
              (insert t (length (m_var2value (mbo s1))) (tids s1)) in
  in_model s' /\
  (numeral_leaves (insert_mul t mul (acc_ts a)) ->
   numeral_leaves (acc_ts a) /\
   exists r, has_val t r /\
     acc_c a + ts_val (insert_mul t mul (acc_ts a)) == acc_val a + mul * r).
Proof.
  intros [Hev Hm] Hv s'. split.
  - split; [exact Hev|]. intros e id He. subst s'.
    cbn [tids set_tids mbo set_mbo m_var2value] in *.
    rewrite length_app. simpl.
    destruct (expr_eqb e t) eqn:E.
    + apply expr_eqb_eq in E. subst e. rewrite find_insert_same in He.
      inversion He; subst id. split; [lia|].
      rewrite var_value_last. exact Hv.
    + apply expr_eqb_neq in E. rewrite find_insert_other in He by auto.
      destruct (Hm _ _ He) as [Hlt Hv']. split; [lia|].
      rewrite var_value_app by exact Hlt. exact Hv'.
  - intros H. apply leaves_insert_mul in H. destruct H as [Hl [r Hr]].
    split; auto. exists r. split; [apply val_of_has_value; exact Hr|].
    unfold acc_value. rewrite ts_value_insert_mul. unfold qval. rewrite Hr.
    ring.
Qed.

Lemma contains_false_find {V} (m : obj_map V) k :
  contains m k = false -> find m k = None.
Proof. unfold contains. destruct (find m k); [discriminate | reflexivity]. Qed.

(** The term linearizer keeps the kernel on the model, and adds
    [mul * value of t] to the linear form. *)
Lemma linearize_term_model t mul a a' :
  lin_term t mul a = Ok a' ->
  in_model (acc_st a) ->
  in_model (acc_st a') /\
  (numeral_leaves (acc_ts a') ->
   numeral_leaves (acc_ts a) /\
   exists r, has_val t r /\ acc_val a' == acc_val a + mul * r).
Proof.
  revert t mul a a'.
  apply (linearize_term_ok_ind eval is_extended_numeral mk_not
           (fun t mul a a' =>
              in_model (acc_st a) ->
              in_model (acc_st a') /\
              (numeral_leaves (acc_ts a') ->
               numeral_leaves (acc_ts a) /\
               exists r, has_val t r /\
                         acc_val a' == acc_val a + mul * r))).
  - (* opaque *)
    intros t mul a Hm. split; [exact Hm|]. apply opaque_model.
  - (* k * u *)
    intros t1 t2 mul1 mul a a' _ Hk _ IH Hm.
    destruct (IH Hm) as [Hm' Hl]. split; [exact Hm'|].
    intros Hl'. destruct (Hl Hl') as [Hla [r [Hr Hv]]]. split; [exact Hla|].
    exists (mul1 * r). split; [apply (ev_mul_l _ _ _ ev0_arith); auto|].
    rewrite Hv. ring.
  - (* u * k *)
    intros t1 t2 mul1 mul a a' _ _ Hk _ IH Hm.
    destruct (IH Hm) as [Hm' Hl]. split; [exact Hm'|].
    intros Hl'. destruct (Hl Hl') as [Hla [r [Hr Hv]]]. split; [exact Hla|].
    exists (r * mul1). split; [apply (ev_mul_r _ _ _ ev0_arith); auto|].
    rewrite Hv. ring.
  - (* - u *)
    intros t1 mul a a' _ _ IH Hm.
    destruct (IH Hm) as [Hm' Hl]. split; [exact Hm'|].
    intros Hl'. destruct (Hl Hl') as [Hla [r [Hr Hv]]]. split; [exact Hla|].
    exists (- r). split; [apply (ev_uminus _ _ _ ev0_arith); auto|].
    rewrite Hv. ring.
  - (* numeral *)
    intros mul1 i mul a _ Hm. split; [exact Hm|].
    cbn [acc_ts]. intros Hl. split; [exact Hl|].
    exists mul1. split; [apply (ev_num _ _ _ ev0_arith)|].
    unfold acc_value. cbn [acc_c acc_ts]. ring.
  - (* addition *)
    intros args mul a a' _ Hch Hm.
    assert (H : in_model (acc_st a') /\
                (numeral_leaves (acc_ts a') ->
                 numeral_leaves (acc_ts a) /\
                 exists rs, Forall2 has_val args rs /\
                            acc_val a' == acc_val a + mul * sum_of rs)).
    { induction Hch as [a|arg r a a1 a' _ IH1 _ IH].
      - split; [exact Hm|]. intros Hl. split; [exact Hl|].
        exists []. split; [constructor|]. simpl. ring.
      - destruct (IH1 Hm) as [Hm1 Hl1]. destruct (IH Hm1) as [Hm' Hl'].
        split; [exact Hm'|]. intros Hl.
        destruct (Hl' Hl) as [Hla1 [rs [Hrs Hv]]].
        destruct (Hl1 Hla1) as [Hla [r0 [Hr0 Hv0]]].
        split; [exact Hla|]. exists (r0 :: rs).
        split; [constructor; auto|]. rewrite Hv, Hv0. simpl. ring. }
    destruct H as [Hm' Hl]. split; [exact Hm'|].
    intros Hl'. destruct (Hl Hl') as [Hla [rs [Hrs Hv]]]. split; [exact Hla|].
    exists (sum_of rs). split; [apply (ev_add _ _ _ ev0_arith); auto|].
    exact Hv.
  - (* subtraction *)
    intros t1 t2 mul a a1 a' _ _ IH1 _ IH2 Hm.
    destruct (IH1 Hm) as [Hm1 Hl1]. destruct (IH2 Hm1) as [Hm' Hl2].
    split; [exact Hm'|]. intros Hl'.
    destruct (Hl2 Hl') as [Hla1 [r2 [Hr2 Hv2]]].
    destruct (Hl1 Hla1) as [Hla [r1 [Hr1 Hv1]]].
    split; [exact Hla|]. exists (r1 - r2).
    split; [apply (ev_sub _ _ _ ev0_arith); auto|].
    rewrite Hv2, Hv1. ring.
  - (* ite, guard true *)
    intros t1 t2 t3 mul a a1 _ Hg _ IH Hm.
    destruct (IH Hm) as [Hm1 Hl]. split; [exact Hm1|].
    cbn [acc_ts]. intros Hl'.
    destruct (Hl Hl') as [Hla [r [Hr Hv]]]. split; [exact Hla|].
    exists r. split.
    + apply (ev_ite_true _ _ _ ev0_arith); auto.
      destruct Hm as [Hev _]. rewrite <- Hev. exact Hg.
    + exact Hv.
  - (* ite, guard false *)
    intros t1 t2 t3 mul a a' _ _ Hg _ IH Hm.
    destruct (IH Hm) as [Hm' Hl]. split; [exact Hm'|].
    intros Hl'. destruct (Hl Hl') as [Hla [r [Hr Hv]]].
    split; [exact Hla|]. exists r. split.
    + apply (ev_ite_false _ _ _ ev0_arith); auto.
      destruct Hm as [Hev _]. rewrite <- Hev. exact Hg.
    + exact Hv.
  - (* mod *)
    intros t1 t2 mul1 mul a a0 coeffs s1 _ Hk _ IH Hx Hm.
    destruct (IH Hm) as [Hm0 Hl0].
    destruct (extract_coefficients_model _ _ _ _ Hm0 Hx)
      as [Hm1 [_ [Hleaves Hsum]]].
    destruct (Hl0 Hleaves) as [_ [r [Hr Hv]]].
    unfold add_mod, add_var. cbn [fst snd record_call m_var2value
                                  m_var2is_int m_calls acc_st acc_ts].
    apply (def_var_model (Mod t1 t2) mul a s1); auto.
    apply has_value_eq with (q := q_mod r mul1);
      [apply (ev_mod _ _ _ ev0_arith); auto|].
    rewrite (q_mod_comp (eval_coeffs (mbo s1) coeffs (acc_c a0)) r);
      [reflexivity|].
    rewrite Hsum. fold (acc_val a0). rewrite Hv.
    unfold acc_value. simpl. ring.
  - (* div *)
    intros t1 t2 mul1 mul a a0 coeffs s1 _ Hk _ IH Hx Hm.
    destruct (IH Hm) as [Hm0 Hl0].
    destruct (extract_coefficients_model _ _ _ _ Hm0 Hx)
      as [Hm1 [_ [Hleaves Hsum]]].
    destruct (Hl0 Hleaves) as [_ [r [Hr Hv]]].
    unfold add_div, add_var. cbn [fst snd record_call m_var2value
                                  m_var2is_int m_calls acc_st acc_ts].
    apply (def_var_model (Idiv t1 t2) mul a s1); auto.
    apply has_value_eq with (q := q_div r mul1);
      [apply (ev_idiv _ _ _ ev0_arith); auto|].
    rewrite (q_div_comp (eval_coeffs (mbo s1) coeffs (acc_c a0)) r);
      [reflexivity|].
    rewrite Hsum. fold (acc_val a0). rewrite Hv.
    unfold acc_value. simpl. ring.
Qed.

Lemma has_value_val_of e q r : has_val e q -> value_of e = Some r -> r == q.
Proof.
  intros [q' [Hq E]] Hr. rewrite Hr in Hq. inversion Hq; subst. exact E.
Qed.

Lemma Qlt_bool_true a b : Qlt_bool a b = true <-> a < b.
Proof.
  unfold Qlt_bool. rewrite negb_true_iff. split.
  - intros H. apply Qnot_le_lt. intros Hle.
    apply Qle_bool_iff in Hle. congruence.
  - intros H. apply not_true_is_false. intros Hle.
    apply Qle_bool_iff in Hle. apply (Qlt_not_le _ _ H Hle).
Qed.

Lemma Qlt_bool_false a b : Qlt_bool a b = false <-> b <= a.
Proof.
  unfold Qlt_bool. rewrite negb_false_iff. apply Qle_bool_iff.
Qed.

(** C2.  For a negated arithmetic equality whose sides evaluate to
    different numerals [r1] and [r2], in a state whose kernel holds the
    model: the literal linearizer linearizes (-1) * (the side with the
    larger value) + (the side with the smaller value) and returns true;
    besides definitions of mod and div variables it submits exactly one
    constraint, with comparator [<]; the value of that constraint's
    linear form at the kernel's values is the smaller model value minus
    the larger one, so it is negative: the model satisfies the
    constraint. *)
Theorem negated_equality_constraint depth e1 e2 s r1 r2 b s' :
  in_model s ->
  is_arith e1 = true ->
  value_of e1 = Some r1 ->
  value_of e2 = Some r2 ->
  ~ r1 == r2 ->
  linearize eval is_extended_numeral mk_not true (S depth)
    (Not (Eq e1 e2)) s = Ok (b, s') ->
  let larger := if Qlt_bool r1 r2 then e2 else e1 in
  let smaller := if Qlt_bool r1 r2 then e1 else e2 in
  linearize eval is_extended_numeral mk_not true (S depth)
    (Not (Eq e1 e2)) s =
  (a <- linearize_diff eval is_extended_numeral mk_not (- (1))
          larger smaller s ;;
   submit eval t_lt a) /\
  b = true /\
  exists defs coeffs c,
    m_calls (mbo s') =
    m_calls (mbo s) ++ defs ++ [call_add_constraint coeffs c t_lt] /\
    Forall def_call defs /\
    eval_coeffs (mbo s') coeffs c ==
    (if Qlt_bool r1 r2 then r1 - r2 else r2 - r1) /\
    eval_coeffs (mbo s') coeffs c < 0 /\
    in_model s'.
Proof.
  intros Hm Ha Hr1 Hr2 Hne H larger smaller.
  assert (Heq : linearize eval is_extended_numeral mk_not true (S depth)
                  (Not (Eq e1 e2)) s =
                (a <- linearize_diff eval is_extended_numeral mk_not (- (1))
                        larger smaller s ;;
                 submit eval t_lt a)).
  { cbn [linearize negb]. rewrite Ha. cbn [negb].
    destruct Hm as [Hev _]. rewrite Hev.
    unfold val_of in Hr1, Hr2. rewrite Hr1, Hr2.
    subst larger smaller. destruct (Qlt_bool r1 r2); reflexivity. }
  split; [exact Heq|]. rewrite Heq in H. clear Heq.
  bind_inv H. pose proof (linearize_diff_extends _ _ _ _ _ _ _ _ Ha0) as Hext.
  unfold linearize_diff in Ha0. bind_inv Ha0. rename a0 into a1.
  destruct (linearize_term_model _ _ _ _ Ha1 Hm) as [Hm1 Hl1].
  destruct (linearize_term_model _ _ _ _ Ha0 Hm1) as [Hm2 Hl2].
  apply submit_inv in H. destruct H as [coeffs [s1 [Hx [-> ->]]]].
  pose proof (extract_coefficients_extends _ (fun _ => False) _ _ _ _ Hx)
    as [[[ks [Hks Hnone]] _ _] _].
  destruct ks as [|k ks]; [|inversion Hnone; contradiction].
  rewrite app_nil_r in Hks.
  destruct (extract_coefficients_model _ _ _ _ Hm2 Hx)
    as [Hm' [_ [Hleaves Hsum]]].
  destruct (Hl2 Hleaves) as [Hleaves1 [rs [Hrs Hv2]]].
  destruct (Hl1 Hleaves1) as [_ [rl [Hrl Hv1]]].
  split; [reflexivity|].
  destruct Hext as [[defs [Hdefs Hall]] _ _].
  exists defs, coeffs, (acc_c a).
  assert (Hval : eval_coeffs (mbo s1) coeffs (acc_c a) == rs - rl).
  { rewrite Hsum. fold (acc_val a). rewrite Hv2, Hv1.
    unfold acc_value. simpl. ring. }
  assert (Hcase : rs - rl == (if Qlt_bool r1 r2 then r1 - r2 else r2 - r1)).
  { subst larger smaller. destruct (Qlt_bool r1 r2).
    - rewrite <- (has_value_val_of _ _ _ Hrs Hr1).
      rewrite <- (has_value_val_of _ _ _ Hrl Hr2). reflexivity.
    - rewrite <- (has_value_val_of _ _ _ Hrs Hr2).
      rewrite <- (has_value_val_of _ _ _ Hrl Hr1). reflexivity. }
  split; [|split; [exact Hall|split; [|split]]].
  - cbn [mbo set_mbo add_constraint record_call m_calls].
    rewrite Hks. cbn [acc_st] in Hdefs. rewrite Hdefs, app_assoc.
    reflexivity.
  - change (eval_coeffs (mbo s1) coeffs (acc_c a) ==
            (if Qlt_bool r1 r2 then r1 - r2 else r2 - r1)).
    rewrite Hval. exact Hcase.
  - change (eval_coeffs (mbo s1) coeffs (acc_c a) < 0).
    rewrite Hval, Hcase.
    destruct (Qlt_bool r1 r2) eqn:E.
    + apply Qlt_bool_true in E. lra.
    + apply Qlt_bool_false in E.
      assert (r2 < r1); [|lra].
      apply Qle_lt_or_eq in E. destruct E as [E|E]; [exact E|].
      exfalso. apply Hne. symmetry. exact E.
  - exact Hm'.
Qed.

(** Under the same conditions the literal is never refused: the call
    returns true, or an evaluation inside the two sides failed. *)
Lemma negated_equality_outcome e1 e2 s r1 r2 :
  ev s = ev0 ->
  is_arith e1 = true ->
  value_of e1 = Some r1 ->
  value_of e2 = Some r2 ->
  (exists s', linearize eval is_extended_numeral mk_not true 2
                (Not (Eq e1 e2)) s = Ok (true, s')) \/
  (exists e, linearize eval is_extended_numeral mk_not true 2
               (Not (Eq e1 e2)) s = Err e /\ term_error e).
Proof.
  intros Hev Ha Hr1 Hr2.
  destruct (linearize eval is_extended_numeral mk_not true 2
              (Not (Eq e1 e2)) s) as [[b s']|e] eqn:H.
  - left. exists s'. cbn [linearize negb] in H. rewrite Ha in H.
    cbn [negb] in H. rewrite Hev in H.
    unfold val_of in Hr1, Hr2. rewrite Hr1, Hr2 in H.
    destruct (Qlt_bool r1 r2); apply diff_submit_extends in H; auto;
      destruct H as [_ ->]; reflexivity.
  - right. exists e. split; [reflexivity|].
    apply linearize_errors in H. destruct H as [H|[_ [H|H]]];
      [exact H | discriminate | discriminate].
Qed.

(** *** Every literal keeps the kernel on the model *)

Lemma holds_model_agree s1 s2 : agree s1 s2 -> in_model s1 -> in_model s2.
Proof.
  intros [Ho [He Ht]] [Hev Hm]. split.
  - rewrite <- He. exact Hev.
  - rewrite <- Ho, <- Ht. exact Hm.
Qed.

Lemma holds_model_call s k :
  in_model s -> in_model (set_mbo s (record_call k (mbo s))).
Proof. intros H. exact H. Qed.

Lemma holds_model_fmls s l : in_model s -> in_model (set_fmls s l).
Proof. intros H. exact H. Qed.

Lemma linearize_diff_model mul e1 e2 s a :
  linearize_diff eval is_extended_numeral mk_not mul e1 e2 s = Ok a ->
  in_model s -> in_model (acc_st a).
Proof.
  unfold linearize_diff. intros H Hm. bind_inv H.
  destruct (linearize_term_model _ _ _ _ Ha Hm) as [Hm1 _].
  destruct (linearize_term_model _ _ _ _ H Hm1) as [Hm2 _]. exact Hm2.
Qed.

Lemma submit_model ty a b s' :
  submit eval ty a = Ok (b, s') -> in_model (acc_st a) -> in_model s'.
Proof.
  intros H Hm. apply submit_inv in H.
  destruct H as [coeffs [s1 [Hx [_ ->]]]].
  destruct (extract_coefficients_model _ _ _ _ Hm Hx) as [Hm1 _].
  apply holds_model_call. exact Hm1.
Qed.

Lemma diff_submit_model mul e1 e2 ty s b s' :
  (a <- linearize_diff eval is_extended_numeral mk_not mul e1 e2 s ;;
   submit eval ty a) = Ok (b, s') ->
  in_model s -> in_model s'.
Proof.
  intros H Hm. bind_inv H.
  eapply submit_model; [exact H|]. eapply linearize_diff_model; eauto.
Qed.

Lemma find_equal_model mul args : forall values ty a r,
  find_equal eval is_extended_numeral mk_not mul args values ty a = Ok r ->
  in_model (acc_st a) ->
  match r with
  | None => True
  | Some (_, a') => in_model (acc_st a')
  end.
Proof.
  induction args as [|arg1 rest IH]; simpl; intros values ty a r H Hm.
  - inversion H; subst. exact Hm.
  - destruct (is_numeral (eval (ev (acc_st a)) arg1)) as [q|].
    + destruct (find_value values q) as [arg2|].
      * bind_inv H. bind_inv H. inversion H; subst.
        destruct (linearize_term_model _ _ _ _ Ha Hm) as [Hm1 _].
        destruct (linearize_term_model _ _ _ _ Ha0 Hm1) as [Hm2 _].
        exact Hm2.
      * eapply IH; eauto.
    + inversion H; subst. exact I.
Qed.

Lemma linearize_model m_inc depth : forall lit s b s',
  linearize eval is_extended_numeral mk_not m_inc depth lit s = Ok (b, s') ->
  in_model s -> in_model s'.
Proof.
  induction depth as [|depth IH]; intros lit s b s' H Hm; [discriminate|].
  cbn [linearize] in H.
  destruct m_inc; cbn [negb] in H; [|inversion H; subst; exact Hm].
  set (is_not := match lit with Not _ => true | _ => false end) in H.
  set (atom := match lit with Not l => l | _ => lit end) in H.
  clearbody is_not atom.
  destruct atom; try (inversion H; subst; exact Hm);
    try (eapply diff_submit_model; eassumption).
  - (* = *)
    destruct (is_arith atom1); cbn [negb] in H;
      [|inversion H; subst; exact Hm].
    destruct is_not; cbn [negb] in H.
    + destruct (is_numeral (eval (ev s) atom1)) as [r1|];
        [|inversion H; subst; exact Hm].
      destruct (is_numeral (eval (ev s) atom2)) as [r2|];
        [|inversion H; subst; exact Hm].
      destruct (Qlt_bool r1 r2); eapply diff_submit_model; eauto.
    + eapply diff_submit_model; eauto.
  - (* distinct *)
    destruct args as [|arg0 args]; [discriminate|].
    destruct (is_arith arg0); cbn [negb] in H;
      [|inversion H; subst; exact Hm].
    destruct is_not; cbn [negb] in H.
    + bind_inv H. apply find_equal_model in Ha; [|exact Hm].
      destruct a as [[ty a']|].
      * eapply submit_model; eauto.
      * inversion H; subst. exact Hm.
    + destruct (eval_nums eval (ev s) (arg0 :: args)) as [nums|];
        [|inversion H; subst; exact Hm].
      revert s H Hm. generalize (sort_second nums) as l.
      induction l as [|x r IHl]; intros s H Hm.
      * inversion H; subst. exact Hm.
      * destruct r as [|y r'].
        { inversion H; subst. exact Hm. }
        bind_inv H. destruct a as [b1 s1]. apply IH in Ha; [|exact Hm].
        cbv beta iota in H. destruct b1.
        { eapply IHl; eauto. }
        { inversion H; subst. exact Ha. }
  - (* and *)
    destruct is_not; cbn [negb] in H.
    + destruct (first_with _ args); inversion H; subst; exact Hm.
    + inversion H; subst. exact Hm.
  - (* or *)
    destruct is_not; cbn [negb] in H.
    + inversion H; subst. exact Hm.
    + destruct (first_with _ args); inversion H; subst; exact Hm.
Qed.

(** The kernel holds the model in every state of the work list of
    [project]. *)
Lemma scan_model m_inc pending s residue s' :
  scan eval is_extended_numeral mk_not m_inc pending s residue s' ->
  in_model s -> in_model s'.
Proof.
  induction 1 as [s|fml rest s b s1 side s2 residue s' Hl Hf Hag Hs IH];
    intros Hm; [exact Hm|].
  apply IH. eapply holds_model_agree; [exact Hag|].
  eapply linearize_model; eauto.
Qed.

End ModelFacts.

(** ** Projection and maximization (claims C4 to C8) *)

Section ProjectClaims.

Variable eval : model_evaluator -> expr -> expr.
Variable is_extended_numeral : expr -> option Q.
Variable mk_not : expr -> expr.
Variable m_inc : bool.
Variable m_check_purified : bool.
Variable m_apply_projection : bool.
Variable mk_add_simplify : list expr -> expr.
Variable safe_replace : list (expr * expr) -> expr -> expr.
Variable kernel_project :
  model_based_opt -> list nat -> bool -> list (option opt_def).
Variable kernel_live_rows : model_based_opt -> list row.
Variable kernel_maximize : model_based_opt -> inf_eps.
Variable get_value : model_based_opt -> nat -> Q.
Variable default_completion : bool.

Local Notation imp_project :=
  (project eval is_extended_numeral mk_not m_inc m_check_purified
     m_apply_projection mk_add_simplify safe_replace kernel_project
     kernel_live_rows).
Local Notation imp_project1 :=
  (project1 eval is_extended_numeral mk_not m_inc m_check_purified
     m_apply_projection mk_add_simplify safe_replace kernel_project
     kernel_live_rows).
Local Notation imp_maximize :=
  (maximize eval is_extended_numeral mk_not m_inc kernel_maximize get_value
     default_completion).

(** C8.  When no variable of the list is arithmetic, [project] returns
    true at once: the model, the variables, the formulas and the
    definitions are what they were, whatever the evaluator and the
    kernel would answer, and without a single step of the
    linearization loop. *)
Theorem project_no_arith fuel mdl vars0 fmls0 result0 compute_def :
  (forall v, In v vars0 -> is_arith v = false) ->
  imp_project fuel mdl vars0 fmls0 result0 compute_def =
  Ok (mk_project_out true mdl vars0 fmls0 result0).
Proof.
  intros Hv. unfold project.
  replace (existsb is_arith vars0) with false; [reflexivity|].
  symmetry. apply not_true_is_false. intros H.
  apply existsb_exists in H. destruct H as [v [Hin Ha]].
  rewrite (Hv v Hin) in Ha. discriminate.
Qed.

(** C7.  [project1] returns true exactly when [project], called on the
    one-element list [v] with definitions switched off, returns true
    and leaves the list empty; the literals (and the model) it leaves
    are those of [project].  When [project] keeps [v] in the list,
    [project1] returns false. *)
Theorem project1_iff fuel mdl v vars0 lits :
  (forall mdl' lits',
      imp_project1 fuel mdl v vars0 lits =
      Ok (mk_project1_out true mdl' lits') <->
      exists defs,
        imp_project fuel mdl [v] lits [] false =
        Ok (mk_project_out true mdl' [] lits' defs)) /\
  (forall o,
      imp_project fuel mdl [v] lits [] false = Ok o ->
      In v (out_vars o) ->
      imp_project1 fuel mdl v vars0 lits =
      Ok (mk_project1_out false (out_model o) (out_fmls o))).
Proof.
  unfold project1. split.
  - intros mdl' lits'. split.
    + intros H. bind_inv H. destruct a as [r m vs fs ds].
      simpl in H. inversion H as [[Hr Hm Hf]]; subst.
      apply andb_true_iff in Hr. destruct Hr as [-> Hvs].
      destruct vs; [|discriminate]. eauto.
    + intros [defs H]. rewrite H. reflexivity.
  - intros o H Hin. rewrite H. simpl.
    destruct (out_vars o); [contradiction|].
    rewrite andb_false_r. reflexivity.
Qed.

(** C4 (as amended).  [maximize] returns the kernel's optimum [value],
    and with [val] the numeral of its rational part and [tval] the
    value of [t] in the model after the kernel's values were written
    back: if [value] is infinite, [ge] is [t >= tval] and [gt] is
    false; if it is finite with a negative infinitesimal (an open
    supremum), [ge] is [t >= tval] and [gt] is [t >= val]; otherwise
    [ge] is [t >= val] and [gt] is [t > val]. *)
Theorem maximize_bounds fmls0 mdl t o :
  imp_maximize fmls0 mdl t = Ok o ->
  let value := max_value o in
  let val := Num (get_rational value) false in
  let tval := eval (mk_evaluator (max_model o) true) t in
  (is_finite value = false ->
   max_ge o = Ge t tval /\ max_gt o = EFalse) /\
  (is_finite value = true -> is_neg (get_infinitesimal value) = true ->
   max_ge o = Ge t tval /\ max_gt o = Ge t val) /\
  (is_finite value = true -> is_neg (get_infinitesimal value) = false ->
   max_ge o = Ge t val /\ max_gt o = Gt t val).
Proof.
  unfold maximize. intros H.
  bind_inv H. rename a into s3.
  assert (Hc : ev_completion (ev s3) = true).
  { unfold maximize_setup in Ha.
    bind_inv Ha. bind_inv Ha. destruct a0 as [coeffs s1].
    cbv beta iota in Ha.
    apply linearize_each_extends in Ha.
    apply (extends_completion _ _ _ Ha). simpl.
    apply (extract_coefficients_extends eval lit_call) in Ha1.
    destruct Ha1 as [_ [_ ->]]. reflexivity. }
  unfold mbo_maximize in H. cbv beta iota in H. rewrite Hc in H.
  destruct (is_finite (kernel_maximize (mbo s3))) eqn:Hfin;
    cbn [negb] in H.
  - destruct (is_neg (get_infinitesimal (kernel_maximize (mbo s3)))) eqn:Hneg;
      inversion H; subst; simpl; repeat split; auto; congruence.
  - inversion H; subst; simpl; repeat split; auto; congruence.
Qed.

(** C6.  For a row with one variable, a negative coefficient [c] on it
    and comparator [<=], [<] or [=], the reifier emits [(-c) * x >= k],
    [(-c) * x > k] or [(-c) * x = k], where [x] is the expression of
    the variable and [k] the constant of the row (the factor is left
    out when [c] is -1), and that literal means [c * x + k op 0]. *)
Theorem sign_normalized_literal fuel def_vars index2expr r v xe fmls0 :
  Row.m_vars r = [v] ->
  is_neg (Var.m_coeff v) = true ->
  Row.m_type r = t_le \/ Row.m_type r = t_lt \/ Row.m_type r = t_eq ->
  id2expr mk_add_simplify fuel def_vars index2expr (Var.m_id v) = Ok xe ->
  let c := Var.m_coeff v in
  let k := Row.m_coeff r in
  let lhs := if is_minus_one c then xe
             else Mul [Num (- c) (is_int xe); xe] in
  let rhs := Num k (is_int lhs) in
  let lit := match Row.m_type r with
             | t_le => Ge lhs rhs
             | t_lt => Gt lhs rhs
             | _ => Eq lhs rhs
             end in
  rows2fmls mk_add_simplify fuel def_vars [r] index2expr fmls0 =
  Ok (fmls0 ++ [lit]) /\
  forall rho,
    holds rho lit <-> row_holds (Row.m_type r) (c * term_value rho xe) k.
Proof.
  intros Hv Hneg Hty Hx c k lhs rhs lit. split.
  - cbn [rows2fmls]. unfold reified, is_def_row. rewrite Hv.
    replace (negb (negb match Row.m_type r with
                        | t_mod | t_div => true
                        | _ => false
                        end)) with false
      by (destruct Hty as [->|[->| ->]]; reflexivity).
    unfold reify_row, sign_normalized, row2fml_neg.
    rewrite Hv, Hneg.
    replace (match Row.m_type r with
             | t_eq | t_lt | t_le => true
             | _ => false
             end) with true
      by (destruct Hty as [->|[->| ->]]; reflexivity).
    cbn [andb]. rewrite Hx. cbn [bind].
    subst lit rhs lhs c k.
    destruct (is_minus_one (Var.m_coeff v)); cbn [negb];
      destruct Hty as [->|[->| ->]]; reflexivity.
  - intros rho. subst lit rhs lhs.
    assert (Hlhs : term_value rho
                     (if is_minus_one c then xe
                      else Mul [Num (- c) (is_int xe); xe])
                   == - c * term_value rho xe).
    { destruct (is_minus_one c) eqn:E.
      - apply Qeq_bool_iff in E. rewrite E. ring.
      - simpl. ring. }
    destruct Hty as [->|[->| ->]]; simpl; rewrite Hlhs; split; intros H.
    all: generalize dependent (term_value rho xe); intros xv; intros;
      unfold c, k in *; clear Hlhs; nra.
Qed.

(** *** The linearization loop and the work list *)

Lemma linearize_loop_scan fuel : forall i j s j' s',
  linearize_loop eval is_extended_numeral mk_not m_inc fuel i j s =
  Ok (j', s') ->
  (j <= i)%nat ->
  exists residue,
    scan eval is_extended_numeral mk_not m_inc
      (skipn i (fmls s)) s residue s' /\
    firstn j' (fmls s') = firstn j (fmls s) ++ residue.
Proof.
  induction fuel as [|fuel IH]; intros i j s j' s' H Hji;
    cbn [linearize_loop] in H;
    destruct (nth_error (fmls s) i) as [fml|] eqn:Hi;
    try discriminate.
  1, 3: inversion H; subst; exists [];
    rewrite app_nil_r; split; [|reflexivity];
    apply nth_error_None in Hi; rewrite skipn_all2 by exact Hi;
    constructor.
  assert (Hlen : (i < length (fmls s))%nat)
    by (apply nth_error_Some; congruence).
  bind_inv H. destruct a as [b s1]. cbv beta iota in H.
  pose proof (linearize_extends _ _ _ _ _ _ _ _ _ Ha) as He.
  destruct He as [_ [side Hside] _].
  rewrite (skipn_nth_error_cons _ _ _ Hi).
  destruct b.
  - apply IH in H; [|lia]. destruct H as [residue [Hs Hf]].
    exists residue. split.
    + apply (scan_step eval is_extended_numeral mk_not m_inc
               fml _ s true s1 side s1 residue s'); auto.
      * repeat split.
      * rewrite <- skipn_app_le by lia. rewrite <- Hside. exact Hs.
    + rewrite Hf, Hside. rewrite firstn_app_le by lia. reflexivity.
  - apply IH in H; [|lia]. destruct H as [residue [Hs Hf]].
    cbn [fmls set_fmls] in Hs, Hf.
    exists (fml :: residue). split.
    + apply (scan_step eval is_extended_numeral mk_not m_inc
               fml _ s false s1 side
               (set_fmls s1 (set_nth j fml (fmls s1))) residue s'); auto.
      * repeat split.
      * rewrite <- skipn_app_le by lia. rewrite <- Hside.
        rewrite skipn_set_nth in Hs by lia. exact Hs.
    + rewrite Hf. rewrite firstn_set_nth.
      * rewrite Hside. rewrite firstn_app_le by lia.
        rewrite <- app_assoc. reflexivity.
      * rewrite Hside, length_app. lia.
Qed.

Lemma scan_subseq pending s residue s' :
  scan eval is_extended_numeral mk_not m_inc pending s residue s' ->
  exists side, subseq residue (pending ++ side).
Proof.
  induction 1 as [s|fml rest s b s1 side s2 residue s' Hl Hf Ha Hs
                    [side' IH]].
  - exists []. constructor.
  - exists (side ++ side'). rewrite <- app_assoc in IH. simpl.
    destruct b; constructor; exact IH.
Qed.

Lemma add_vars_fmls vs : forall s s',
  add_vars eval m_inc vs s = Ok (Some s') -> fmls s' = fmls s.
Proof.
  induction vs as [|v vs IH]; simpl; intros s s' H.
  - inversion H; reflexivity.
  - destruct (is_arith v && negb (contains (tids s) v)); [|auto].
    destruct (negb m_inc); [discriminate|].
    destruct (is_numeral (eval (ev s) v)) as [r|]; [|discriminate].
    destruct (add_var r (is_int v) (mbo s)) as [id o].
    apply IH in H. exact H.
Qed.

Lemma reify_row_comparison fuel def_vars index2expr r l :
  reify_row mk_add_simplify fuel def_vars index2expr r = Ok l ->
  is_comparison l = true.
Proof.
  unfold reify_row, row2fml_neg, row2fml.
  destruct (sign_normalized r); intros H; bind_inv H;
    destruct (Row.m_type r); inversion H; reflexivity.
Qed.

Lemma rows2fmls_inv fuel def_vars index2expr rows : forall fmls0 fmls1,
  rows2fmls mk_add_simplify fuel def_vars rows index2expr fmls0 = Ok fmls1 ->
  exists lits,
    fmls1 = fmls0 ++ lits /\
    Forall2 (fun r l =>
               reify_row mk_add_simplify fuel def_vars index2expr r = Ok l)
            (filter reified rows) lits.
Proof.
  induction rows as [|r rows IH]; cbn [rows2fmls filter]; intros f0 f1 H.
  - inversion H; subst. exists []. rewrite app_nil_r. split; constructor.
  - destruct (reified r); cbn [negb] in H.
    + bind_inv H. apply IH in H. destruct H as [lits [-> Hl]].
      exists (a :: lits). rewrite <- app_assoc. split; [reflexivity|].
      constructor; auto.
    + apply IH in H. exact H.
Qed.

Lemma reified_not_def r :
  reified r = true -> Row.m_type r <> t_mod /\ Row.m_type r <> t_div.
Proof.
  unfold reified, is_def_row. destruct (Row.m_vars r); [discriminate|].
  destruct (Row.m_type r); simpl; intros H; split; congruence.
Qed.

(** C5 (as amended).  After a call of [project] that returns true, on
    a list with an arithmetic variable: the output literals are (a)
    the literals of the work list, which is the input followed by the
    side literals the linearizer enqueued (children of and/or, guards
    of ite), on which the linearizer returned false, in work-list
    order, followed by (b) one comparison for each live row that has a
    variable and is not of kind mod or div, in the kernel's order; rows
    of kind mod or div are never reified.  When [m_apply_projection]
    is set, this list is what [apply_projection] rewrites.

    The rows are the ones of the kernel of this call: [s1] is the
    state the linearization loop leaves when it is run on the input,
    [s2] the state the loop over the variables makes of it, [real_vars]
    the ids the splitting loop found in [tids] for the variables that
    are eliminated ([out_vars] being the ones it kept); the rows are
    read after the kernel of [s2] has been asked to project exactly
    these ids, they are reified through [index2expr] built from the
    [tids] of [s2], and the definitions are the ones that kernel
    answered with. *)
Theorem project_output fuel mdl vars0 fmls0 result0 compute_def o :
  existsb is_arith vars0 = true ->
  imp_project fuel mdl vars0 fmls0 result0 compute_def = Ok o ->
  ret o = true ->
  exists residue side j s1 s2 real_vars lits,
    let start :=
      mk_lin_state mbo_empty (mk_evaluator (set_inline mdl) true) fmls0 [] in
    let cd := compute_def || m_apply_projection in
    let rows :=
      kernel_live_rows (record_call (call_project real_vars cd) (mbo s2)) in
    let index2expr := mk_index2expr (tids s2) in
    linearize_loop eval is_extended_numeral mk_not m_inc fuel 0 0 start =
    Ok (j, s1) /\
    residue = firstn j (fmls s1) /\
    scan eval is_extended_numeral mk_not m_inc fmls0 start residue s1 /\
    subseq residue (fmls0 ++ side) /\
    add_vars eval m_inc vars0 (set_fmls s1 residue) = Ok (Some s2) /\
    split_vars (mark_roots m_check_purified vars0 s2) (tids s2) vars0 =
    Ok (real_vars, out_vars o) /\
    Forall2 (fun r l =>
               reify_row mk_add_simplify fuel (mk_def_vars rows)
                 index2expr r = Ok l)
            (filter reified rows) lits /\
    Forall (fun l => is_comparison l = true) lits /\
    (forall r, In r (filter reified rows) ->
               Row.m_type r <> t_mod /\ Row.m_type r <> t_div) /\
    (if cd
     then optdefs2mbpdef mk_add_simplify fuel (mk_def_vars rows)
            (kernel_project (mbo s2) real_vars cd) index2expr real_vars
            result0 = Ok (out_defs o)
     else out_defs o = result0) /\
    out_model o = set_inline mdl /\
    out_fmls o =
    if m_apply_projection
    then snd (apply_projection eval safe_replace (ev s2) (out_defs o)
                (residue ++ lits))
    else residue ++ lits.
Proof.
  intros Harith H Hret. unfold project in H. rewrite Harith in H.
  cbn [negb] in H. bind_inv H. destruct a as [j s1]. cbv beta iota in H.
  pose proof Ha as Hloop.
  apply linearize_loop_scan in Ha; [|lia].
  destruct Ha as [residue [Hscan Hres]]. cbn [fmls firstn app] in Hres, Hscan.
  bind_inv H. destruct a as [s2|]; [|inversion H; subst; discriminate].
  pose proof (add_vars_fmls _ _ _ Ha) as Hf2. cbn [fmls set_fmls] in Hf2.
  bind_inv H. destruct a as [real_vars vars1]. cbv beta iota in H.
  unfold mbo_project in H. cbv beta iota in H.
  bind_inv H. rename a into fmls1. bind_inv H. rename a into result1.
  apply rows2fmls_inv in Ha1. destruct Ha1 as [lits [-> Hlits]].
  destruct (scan_subseq _ _ _ _ Hscan) as [side Hsub].
  assert (Hout : ret o = true ->
                 out_vars o = vars1 /\ out_defs o = result1 /\
                 out_model o = set_inline mdl /\
                 out_fmls o =
                 if m_apply_projection
                 then snd (apply_projection eval safe_replace (ev s2) result1
                             (residue ++ lits))
                 else residue ++ lits).
  { intros _. rewrite Hf2, Hres in H. destruct m_apply_projection.
    - destruct (apply_projection _ _ _ _ _) as [ok fmls2] eqn:Hap.
      injection H as <-. cbn. repeat split.
    - injection H as <-. repeat split. }
  destruct (Hout Hret) as [Hv [Hd [Hm Hf]]].
  exists residue, side, j, s1, s2, real_vars, lits.
  cbv zeta. rewrite Hv, Hd.
  split; [exact Hloop|]. split; [symmetry; exact Hres|].
  split; [exact Hscan|]. split; [exact Hsub|].
  split; [rewrite <- Hres; exact Ha|]. split; [exact Ha0|].
  split; [exact Hlits|]. split; [|split; [|split; [|split]]].
  - clear - Hlits. induction Hlits; constructor; auto.
    eapply reify_row_comparison; eauto.
  - intros r Hin. apply filter_In in Hin. apply reified_not_def. tauto.
  - destruct (compute_def || m_apply_projection).
    + exact Ha2.
    + inversion Ha2; reflexivity.
  - exact Hm.
  - exact Hf.
Qed.

End ProjectClaims.

(* ================================================================== *)
(** * Further properties *)
(* ================================================================== *)

(** ** [insert_mul] *)

Lemma keys_insert {V} (m : obj_map V) k v :
  map fst (insert k v m) =
  if contains m k then map fst m else map fst m ++ [k].
Proof.
  unfold contains. induction m as [|[k' v'] r IH]; simpl; [reflexivity|].
  destruct (expr_eqb k k') eqn:E; simpl; [reflexivity|].
  rewrite IH. destruct (find r k); reflexivity.
Qed.

Lemma find_none_keys {V} (m : obj_map V) k :
  find m k = None -> ~ In k (map fst m).
Proof.
  induction m as [|[k' v'] r IH]; simpl; intros H; [tauto|].
  destruct (expr_eqb k k') eqn:E; [discriminate|].
  apply expr_eqb_neq in E. intros [H1|H1]; [congruence|]. exact (IH H H1).
Qed.

Lemma length_insert {V} (m : obj_map V) k v :
  length (insert k v m) = if contains m k then length m else S (length m).
Proof.
  unfold contains. induction m as [|[k' v'] r IH]; simpl; [reflexivity|].
  destruct (expr_eqb k k') eqn:E; simpl; [reflexivity|].
  rewrite IH. destruct (find r k); reflexivity.
Qed.

Lemma keys_insert_nodup {V} (m : obj_map V) k v :
  NoDup (map fst m) -> NoDup (map fst (insert k v m)).
Proof.
  intros Hnd. rewrite keys_insert. unfold contains.
  destruct (find m k) eqn:Hf; [exact Hnd|].
  apply NoDup_app; [exact Hnd | constructor; [tauto|constructor] |].
  intros a Ha [<-|[]]. exact (find_none_keys _ _ Hf Ha).
Qed.

(** X1. [insert_mul] accumulates.  After [insert_mul x v ts] the map
    gives [x] its old coefficient plus [v] ([v] itself when [x] was
    not a key) and every other key what it had; a map without
    duplicate keys stays one, and the map grows by one entry exactly
    when [x] was not a key. *)
Theorem insert_mul_lookup ts x v :
  (forall k,
      find (insert_mul x v ts) k =
      if expr_eqb k x
      then Some (match find ts x with Some w => w + v | None => v end)
      else find ts k) /\
  (NoDup (map fst ts) -> NoDup (map fst (insert_mul x v ts))) /\
  length (insert_mul x v ts) =
  (if contains ts x then length ts else S (length ts)).
Proof.
  split; [|split].
  - intros k. unfold insert_mul.
    destruct (expr_eqb k x) eqn:E.
    + apply expr_eqb_eq in E. subst k.
      destruct (find ts x); apply find_insert_same.
    + apply expr_eqb_neq in E.
      destruct (find ts x); apply find_insert_other; exact E.
  - intros Hnd. unfold insert_mul.
    destruct (find ts x); apply keys_insert_nodup; exact Hnd.
  - unfold insert_mul, contains.
    destruct (find ts x) as [w|] eqn:Hf; rewrite length_insert;
      unfold contains; rewrite Hf; reflexivity.
Qed.

(** ** The kernel's rows hold in the guiding model *)

Lemma coeffs_sum_more o o' coeffs more :
  m_var2value o' = m_var2value o ++ more ->
  ids_below (length (m_var2value o)) coeffs ->
  coeffs_sum o' coeffs = coeffs_sum o coeffs.
Proof.
  intros He. induction 1 as [|v coeffs Hv _ IH]; simpl; auto.
  rewrite IH. unfold var_value. rewrite He, app_nth1 by exact Hv.
  reflexivity.
Qed.

Lemma call_ok_more o o' k more :
  m_var2value o' = m_var2value o ++ more -> call_ok o k -> call_ok o' k.
Proof.
  intros He.
  assert (Hlen : (length (m_var2value o) <= length (m_var2value o'))%nat)
    by (rewrite He, length_app; lia).
  destruct k; simpl; auto.
  - intros [Hb Hr]. split; [eapply ids_below_le; eauto|].
    rewrite (coeffs_sum_more _ _ _ _ He Hb). exact Hr.
  - intros [Hb [Hv Hr]]. split; [eapply ids_below_le; eauto|].
    split; [lia|]. rewrite (coeffs_sum_more _ _ _ _ He Hb).
    unfold var_value in *. rewrite He, app_nth1 by exact Hv. exact Hr.
  - intros [Hb [Hv Hr]]. split; [eapply ids_below_le; eauto|].
    split; [lia|]. rewrite (coeffs_sum_more _ _ _ _ He Hb).
    unfold var_value in *. rewrite He, app_nth1 by exact Hv. exact Hr.
Qed.

Lemma kernel_ok_more o o' more :
  m_var2value o' = m_var2value o ++ more -> m_calls o' = m_calls o ->
  kernel_ok o -> kernel_ok o'.
Proof.
  unfold kernel_ok. intros He Hc H. rewrite Hc.
  eapply Forall_impl; [|exact H]. intros k. apply (call_ok_more _ _ _ _ He).
Qed.

Lemma kernel_ok_ext s s' :
  vals_ext s s' -> m_calls (mbo s') = m_calls (mbo s) ->
  kernel_ok (mbo s) -> kernel_ok (mbo s').
Proof. intros [more He]. apply (kernel_ok_more _ _ _ He). Qed.

Lemma kernel_ok_record o k :
  kernel_ok o -> call_ok o k -> kernel_ok (record_call k o).
Proof.
  unfold kernel_ok. intros H Hk. cbn [record_call m_calls].
  apply Forall_app. split.
  - eapply Forall_impl; [|exact H]. intros k'.
    apply (call_ok_more o _ k' []). simpl. rewrite app_nil_r. reflexivity.
  - constructor; [|constructor].
    apply (call_ok_more o _ k []); [|exact Hk].
    simpl. rewrite app_nil_r. reflexivity.
Qed.

Lemma row_holds_comp ty a k b k' :
  a + k == b + k' -> row_holds ty a k -> row_holds ty b k'.
Proof. destruct ty; simpl; intros E H; try exact H; rewrite <- E; exact H. Qed.

Section KernelFacts.

Variable eval : model_evaluator -> expr -> expr.
Variable is_extended_numeral : expr -> option Q.
Variable mk_not : expr -> expr.
Variable ev0 : model_evaluator.
Hypothesis ev0_completion : ev_completion ev0 = true.
Hypothesis ev0_arith : arith_eval eval is_extended_numeral ev0.

Local Notation lin_extract_loop := (extract_loop eval).
Local Notation lin_extract := (extract_coefficients eval).
Local Notation lin_term := (linearize_term eval is_extended_numeral mk_not).
Local Notation in_model := (holds_model eval ev0).
Local Notation model_val := (qval eval ev0).
Local Notation value_of := (val_of eval ev0).
Local Notation has_val := (has_value eval ev0).
Local Notation acc_val := (acc_value eval ev0).

Lemma extract_loop_ids ts : forall coeffs s coeffs' s',
  in_model s -> lin_extract_loop ts coeffs s = Ok (coeffs', s') ->
  ids_below (length (m_var2value (mbo s))) coeffs ->
  ids_below (length (m_var2value (mbo s'))) coeffs'.
Proof.
  induction ts as [|[v q] ts IH]; cbn [extract_loop];
    intros coeffs s coeffs' s' Hm H Hb.
  - inversion H; subst. exact Hb.
  - bind_inv H. destruct a as [id s1]. cbv beta iota in H.
    destruct (id_of_model _ _ _ _ _ _ Hm Ha) as [Hm1 [He1 [Hid _]]].
    apply (IH _ _ _ _ Hm1 H).
    assert (Hb1 : ids_below (length (m_var2value (mbo s1))) coeffs)
      by (eapply ids_below_le; [apply vals_ext_length; eauto | exact Hb]).
    destruct (Qeq_bool q 0); [exact Hb1|].
    apply Forall_app. split; [exact Hb1|]. constructor; auto.
Qed.

Lemma extract_coefficients_ids ts s coeffs s' :
  in_model s -> lin_extract ts s = Ok (coeffs, s') ->
  ids_below (length (m_var2value (mbo s'))) coeffs.
Proof.
  intros [Hev Hm] H. unfold extract_coefficients in H.
  apply extract_loop_ids in H; [exact H| |constructor].
  split; simpl; [|exact Hm].
  rewrite Hev. apply set_model_completion_true. exact ev0_completion.
Qed.

Lemma extract_coefficients_calls ts s coeffs s' :
  lin_extract ts s = Ok (coeffs, s') -> m_calls (mbo s') = m_calls (mbo s).
Proof.
  intros H.
  destruct (extract_coefficients_extends _ (fun _ => False) _ _ _ _ H)
    as [[[ks [Hks Hnone]] _ _] _].
  destruct ks as [|k ks]; [|inversion Hnone; contradiction].
  rewrite app_nil_r in Hks. exact Hks.
Qed.

(** A variable defined by [add_mod] or [add_div] keeps the rows. *)
Lemma kernel_ok_def s1 value ints k :
  kernel_ok (mbo s1) ->
  call_ok (mk_mbo (m_var2value (mbo s1) ++ [value]) ints []) k ->
  kernel_ok (mk_mbo (m_var2value (mbo s1) ++ [value]) ints
               (m_calls (mbo s1) ++ [k])).
Proof.
  intros Hk Hnew. unfold kernel_ok. cbn [m_calls].
  apply Forall_app. split.
  - eapply Forall_impl; [|exact Hk]. intros k'.
    apply (call_ok_more (mbo s1) _ k' [value]). reflexivity.
  - constructor; [|constructor].
    eapply (call_ok_more _ _ k []); [|exact Hnew].
    simpl. rewrite app_nil_r. reflexivity.
Qed.

Lemma linearize_term_kernel t mul a a' :
  lin_term t mul a = Ok a' ->
  in_model (acc_st a) -> kernel_ok (mbo (acc_st a)) ->
  vals_ext (acc_st a) (acc_st a') /\ kernel_ok (mbo (acc_st a')).
Proof.
  revert t mul a a'.
  apply (linearize_term_ok_ind eval is_extended_numeral mk_not
           (fun t mul a a' =>
              in_model (acc_st a) -> kernel_ok (mbo (acc_st a)) ->
              vals_ext (acc_st a) (acc_st a') /\
              kernel_ok (mbo (acc_st a')))).
  - intros t mul a _ Hk. split; [apply vals_ext_refl | exact Hk].
  - intros t1 t2 mul1 mul a a' _ _ _ IH. exact IH.
  - intros t1 t2 mul1 mul a a' _ _ _ _ IH. exact IH.
  - intros t1 mul a a' _ _ IH. exact IH.
  - intros mul1 i mul a _ _ Hk. split; [apply vals_ext_refl | exact Hk].
  - intros args mul a a' _ Hch.
    induction Hch as [a|arg r a a1 a' Hstep IH1 _ IH]; intros Hm Hk.
    + split; [apply vals_ext_refl | exact Hk].
    + destruct (IH1 Hm Hk) as [He1 Hk1].
      destruct (linearize_term_model _ _ _ _ ev0_completion ev0_arith
                  _ _ _ _ Hstep Hm) as [Hm1 _].
      destruct (IH Hm1 Hk1) as [He Hk'].
      split; [eapply vals_ext_trans; eauto | exact Hk'].
  - intros t1 t2 mul a a1 a' _ H1 IH1 _ IH2 Hm Hk.
    destruct (IH1 Hm Hk) as [He1 Hk1].
    destruct (linearize_term_model _ _ _ _ ev0_completion ev0_arith
                _ _ _ _ H1 Hm) as [Hm1 _].
    destruct (IH2 Hm1 Hk1) as [He Hk'].
    split; [eapply vals_ext_trans; eauto | exact Hk'].
  - intros t1 t2 t3 mul a a1 _ _ _ IH Hm Hk. exact (IH Hm Hk).
  - intros t1 t2 t3 mul a a' _ _ _ _ IH Hm Hk. exact (IH Hm Hk).
  - (* mod *)
    intros t1 t2 mul1 mul a a0 coeffs s1 _ _ H0 IH Hx Hm Hk.
    destruct (IH Hm Hk) as [He0 Hk0].
    destruct (linearize_term_model _ _ _ _ ev0_completion ev0_arith
                _ _ _ _ H0 Hm) as [Hm0 _].
    destruct (extract_coefficients_model _ _ ev0_completion _ _ _ _ Hm0 Hx)
      as [Hm1 [He1 _]].
    pose proof (extract_coefficients_ids _ _ _ _ Hm0 Hx) as Hb.
    pose proof (extract_coefficients_calls _ _ _ _ Hx) as Hc.
    pose proof (kernel_ok_ext _ _ He1 Hc Hk0) as Hk1.
    unfold add_mod, add_var. cbn [fst snd record_call m_var2value
                                  m_var2is_int m_calls acc_st mbo
                                  set_tids set_mbo].
    split.
    + eapply vals_ext_trans; [exact He0|].
      eapply vals_ext_trans; [exact He1|].
      eexists [_]. reflexivity.
    + apply kernel_ok_def; [exact Hk1|].
      simpl. rewrite length_app. simpl.
      split; [eapply ids_below_le; [|exact Hb]; lia|]. split; [lia|].
      rewrite var_value_last.
      erewrite (coeffs_sum_more (mbo s1)); [|reflexivity|exact Hb].
      rewrite (q_mod_comp _ _ mul1 (eval_coeffs_sum (mbo s1) coeffs (acc_c a0))).
      reflexivity.
  - (* div *)
    intros t1 t2 mul1 mul a a0 coeffs s1 _ _ H0 IH Hx Hm Hk.
    destruct (IH Hm Hk) as [He0 Hk0].
    destruct (linearize_term_model _ _ _ _ ev0_completion ev0_arith
                _ _ _ _ H0 Hm) as [Hm0 _].
    destruct (extract_coefficients_model _ _ ev0_completion _ _ _ _ Hm0 Hx)
      as [Hm1 [He1 _]].
    pose proof (extract_coefficients_ids _ _ _ _ Hm0 Hx) as Hb.
    pose proof (extract_coefficients_calls _ _ _ _ Hx) as Hc.
    pose proof (kernel_ok_ext _ _ He1 Hc Hk0) as Hk1.
    unfold add_div, add_var. cbn [fst snd record_call m_var2value
                                  m_var2is_int m_calls acc_st mbo
                                  set_tids set_mbo].
    split.
    + eapply vals_ext_trans; [exact He0|].
      eapply vals_ext_trans; [exact He1|].
      eexists [_]. reflexivity.
    + apply kernel_ok_def; [exact Hk1|].
      simpl. rewrite length_app. simpl.
      split; [eapply ids_below_le; [|exact Hb]; lia|]. split; [lia|].
      rewrite var_value_last.
      erewrite (coeffs_sum_more (mbo s1)); [|reflexivity|exact Hb].
      rewrite (q_div_comp _ _ mul1 (eval_coeffs_sum (mbo s1) coeffs (acc_c a0))).
      reflexivity.
Qed.


Lemma submit_kernel ty a b s' :
  submit eval ty a = Ok (b, s') ->
  in_model (acc_st a) -> kernel_ok (mbo (acc_st a)) ->
  (leaves_ok eval ev0 (acc_ts a) -> row_holds ty (acc_val a) 0) ->
  kernel_ok (mbo s').
Proof.
  intros H Hm Hk Hrow. apply submit_inv in H.
  destruct H as [coeffs [s1 [Hx [_ ->]]]].
  destruct (extract_coefficients_model _ _ ev0_completion _ _ _ _ Hm Hx)
    as [Hm1 [He1 [Hleaves Hsum]]].
  pose proof (extract_coefficients_ids _ _ _ _ Hm Hx) as Hb.
  pose proof (extract_coefficients_calls _ _ _ _ Hx) as Hc.
  pose proof (kernel_ok_ext _ _ He1 Hc Hk) as Hk1.
  cbn [mbo set_mbo add_constraint].
  apply kernel_ok_record; [exact Hk1|]. split; [exact Hb|].
  apply (row_holds_comp ty (acc_val a) 0); [|exact (Hrow Hleaves)].
  specialize (Hsum (acc_c a)). rewrite eval_coeffs_sum in Hsum.
  unfold acc_value. rewrite <- Hsum. ring.
Qed.

Lemma diff_submit_kernel mul e1 e2 ty s b s' :
  (a <- linearize_diff eval is_extended_numeral mk_not mul e1 e2 s ;;
   submit eval ty a) = Ok (b, s') ->
  in_model s -> kernel_ok (mbo s) ->
  row_holds ty (mul * (model_val e1 - model_val e2)) 0 ->
  kernel_ok (mbo s').
Proof.
  intros H Hm Hk Hrow. bind_inv H. unfold linearize_diff in Ha.
  bind_inv Ha. rename a0 into a1.
  destruct (linearize_term_model _ _ _ _ ev0_completion ev0_arith
              _ _ _ _ Ha0 Hm) as [Hm1 Hl1].
  destruct (linearize_term_kernel _ _ _ _ Ha0 Hm Hk) as [_ Hk1].
  destruct (linearize_term_model _ _ _ _ ev0_completion ev0_arith
              _ _ _ _ Ha Hm1) as [Hm2 Hl2].
  destruct (linearize_term_kernel _ _ _ _ Ha Hm1 Hk1) as [_ Hk2].
  apply (submit_kernel _ _ _ _ H Hm2 Hk2). intros Hleaves.
  destruct (Hl2 Hleaves) as [Hleaves1 [r2 [Hr2 Hv2]]].
  destruct (Hl1 Hleaves1) as [_ [r1 [Hr1 Hv1]]].
  apply (row_holds_comp ty (mul * (model_val e1 - model_val e2)) 0);
    [|exact Hrow].
  rewrite Hv2, Hv1. unfold acc_value. cbn [acc_c acc_ts ts_value fold_right].
  rewrite (has_value_qval _ _ _ _ Hr1), (has_value_qval _ _ _ _ Hr2). ring.
Qed.

Lemma find_value_some values : forall q e,
  find_value values q = Some e -> exists q', In (q', e) values /\ q == q'.
Proof.
  induction values as [|[q' e'] rest IH]; simpl; intros q e H; [discriminate|].
  destruct (Qeq_bool q q') eqn:E.
  - inversion H; subst. exists q'. split; [left; reflexivity|].
    apply Qeq_bool_iff. exact E.
  - destruct (IH _ _ H) as [q0 [Hin Hq]]. exists q0. split; [right|]; auto.
Qed.

Lemma find_equal_kernel mul args : forall values ty a r,
  find_equal eval is_extended_numeral mk_not mul args values ty a = Ok r ->
  in_model (acc_st a) -> kernel_ok (mbo (acc_st a)) ->
  Forall (fun v => has_val (snd v) (fst v)) values ->
  match r with
  | None => True
  | Some (ty', a') =>
      in_model (acc_st a') /\ kernel_ok (mbo (acc_st a')) /\
      ((ty' = ty /\ a' = a) \/
       (ty' = t_eq /\
        (leaves_ok eval ev0 (acc_ts a') -> acc_val a' == acc_val a)))
  end.
Proof.
  induction args as [|arg1 rest IH]; simpl; intros values ty a r H Hm Hk Hv.
  - inversion H; subst. split; [exact Hm|]. split; [exact Hk|]. left; auto.
  - destruct (is_numeral (eval (ev (acc_st a)) arg1)) as [q|] eqn:Hq.
    + assert (Hq' : value_of arg1 = Some q).
      { unfold val_of. destruct Hm as [Hev _]. rewrite <- Hev. exact Hq. }
      destruct (find_value values q) as [arg2|] eqn:Hf.
      * bind_inv H. rename a0 into a1. bind_inv H. rename a0 into a2.
        inversion H; subst r; clear H.
        destruct (linearize_term_model _ _ _ _ ev0_completion ev0_arith
                    _ _ _ _ Ha Hm) as [Hm1 Hl1].
        destruct (linearize_term_kernel _ _ _ _ Ha Hm Hk) as [_ Hk1].
        destruct (linearize_term_model _ _ _ _ ev0_completion ev0_arith
                    _ _ _ _ Ha0 Hm1) as [Hm2 Hl2].
        destruct (linearize_term_kernel _ _ _ _ Ha0 Hm1 Hk1) as [_ Hk2].
        split; [exact Hm2|]. split; [exact Hk2|]. right.
        split; [reflexivity|]. intros Hleaves.
        destruct (Hl2 Hleaves) as [Hleaves1 [r2 [Hr2 Hv2]]].
        destruct (Hl1 Hleaves1) as [_ [r1 [Hr1 Hv1]]].
        destruct (find_value_some _ _ _ Hf) as [q' [Hin Hqq]].
        rewrite Forall_forall in Hv. specialize (Hv _ Hin). simpl in Hv.
        assert (E1 : r1 == q).
        { symmetry. eapply has_value_val_of; eauto. }
        assert (E2 : r2 == q').
        { destruct Hv as [q0 [Hq0 E0]]. rewrite <- E0. symmetry.
          eapply has_value_val_of; eauto. }
        rewrite Hv2, Hv1, E1, E2, Hqq. ring.
      * apply (IH _ _ _ _ H Hm Hk).
        apply Forall_app. split; [exact Hv|]. constructor; [|constructor].
        simpl. apply val_of_has_value. exact Hq'.
    + inversion H; subst. exact I.
Qed.

(** *** The sort of the [distinct] arm *)

Lemma sort_insert_Forall (P : expr * Q -> Prop) x l :
  P x -> Forall P l -> Forall P (sort_insert x l).
Proof.
  intros Hx. induction 1 as [|y r Hy Hr IH]; simpl.
  - constructor; auto.
  - destruct (Qlt_bool (snd x) (snd y)); repeat constructor; auto.
Qed.

Lemma sort_second_Forall (P : expr * Q -> Prop) l :
  Forall P l -> Forall P (sort_second l).
Proof.
  unfold sort_second. intros H.
  assert (G : forall acc, Forall P acc ->
                Forall P (fold_left (fun acc x => sort_insert x acc) l acc)).
  { induction H as [|x l Hx _ IH]; simpl; intros acc Hacc; [exact Hacc|].
    apply IH. apply sort_insert_Forall; auto. }
  apply G. constructor.
Qed.


Lemma sort_insert_strict x l :
  Sorted (fun a b => snd a < snd b) l ->
  Forall (fun y => ~ snd x == snd y) l ->
  Sorted (fun a b => snd a < snd b) (sort_insert x l).
Proof.
  induction 1 as [|y r Hr IH Hd]; simpl; intros Hne.
  - repeat constructor.
  - inversion Hne as [|? ? Hxy Hne']; subst.
    destruct (Qlt_bool (snd x) (snd y)) eqn:E.
    + apply Qlt_bool_true in E. repeat constructor; auto.
    + apply Qlt_bool_false in E.
      assert (Hlt : snd y < snd x).
      { apply Qle_lt_or_eq in E. destruct E as [E|E]; [exact E|].
        exfalso. apply Hxy. symmetry. exact E. }
      constructor; [apply IH; exact Hne'|].
      destruct r as [|z r']; simpl.
      * constructor. exact Hlt.
      * inversion Hd; subst.
        destruct (Qlt_bool (snd x) (snd z)); constructor; auto.
Qed.

Lemma sort_second_strict l :
  ForallOrdPairs (fun a b => ~ snd a == snd b) l ->
  Sorted (fun a b => snd a < snd b) (sort_second l).
Proof.
  unfold sort_second. intros H.
  assert (G : forall acc,
             Sorted (fun a b => snd a < snd b) acc ->
             Forall (fun x => Forall (fun y => ~ snd x == snd y) acc) l ->
             Sorted (fun a b => snd a < snd b)
               (fold_left (fun acc x => sort_insert x acc) l acc)).
  { induction H as [|x l Hx _ IH]; simpl; intros acc Hs Hacc; [exact Hs|].
    inversion Hacc as [|? ? Hxa Hla]; subst.
    apply IH; [apply sort_insert_strict; auto|].
    rewrite Forall_forall in *. intros y Hy.
    apply sort_insert_Forall; [|apply Hla; exact Hy].
    intros E. apply (Hx y Hy). symmetry. exact E. }
  apply G; [constructor|].
  apply Forall_forall. intros; constructor.
Qed.

Lemma eval_nums_values ev1 args : forall nums,
  eval_nums eval ev1 args = Some nums ->
  Forall (fun p => is_numeral (eval ev1 (fst p)) = Some (snd p)) nums /\
  map fst nums = args.
Proof.
  induction args as [|arg r IH]; simpl; intros nums H.
  - inversion H; subst. split; constructor.
  - destruct (is_numeral (eval ev1 arg)) as [q|] eqn:Hq; [|discriminate].
    destruct (eval_nums eval ev1 r) as [l|]; [|discriminate].
    inversion H; subst. destruct (IH _ eq_refl) as [Hv Hm].
    split; [constructor; auto|]. simpl. rewrite Hm. reflexivity.
Qed.

Lemma model_val_numeral e q : value_of e = Some q -> model_val e = q.
Proof. unfold qval. intros ->. reflexivity. Qed.

Lemma distinct_values nums :
  Forall (fun p => value_of (fst p) = Some (snd p)) nums ->
  ForallOrdPairs (fun a b => ~ model_val a == model_val b) (map fst nums) ->
  ForallOrdPairs (fun a b => ~ snd a == snd b) nums.
Proof.
  induction 1 as [|p nums Hp Hn IH]; simpl; intros H; [constructor|].
  inversion H as [|? ? Hx Hr]; subst. constructor; [|apply IH; exact Hr].
  rewrite Forall_forall in *. intros y Hy.
  specialize (Hx (fst y) (in_map fst _ _ Hy)).
  rewrite (model_val_numeral _ _ Hp), (model_val_numeral _ _ (Hn y Hy)) in Hx.
  exact Hx.
Qed.

Lemma linearize_kernel m_inc depth : forall lit s b s',
  linearize eval is_extended_numeral mk_not m_inc depth lit s = Ok (b, s') ->
  in_model s -> kernel_ok (mbo s) -> lit_true model_val lit ->
  kernel_ok (mbo s').
Proof.
  induction depth as [|depth IH]; intros lit s b s' H Hm Hk Ht; [discriminate|].
  cbn [linearize] in H.
  destruct m_inc; cbn [negb] in H; [|inversion H; subst; exact Hk].
  destruct lit; cbv beta iota zeta in H; cbn [negb] in H;
    try (inversion H; subst; exact Hk).
  - (* <= *)
    apply (diff_submit_kernel _ _ _ _ _ _ _ H Hm Hk). simpl in *. lra.
  - (* < *)
    apply (diff_submit_kernel _ _ _ _ _ _ _ H Hm Hk). simpl in *. lra.
  - (* >= *)
    apply (diff_submit_kernel _ _ _ _ _ _ _ H Hm Hk). simpl in *. lra.
  - (* > *)
    apply (diff_submit_kernel _ _ _ _ _ _ _ H Hm Hk). simpl in *. lra.
  - (* = *)
    destruct (is_arith lit1); cbn [negb] in H;
      [|inversion H; subst; exact Hk].
    apply (diff_submit_kernel _ _ _ _ _ _ _ H Hm Hk). simpl in *. lra.
  - (* distinct *)
    destruct args as [|arg0 args]; [discriminate|].
    destruct (is_arith arg0); cbn [negb] in H;
      [|inversion H; subst; exact Hk].
    destruct (eval_nums eval (ev s) (arg0 :: args)) as [nums|] eqn:Hn;
      [|inversion H; subst; exact Hk].
    destruct (eval_nums_values _ _ _ Hn) as [Hv Hfst].
    assert (Hv' : Forall (fun p => value_of (fst p) = Some (snd p)) nums).
    { destruct Hm as [Hev _]. rewrite Hev in Hv. exact Hv. }
    cbn [lit_true] in Ht. rewrite <- Hfst in Ht.
    pose proof (sort_second_strict _ (distinct_values _ Hv' Ht)) as Hs.
    pose proof (sort_second_Forall _ _ Hv') as Hvs.
    clear Hn Hv Hv' Hfst Ht.
    revert s H Hm Hk. generalize dependent (sort_second nums).
    induction l as [|x r IHl]; intros Hs Hvs s H Hm Hk.
    + inversion H; subst. exact Hk.
    + destruct r as [|y r'].
      { inversion H; subst. exact Hk. }
      bind_inv H. destruct a as [b1 s1]. cbv beta iota in H.
      inversion Hs as [|? ? Hs' Hd]; subst.
      inversion Hvs as [|? ? Hx Hvs']; subst.
      assert (Hlt : lit_true model_val (Lt (fst x) (fst y))).
      { inversion Hd; subst. inversion Hvs'; subst. simpl.
        rewrite (model_val_numeral _ _ Hx).
        rewrite (model_val_numeral (fst y) (snd y)) by assumption.
        assumption. }
      pose proof (IH _ _ _ _ Ha Hm Hk Hlt) as Hk1.
      pose proof (linearize_model _ _ _ _ ev0_completion ev0_arith
                    _ _ _ _ _ _ Ha Hm) as Hm1.
      destruct b1.
      { eapply IHl; eauto. }
      { inversion H; subst. exact Hk1. }
  - (* not *)
    destruct lit; cbv beta iota zeta in H; cbn [negb] in H;
      try (inversion H; subst; exact Hk).
    + apply (diff_submit_kernel _ _ _ _ _ _ _ H Hm Hk). simpl in *. lra.
    + apply (diff_submit_kernel _ _ _ _ _ _ _ H Hm Hk). simpl in *. lra.
    + apply (diff_submit_kernel _ _ _ _ _ _ _ H Hm Hk). simpl in *. lra.
    + apply (diff_submit_kernel _ _ _ _ _ _ _ H Hm Hk). simpl in *. lra.
    + (* <> *)
      destruct (is_arith lit1); cbn [negb] in H;
        [|inversion H; subst; exact Hk].
      destruct (is_numeral (eval (ev s) lit1)) as [r1|] eqn:H1;
        [|inversion H; subst; exact Hk].
      destruct (is_numeral (eval (ev s) lit2)) as [r2|] eqn:H2;
        [|inversion H; subst; exact Hk].
      assert (E1 : model_val lit1 = r1).
      { apply model_val_numeral. unfold val_of.
        destruct Hm as [Hev _]. rewrite <- Hev. exact H1. }
      assert (E2 : model_val lit2 = r2).
      { apply model_val_numeral. unfold val_of.
        destruct Hm as [Hev _]. rewrite <- Hev. exact H2. }
      cbn [lit_true] in Ht. rewrite E1, E2 in Ht.
      destruct (Qlt_bool r1 r2) eqn:E;
        apply (diff_submit_kernel _ _ _ _ _ _ _ H Hm Hk);
        rewrite E1, E2; simpl.
      * apply Qlt_bool_true in E. lra.
      * apply Qlt_bool_false in E.
        assert (r2 < r1); [|lra].
        apply Qle_lt_or_eq in E. destruct E as [E|E]; [exact E|].
        exfalso. apply Ht. symmetry. exact E.
    + (* not distinct *)
      destruct args as [|arg0 args]; [discriminate|].
      destruct (is_arith arg0); cbn [negb] in H;
        [|inversion H; subst; exact Hk].
      bind_inv H.
      apply find_equal_kernel in Ha; [|exact Hm|exact Hk|constructor].
      destruct a as [[ty a']|]; [|inversion H; subst; exact Hk].
      destruct Ha as [Hm' [Hk' Hcase]].
      apply (submit_kernel _ _ _ _ H Hm' Hk'). intros Hleaves.
      destruct Hcase as [[-> ->]|[-> Hv]].
      * unfold acc_value. simpl. lra.
      * specialize (Hv Hleaves). simpl. rewrite Hv.
        unfold acc_value. simpl. lra.
    + (* not and *)
      destruct (first_with _ args); inversion H; subst; exact Hk.
  - (* or *)
    destruct (first_with _ args); inversion H; subst; exact Hk.
Qed.

(** X2. The kernel's rows hold in the model.  In a state whose kernel
    holds the model (every kernel variable has the model value of its
    expression) and whose rows all hold at the kernel's values, a call
    of the literal linearizer on a literal that is true under the
    model values leaves such a state: every constraint it submits
    holds at the kernel's values, every mod or div variable it defines
    has the value its defining row prescribes, and every variable a row
    mentions exists. *)
Theorem linearize_rows_hold m_inc depth lit s b s' :
  in_model s -> kernel_ok (mbo s) -> lit_true model_val lit ->
  linearize eval is_extended_numeral mk_not m_inc depth lit s = Ok (b, s') ->
  in_model s' /\ kernel_ok (mbo s').
Proof.
  intros Hm Hk Ht H. split.
  - eapply linearize_model; eauto.
  - eapply linearize_kernel; eauto.
Qed.

(** X3. The linear form of a term.  When the term linearizer, started
    on the constant [c] and an empty coefficient map, has returned and
    the coefficients have been extracted, the term [t] evaluates to a
    numeral [r], the linear form [sum coeffs + constant] has the value
    [c + mul * r] at the kernel's values, and the kernel still holds
    the model and satisfies its rows. *)
Theorem linearize_term_value t mul c s a coeffs s' :
  in_model s -> kernel_ok (mbo s) ->
  linearize_term eval is_extended_numeral mk_not t mul (mk_acc c [] s) = Ok a ->
  extract_coefficients eval (acc_ts a) (acc_st a) = Ok (coeffs, s') ->
  exists r,
    has_val t r /\
    eval_coeffs (mbo s') coeffs (acc_c a) == c + mul * r /\
    in_model s' /\ kernel_ok (mbo s').
Proof.
  intros Hm Hk Ha Hx.
  destruct (linearize_term_model _ _ _ _ ev0_completion ev0_arith
              _ _ _ _ Ha Hm) as [Hm1 Hl1].
  destruct (linearize_term_kernel _ _ _ _ Ha Hm Hk) as [_ Hk1].
  destruct (extract_coefficients_model _ _ ev0_completion _ _ _ _ Hm1 Hx)
    as [Hm' [He [Hleaves Hsum]]].
  destruct (Hl1 Hleaves) as [_ [r [Hr Hv]]].
  exists r. split; [exact Hr|]. split; [|split; [exact Hm'|]].
  - rewrite Hsum. fold (acc_val a). rewrite Hv.
    unfold acc_value. simpl. ring.
  - eapply kernel_ok_ext; [exact He| |exact Hk1].
    eapply extract_coefficients_calls; eauto.
Qed.

End KernelFacts.

(** ** What the linearizers never do *)

Section Refusal.

Variable eval : model_evaluator -> expr -> expr.
Variable is_extended_numeral : expr -> option Q.
Variable mk_not : expr -> expr.

Local Notation lin_id := (id_of eval).
Local Notation lin_extract_loop := (extract_loop eval).
Local Notation lin_extract := (extract_coefficients eval).
Local Notation lin_term := (linearize_term eval is_extended_numeral mk_not).
Local Notation lin_lit := (linearize eval is_extended_numeral mk_not).

Lemma diff_submit_true mul e1 e2 ty s b s' :
  (a <- linearize_diff eval is_extended_numeral mk_not mul e1 e2 s ;;
   submit eval ty a) = Ok (b, s') -> b = true.
Proof.
  intros H. bind_inv H. apply submit_inv in H.
  destruct H as [coeffs [s1 [_ [Hb _]]]]. exact Hb.
Qed.

Lemma linearize_refused depth : forall lit s s',
  lin_lit true depth lit s = Ok (false, s') -> s' = s.
Proof.
  induction depth as [|depth IH]; intros lit s s' H; [discriminate|].
  cbn [linearize negb] in H.
  set (is_not := match lit with Not _ => true | _ => false end) in H.
  set (atom := match lit with Not l => l | _ => lit end) in H.
  clearbody is_not atom.
  destruct atom; try (inversion H; reflexivity);
    try (apply diff_submit_true in H; discriminate).
  - (* = *)
    destruct (is_arith atom1); cbn [negb] in H; [|inversion H; reflexivity].
    destruct is_not; cbn [negb] in H.
    + destruct (is_numeral (eval (ev s) atom1)) as [r1|];
        [|inversion H; reflexivity].
      destruct (is_numeral (eval (ev s) atom2)) as [r2|];
        [|inversion H; reflexivity].
      destruct (Qlt_bool r1 r2); apply diff_submit_true in H; discriminate.
    + apply diff_submit_true in H; discriminate.
  - (* distinct *)
    destruct args as [|arg0 args]; [discriminate|].
    destruct (is_arith arg0); cbn [negb] in H; [|inversion H; reflexivity].
    destruct is_not; cbn [negb] in H.
    + bind_inv H. destruct a as [[ty a']|]; [|inversion H; reflexivity].
      apply submit_inv in H. destruct H as [? [? [_ [Hb _]]]]. discriminate.
    + destruct (eval_nums eval (ev s) (arg0 :: args)) as [nums|];
        [|inversion H; reflexivity].
      exfalso. revert s H. generalize (sort_second nums) as l.
      induction l as [|x r IHl]; intros s H; [discriminate|].
      destruct r as [|y r']; [discriminate|].
      bind_inv H. destruct a as [b1 s1]. cbv beta iota in H.
      assert (b1 = true) as ->.
      { destruct depth as [|depth']; [discriminate|].
        cbn [linearize negb] in Ha. apply diff_submit_true in Ha. exact Ha. }
      exact (IHl _ H).
  - (* and *)
    destruct is_not; cbn [negb] in H; [|discriminate].
    destruct (first_with _ args); [discriminate|inversion H; reflexivity].
  - (* or *)
    destruct is_not; cbn [negb] in H; [discriminate|].
    destruct (first_with _ args); [discriminate|inversion H; reflexivity].
Qed.


(** X4. Refusal leaves no trace.  As long as the host does not cancel,
    a literal the linearizer returns false on leaves the kernel, the
    evaluator, the side formulas and [tids] exactly as they were; a
    cancelled call returns false at once, whatever the literal; and a
    comparison [<=], [<], [>=], [>] or its negation is never refused. *)
Theorem linearize_refusal :
  (forall depth lit s s',
      linearize eval is_extended_numeral mk_not true depth lit s =
      Ok (false, s') -> s' = s) /\
  (forall depth lit s,
      linearize eval is_extended_numeral mk_not false (S depth) lit s =
      Ok (false, s)) /\
  (forall depth e1 e2 atom lit s b s',
      In atom [Le e1 e2; Lt e1 e2; Ge e1 e2; Gt e1 e2] ->
      lit = atom \/ lit = Not atom ->
      linearize eval is_extended_numeral mk_not true (S depth) lit s =
      Ok (b, s') -> b = true).
Proof.
  split; [exact linearize_refused|]. split; [reflexivity|].
  intros depth e1 e2 atom lit s b s' Hin Hlit H.
  simpl in Hin.
  destruct Hin as [<-|[<-|[<-|[<-|[]]]]]; destruct Hlit as [->| ->];
    cbn [linearize negb] in H; apply diff_submit_true in H; exact H.
Qed.

(** X5. The exceptions of the linearizers.  The term linearizer and
    coefficient extraction raise nothing but "mbp evaluation didn't
    produce a truth value" and "mbp evaluation was only partial"; the
    literal linearizer raises nothing else either, except that it reads
    the first argument of a [distinct] without arguments. *)
Theorem linearizer_exceptions :
  (forall ts s e, extract_coefficients eval ts s = Err e -> term_error e) /\
  (forall t mul a e,
      linearize_term eval is_extended_numeral mk_not t mul a = Err e ->
      term_error e) /\
  (forall m_inc depth lit s e,
      linearize eval is_extended_numeral mk_not m_inc (S (S depth)) lit s =
      Err e ->
      term_error e \/
      (e = null_deref /\ (lit = Distinct [] \/ lit = Not (Distinct [])))).
Proof.
  split; [|split].
  - intros ts s e. apply extract_coefficients_errors.
  - intros t mul a e. apply linearize_term_errors.
  - intros m_inc depth lit s e H. rewrite linearize_depth in H.
    eapply linearize_errors; eauto.
Qed.

(** *** Coefficient extraction *)

Lemma id_of_ev v s id s' : lin_id v s = Ok (id, s') -> ev s' = ev s.
Proof.
  unfold id_of. destruct (find (tids s) v).
  - intros H; inversion H; reflexivity.
  - destruct (is_numeral (eval (ev s) v)); [|discriminate].
    unfold add_var. intros H; inversion H; reflexivity.
Qed.

Lemma extract_loop_again ts : forall coeffs s coeffs' s',
  lin_extract_loop ts coeffs s = Ok (coeffs', s') ->
  forall s2, tids_le s' s2 -> lin_extract_loop ts coeffs s2 = Ok (coeffs', s2).
Proof.
  induction ts as [|[v q] ts IH]; cbn [extract_loop];
    intros coeffs s coeffs' s' H s2 Hle.
  - inversion H; reflexivity.
  - bind_inv H. destruct a as [id s1]. cbv beta iota in H.
    destruct (id_of_tids _ _ _ _ _ Ha) as [_ Hf].
    destruct (extract_loop_tids _ _ _ _ _ _ H) as [Hle1 _].
    unfold id_of at 1. rewrite (Hle _ _ (Hle1 _ _ Hf)).
    cbn [bind]. exact (IH _ _ _ _ H _ Hle).
Qed.

(** X6. Extraction is stable.  Once [extract_coefficients] has returned,
    every key of [ts] has its kernel variable: extracting the same map
    again, in the state it left or in any later state that still maps
    those keys to the same variables (with model completion on),
    allocates nothing, changes nothing and returns the same vector. *)
Theorem extract_coefficients_stable ts s coeffs s' s2 :
  extract_coefficients eval ts s = Ok (coeffs, s') ->
  tids_le s' s2 -> ev_completion (ev s2) = true ->
  ev_completion (ev s') = true /\
  extract_coefficients eval ts s' = Ok (coeffs, s') /\
  extract_coefficients eval ts s2 = Ok (coeffs, s2).
Proof.
  intros H Hle Hc.
  destruct (extract_coefficients_extends _ (fun _ => True) _ _ _ _ H)
    as [_ [_ Hev]].
  assert (Hc' : ev_completion (ev s') = true) by (rewrite Hev; reflexivity).
  assert (G : forall s3, tids_le s' s3 -> ev_completion (ev s3) = true ->
                lin_extract ts s3 = Ok (coeffs, s3)).
  { intros s3 Hle3 Hc3. unfold extract_coefficients in *.
    rewrite (set_model_completion_true _ Hc3).
    replace (set_ev s3 (ev s3)) with s3 by (destruct s3; reflexivity).
    exact (extract_loop_again _ _ _ _ _ H _ Hle3). }
  split; [exact Hc'|]. split; [apply G; [apply tids_le_refl|exact Hc']|].
  apply G; assumption.
Qed.

Lemma extract_loop_err ts : forall coeffs s e,
  lin_extract_loop ts coeffs s = Err e ->
  e = default_exception "mbp evaluation was only partial" /\
  exists v q, In (v, q) ts /\ find (tids s) v = None /\
              is_numeral (eval (ev s) v) = None.
Proof.
  induction ts as [|[v q] ts IH]; cbn [extract_loop]; intros coeffs s e H;
    [discriminate|].
  apply bind_Err in H. destruct H as [H|[[id s1] [Ha H]]].
  - unfold id_of in H. destruct (find (tids s) v) eqn:Hf; [discriminate|].
    destruct (is_numeral (eval (ev s) v)) eqn:Hn.
    + unfold add_var in H. discriminate.
    + inversion H. split; [reflexivity|]. exists v, q.
      split; [left; reflexivity|]. split; assumption.
  - cbv beta iota in H. destruct (IH _ _ _ H) as [-> [v' [q' [Hin [Hf Hn]]]]].
    split; [reflexivity|]. exists v', q'. split; [right; exact Hin|].
    destruct (id_of_tids _ _ _ _ _ Ha) as [Hle _].
    rewrite (id_of_ev _ _ _ _ Ha) in Hn. split; [|exact Hn].
    destruct (find (tids s) v') eqn:Hf'; [|reflexivity].
    rewrite (Hle _ _ Hf') in Hf. discriminate.
Qed.

Lemma extract_loop_partial ts : forall coeffs s v q,
  In (v, q) ts -> find (tids s) v = None ->
  is_numeral (eval (ev s) v) = None ->
  lin_extract_loop ts coeffs s =
  throw "mbp evaluation was only partial".
Proof.
  induction ts as [|[v0 q0] ts IH]; cbn [extract_loop];
    intros coeffs s v q Hin Hf Hn; [destruct Hin|].
  destruct (lin_id v0 s) as [[id s1]|e] eqn:Ha.
  - cbn [bind]. destruct Hin as [Heq|Hin].
    + inversion Heq; subst v0 q0. unfold id_of in Ha.
      rewrite Hf, Hn in Ha. discriminate.
    + apply (IH _ _ v q Hin).
      * unfold id_of in Ha. destruct (find (tids s) v0) eqn:Hf0.
        { inversion Ha; subst. exact Hf. }
        destruct (is_numeral (eval (ev s) v0)) eqn:Hn0; [|discriminate].
        unfold add_var in Ha. inversion Ha; subst. cbn [tids set_tids].
        rewrite find_insert_other; [exact Hf|].
        intros ->. rewrite Hn in Hn0. discriminate.
      * rewrite (id_of_ev _ _ _ _ Ha). exact Hn.
  - cbn [bind]. unfold id_of in Ha. destruct (find (tids s) v0); [discriminate|].
    destruct (is_numeral (eval (ev s) v0)); [|inversion Ha; reflexivity].
    unfold add_var in Ha. discriminate.
Qed.

(** X7. When extraction fails.  [extract_coefficients] raises "mbp
    evaluation was only partial" exactly when some key of [ts] has no
    kernel variable yet and does not evaluate to a numeral under model
    completion; it raises nothing else. *)
Theorem extract_coefficients_partial ts s e :
  extract_coefficients eval ts s = Err e <->
  e = default_exception "mbp evaluation was only partial" /\
  exists v q, In (v, q) ts /\ find (tids s) v = None /\
              is_numeral (eval (set_model_completion true (ev s)) v) = None.
Proof.
  unfold extract_coefficients. split.
  - intros H. apply extract_loop_err in H. exact H.
  - intros [-> [v [q [Hin [Hf Hn]]]]].
    apply (extract_loop_partial _ _ _ v q Hin); assumption.
Qed.

End Refusal.

(** ** More on [project] *)

Lemma subseq_refl {A} (l : list A) : subseq l l.
Proof. induction l; constructor; auto. Qed.

Lemma set_nth_same {A} (l : list A) : forall j x,
  nth_error l j = Some x -> set_nth j x l = l.
Proof.
  induction l as [|y l IH]; intros [|j] x H; simpl in *; try discriminate.
  - inversion H; reflexivity.
  - rewrite (IH _ _ H). reflexivity.
Qed.

Section ProjectFacts.

Variable eval : model_evaluator -> expr -> expr.
Variable is_extended_numeral : expr -> option Q.
Variable mk_not : expr -> expr.
Variable m_inc : bool.
Variable m_check_purified : bool.
Variable m_apply_projection : bool.
Variable mk_add_simplify : list expr -> expr.
Variable safe_replace : list (expr * expr) -> expr -> expr.
Variable kernel_project :
  model_based_opt -> list nat -> bool -> list (option opt_def).
Variable kernel_live_rows : model_based_opt -> list row.

Local Notation imp_project :=
  (project eval is_extended_numeral mk_not m_inc m_check_purified
     m_apply_projection mk_add_simplify safe_replace kernel_project
     kernel_live_rows).

Lemma split_vars_inv roots t vs : forall real_vars kept,
  split_vars roots t vs = Ok (real_vars, kept) ->
  subseq kept vs /\
  kept = filter (fun v => negb (is_arith v && negb (fmls_marked roots v))) vs /\
  Forall2 (fun v id => find t v = Some id)
    (filter (fun v => is_arith v && negb (fmls_marked roots v)) vs) real_vars.
Proof.
  induction vs as [|v vs IH]; cbn [split_vars filter]; intros real_vars kept H.
  - inversion H; subst. repeat constructor.
  - destruct (is_arith v && negb (fmls_marked roots v)); cbn [negb].
    + destruct (find t v) as [id|] eqn:Hf; [|discriminate].
      bind_inv H. destruct a as [rv k]. cbv beta iota in H.
      inversion H; subst. destruct (IH _ _ Ha) as [Hs [Hk Hr]].
      split; [constructor; exact Hs|]. split; [exact Hk|].
      constructor; auto.
    + bind_inv H. destruct a as [rv k]. cbv beta iota in H.
      inversion H; subst. destruct (IH _ _ Ha) as [Hs [Hk Hr]].
      split; [constructor; exact Hs|]. split; [|exact Hr].
      rewrite <- Hk. reflexivity.
Qed.

Lemma project_vars_inv fuel mdl vars0 fmls0 result0 compute_def o :
  imp_project fuel mdl vars0 fmls0 result0 compute_def = Ok o ->
  subseq (out_vars o) vars0 /\
  (forall v, In v vars0 -> is_arith v = false -> In v (out_vars o)) /\
  (m_check_purified = true -> m_apply_projection = false ->
   existsb is_arith vars0 = true -> ret o = true ->
   exists residue s1 lits,
     scan eval is_extended_numeral mk_not m_inc fmls0
       (mk_lin_state mbo_empty (mk_evaluator (set_inline mdl) true) fmls0 [])
       residue s1 /\
     out_fmls o = residue ++ lits /\
     forall v f, In v vars0 -> In f residue -> occurs v f = true ->
                 In v (out_vars o)).
Proof.
  intros H. unfold project in H.
  destruct (existsb is_arith vars0) eqn:Harith; cbn [negb] in H.
  2:{ inversion H; subst; cbn [out_vars ret]. split; [apply subseq_refl|].
      split; [auto|]. intros _ _ Hf. discriminate. }
  bind_inv H. destruct a as [j s1]. cbv beta iota in H.
  apply linearize_loop_scan in Ha; [|lia].
  destruct Ha as [residue [Hscan Hres]]. cbn [fmls firstn app] in Hres, Hscan.
  bind_inv H. destruct a as [s2|].
  2:{ inversion H; subst; cbn [out_vars ret]. split; [apply subseq_refl|].
      split; [auto|]. intros _ _ _ Hf. discriminate. }
  pose proof (add_vars_fmls _ _ _ _ _ Ha) as Hf2. cbn [fmls set_fmls] in Hf2.
  bind_inv H. destruct a as [real_vars vars1]. cbv beta iota in H.
  unfold mbo_project in H. cbv beta iota in H.
  bind_inv H. rename a into fmls1. bind_inv H. rename a into result1.
  apply rows2fmls_inv in Ha1. destruct Ha1 as [lits [-> Hlits]].
  destruct (split_vars_inv _ _ _ _ _ Ha0) as [Hsub [Hkept _]].
  assert (Hv : out_vars o = vars1).
  { destruct m_apply_projection.
    - destruct (apply_projection _ _ _ _ _) as [ok fmls2].
      inversion H; reflexivity.
    - inversion H; reflexivity. }
  rewrite Hv. split; [exact Hsub|]. split.
  - intros v Hin Hna. rewrite Hkept. apply filter_In. split; [exact Hin|].
    rewrite Hna. reflexivity.
  - intros Hcp Hap _ _. exists residue, s1, lits. split; [exact Hscan|].
    split.
    + rewrite Hap in H. inversion H as [Ho]. cbn [out_fmls].
      rewrite Hf2, Hres. reflexivity.
    + intros v f Hin Hf Hocc. rewrite Hkept. apply filter_In.
      split; [exact Hin|].
      replace (fmls_marked (mark_roots m_check_purified vars0 s2) v)
        with true; [rewrite andb_false_r; reflexivity|].
      symmetry. unfold fmls_marked. apply existsb_exists. exists f.
      split; [|exact Hocc]. unfold mark_roots. rewrite Hcp.
      apply in_or_app. right. apply in_or_app. left.
      rewrite Hf2, Hres. exact Hf.
Qed.


(** *** Outcomes of [project] *)

Lemma add_vars_inc vs : forall s r,
  add_vars eval true vs s = Ok r -> r <> None.
Proof.
  induction vs as [|v vs IH]; simpl; intros s r H.
  - inversion H; discriminate.
  - destruct (is_arith v && negb (contains (tids s) v)); [|eauto].
    destruct (is_numeral (eval (ev s) v)) as [q|]; [|discriminate].
    destruct (add_var q (is_int v) (mbo s)) as [id o]. eauto.
Qed.

Lemma project_ret_true fuel mdl vars0 fmls0 result0 compute_def o :
  project eval is_extended_numeral mk_not true m_check_purified false
    mk_add_simplify safe_replace kernel_project kernel_live_rows
    fuel mdl vars0 fmls0 result0 compute_def = Ok o ->
  ret o = true.
Proof.
  intros H. unfold project in H.
  destruct (existsb is_arith vars0); cbn [negb] in H;
    [|inversion H; reflexivity].
  bind_inv H. destruct a as [j s1]. cbv beta iota in H.
  bind_inv H. destruct a as [s2|];
    [|exfalso; exact (add_vars_inc _ _ _ Ha0 eq_refl)].
  bind_inv H. destruct a as [real_vars vars1]. cbv beta iota in H.
  unfold mbo_project in H. cbv beta iota in H.
  bind_inv H. bind_inv H. inversion H; reflexivity.
Qed.

(** X8. What [project] hands back.  Whatever it returns, [project]
    leaves in [vars] a sub-list of the input, in order, that holds
    every variable that is not arithmetic.  As long as the host does
    not cancel and [m_apply_projection] is clear, a call that returns
    at all returns true: the literals it cannot linearize and the
    variables it cannot eliminate are handed back, not reported.  With
    [m_check_purified] set, after a call that returns true on a list
    with an arithmetic variable, every variable that occurs in a
    literal the linearizer refused is kept: only variables that are
    gone from the residue are eliminated. *)
Theorem project_variables fuel mdl vars0 fmls0 result0 compute_def o :
  imp_project fuel mdl vars0 fmls0 result0 compute_def = Ok o ->
  subseq (out_vars o) vars0 /\
  (forall v, In v vars0 -> is_arith v = false -> In v (out_vars o)) /\
  (m_inc = true -> m_apply_projection = false -> ret o = true) /\
  (m_check_purified = true -> m_apply_projection = false ->
   existsb is_arith vars0 = true -> ret o = true ->
   exists residue s1 lits,
     scan eval is_extended_numeral mk_not m_inc fmls0
       (mk_lin_state mbo_empty (mk_evaluator (set_inline mdl) true) fmls0 [])
       residue s1 /\
     out_fmls o = residue ++ lits /\
     forall v f, In v vars0 -> In f residue -> occurs v f = true ->
                 In v (out_vars o)).
Proof.
  intros H. destruct (project_vars_inv _ _ _ _ _ _ _ H) as [Hs [Hn Hr]].
  split; [exact Hs|]. split; [exact Hn|]. split; [|exact Hr].
  intros Hinc Hap. revert H. rewrite Hinc, Hap. apply project_ret_true.
Qed.

Lemma linearize_loop_cancelled fuel : forall i s,
  (length (fmls s) <= i + fuel)%nat ->
  linearize_loop eval is_extended_numeral mk_not false fuel i i s =
  Ok (Nat.max i (length (fmls s)), s).
Proof.
  induction fuel as [|fuel IH]; intros i s Hlen; cbn [linearize_loop];
    destruct (nth_error (fmls s) i) as [fml|] eqn:Hi.
  - assert (i < length (fmls s))%nat by (apply nth_error_Some; congruence).
    lia.
  - apply nth_error_None in Hi. rewrite Nat.max_l by lia. reflexivity.
  - assert (Hlt : (i < length (fmls s))%nat)
      by (apply nth_error_Some; congruence).
    cbn [linearize negb bind]. rewrite (set_nth_same _ _ _ Hi).
    replace (set_fmls s (fmls s)) with s by (destruct s; reflexivity).
    rewrite IH by lia. f_equal. f_equal. lia.
  - apply nth_error_None in Hi. rewrite Nat.max_l by lia. reflexivity.
Qed.

Lemma add_vars_cancelled vs : forall s,
  existsb is_arith vs = true -> tids s = [] ->
  add_vars eval false vs s = Ok None.
Proof.
  induction vs as [|v vs IH]; simpl; intros s H Ht; [discriminate|].
  rewrite Ht. simpl. destruct (is_arith v); simpl in *; [reflexivity|].
  apply IH; assumption.
Qed.

(** X9. A cancelled call.  When the host has cancelled ([m.inc()] is
    false) and the list holds an arithmetic variable, [project] returns
    false; nothing reaches the kernel, and the variables, the literals
    and the definitions are handed back as they were (the model has
    been switched to inline mode). *)
Theorem project_cancelled fuel mdl vars0 fmls0 result0 compute_def :
  existsb is_arith vars0 = true ->
  (length fmls0 <= fuel)%nat ->
  project eval is_extended_numeral mk_not false m_check_purified
    m_apply_projection mk_add_simplify safe_replace kernel_project
    kernel_live_rows fuel mdl vars0 fmls0 result0 compute_def =
  Ok (mk_project_out false (set_inline mdl) vars0 fmls0 result0).
Proof.
  intros Harith Hfuel. unfold project. rewrite Harith. cbn [negb].
  rewrite linearize_loop_cancelled by (simpl; lia).
  cbn [bind fmls]. rewrite Nat.max_r by lia. rewrite firstn_all.
  rewrite add_vars_cancelled by (auto; reflexivity).
  reflexivity.
Qed.

Lemma linearize_loop_errors fuel : forall i j s e,
  linearize_loop eval is_extended_numeral mk_not m_inc fuel i j s = Err e ->
  term_error e \/ e = null_deref \/ e = out_of_fuel.
Proof.
  induction fuel as [|fuel IH]; intros i j s e H; cbn [linearize_loop] in H;
    destruct (nth_error (fmls s) i) as [fml|]; try discriminate.
  - inversion H; auto.
  - apply bind_Err in H. destruct H as [H|[[b s1] [_ H]]].
    + apply linearize_errors in H. tauto.
    + cbv beta iota in H. destruct b; eapply IH; eauto.
Qed.

Lemma add_vars_errors vs : forall s e,
  add_vars eval m_inc vs s = Err e ->
  e = default_exception "evaluation did not produce a numeral".
Proof.
  induction vs as [|v vs IH]; simpl; intros s e H; [discriminate|].
  destruct (is_arith v && negb (contains (tids s) v)); [|eauto].
  destruct (negb m_inc); [discriminate|].
  destruct (is_numeral (eval (ev s) v)) as [q|];
    [|inversion H; reflexivity].
  destruct (add_var q (is_int v) (mbo s)) as [id o]. eauto.
Qed.

Lemma split_vars_errors roots t vs : forall e,
  split_vars roots t vs = Err e -> e = null_deref.
Proof.
  induction vs as [|v vs IH]; cbn [split_vars]; intros e H; [discriminate|].
  destruct (is_arith v && negb (fmls_marked roots v)).
  - destruct (find t v); [|inversion H; reflexivity].
    apply bind_Err in H. destruct H as [H|[[rv k] [_ H]]]; [auto|discriminate].
  - apply bind_Err in H. destruct H as [H|[[rv k] [_ H]]]; [auto|discriminate].
Qed.

Lemma index_errors index2expr id e :
  index index2expr id = Err e -> e = null_deref.
Proof.
  unfold index. destruct (nth_error index2expr id) as [[x|]|];
    intros H; inversion H; reflexivity.
Qed.

Lemma row2expr_errors fuel : forall def_vars index2expr r e,
  row2expr mk_add_simplify fuel def_vars index2expr r = Err e ->
  e = null_deref \/ e = out_of_fuel.
Proof.
  induction fuel as [|fuel IH]; intros def_vars index2expr r e H;
    [inversion H; auto|].
  cbn [row2expr] in H. apply bind_Err in H. destruct H as [H|[ts [_ H]]].
  - revert H. generalize (@nil expr).
    induction (Row.m_vars r) as [|v rest IHv]; intros ts H; [discriminate|].
    apply bind_Err in H. destruct H as [H|[t [_ H]]].
    + destruct (find_def def_vars (Var.m_id v)); [eauto|].
      left. eapply index_errors; eauto.
    + eauto.
  - destruct (Row.m_type r); try discriminate; destruct ts; discriminate.
Qed.

Lemma id2expr_errors fuel def_vars index2expr id e :
  id2expr mk_add_simplify fuel def_vars index2expr id = Err e ->
  e = null_deref \/ e = out_of_fuel.
Proof.
  unfold id2expr. destruct (find_def def_vars id).
  - apply row2expr_errors.
  - intros H. left. eapply index_errors; eauto.
Qed.

Lemma reify_row_errors fuel def_vars index2expr r e :
  reified r = true ->
  reify_row mk_add_simplify fuel def_vars index2expr r = Err e ->
  e = null_deref \/ e = out_of_fuel.
Proof.
  unfold reify_row, reified, sign_normalized, row2fml_neg, row2fml, is_def_row.
  intros Hr H.
  destruct (Row.m_vars r) as [|v [|v' vs]] eqn:Hv; [discriminate| |].
  - destruct (is_neg (Var.m_coeff v) &&
              match Row.m_type r with
              | t_eq | t_lt | t_le => true
              | _ => false
              end) eqn:Hg.
    + apply bind_Err in H. destruct H as [H|[t [_ H]]].
      * eapply id2expr_errors; eauto.
      * apply andb_true_iff in Hg. destruct Hg as [_ Hg].
        destruct (Row.m_type r); discriminate.
    + apply bind_Err in H. destruct H as [H|[t [_ H]]].
      * eapply row2expr_errors; eauto.
      * destruct (Row.m_type r); discriminate.
  - apply bind_Err in H. destruct H as [H|[t [_ H]]].
    + eapply row2expr_errors; eauto.
    + destruct (Row.m_type r); discriminate.
Qed.

Lemma rows2fmls_errors fuel def_vars index2expr rows : forall fmls0 e,
  rows2fmls mk_add_simplify fuel def_vars rows index2expr fmls0 = Err e ->
  e = null_deref \/ e = out_of_fuel.
Proof.
  induction rows as [|r rows IH]; cbn [rows2fmls]; intros fmls0 e H;
    [discriminate|].
  destruct (reified r) eqn:Hr; cbn [negb] in H; [|eauto].
  apply bind_Err in H. destruct H as [H|[t [_ H]]]; [|eauto].
  eapply reify_row_errors; eauto.
Qed.

Lemma from_def_errors fuel def_vars index2expr is_int0 d : forall e,
  from_def mk_add_simplify fuel def_vars d is_int0 index2expr = Err e ->
  e = null_deref \/ e = out_of_fuel.
Proof.
  induction d; cbn [from_def]; intros e H.
  - apply bind_Err in H. destruct H as [H|[tx [_ H]]]; [eauto|].
    apply bind_Err in H. destruct H as [H|[ty [_ H]]]; [eauto|discriminate].
  - apply bind_Err in H. destruct H as [H|[tx [_ H]]]; [eauto|].
    apply bind_Err in H. destruct H as [H|[ty [_ H]]]; [eauto|discriminate].
  - discriminate.
  - apply bind_Err in H. destruct H as [H|[t [_ H]]].
    + eapply id2expr_errors; eauto.
    + destruct (negb (is_one (Var.m_coeff v))); discriminate.
  - apply bind_Err in H. destruct H as [H|[t [_ H]]]; [eauto|].
    destruct is_int0; discriminate.
Qed.

Lemma optdefs2mbpdef_errors fuel def_vars index2expr defs :
  forall real_vars result0 e,
  optdefs2mbpdef mk_add_simplify fuel def_vars defs index2expr real_vars
    result0 = Err e ->
  e = null_deref \/ e = out_of_fuel.
Proof.
  induction defs as [|d defs IH]; cbn [optdefs2mbpdef];
    intros real_vars result0 e H; [discriminate|].
  destruct real_vars as [|id real_vars]; [inversion H; auto|].
  apply bind_Err in H. destruct H as [H|[x [_ H]]].
  { left. eapply index_errors; eauto. }
  apply bind_Err in H. destruct H as [H|[d' [_ H]]].
  { destruct d; inversion H; auto. }
  apply bind_Err in H. destruct H as [H|[t [_ H]]]; [|eauto].
  eapply from_def_errors; eauto.
Qed.

(** X10. The exceptions of [project].  [project] raises nothing but the
    two exceptions of the linearizer and "evaluation did not produce a
    numeral"; the two [UNREACHABLE()] of [rows2fmls] are never reached.
    (It can still fail on a read that the source does not check, and
    the embedding can run out of fuel.) *)
Theorem project_exceptions fuel mdl vars0 fmls0 result0 compute_def e :
  imp_project fuel mdl vars0 fmls0 result0 compute_def = Err e ->
  term_error e \/
  e = default_exception "evaluation did not produce a numeral" \/
  e = null_deref \/ e = out_of_fuel.
Proof.
  intros H. unfold project in H.
  destruct (existsb is_arith vars0); cbn [negb] in H; [|discriminate].
  apply bind_Err in H. destruct H as [H|[[j s1] [_ H]]].
  { apply linearize_loop_errors in H. tauto. }
  cbv beta iota in H.
  apply bind_Err in H. destruct H as [H|[r [_ H]]].
  { apply add_vars_errors in H. tauto. }
  destruct r as [s2|]; [|discriminate].
  apply bind_Err in H. destruct H as [H|[[real_vars vars1] [_ H]]].
  { apply split_vars_errors in H. tauto. }
  cbv beta iota in H. unfold mbo_project in H. cbv beta iota in H.
  apply bind_Err in H. destruct H as [H|[fmls1 [_ H]]].
  { apply rows2fmls_errors in H. tauto. }
  apply bind_Err in H. destruct H as [H|[result1 [_ H]]].
  { destruct (compute_def || m_apply_projection); [|discriminate].
    apply optdefs2mbpdef_errors in H. tauto. }
  destruct m_apply_projection; [|discriminate].
  destruct (apply_projection _ _ _ _ _); discriminate.
Qed.

End ProjectFacts.

(** ** The keys of [tids] are sub-terms *)

Lemma occurs_args e l :
  (fix any (l : list expr) : bool :=
     match l with
     | [] => false
     | x :: r => occurs e x || any r
     end) l = existsb (occurs e) l.
Proof. induction l as [|x l IH]; simpl; [reflexivity|]. rewrite IH. reflexivity. Qed.

Lemma occurs_refl t : occurs t t = true.
Proof. destruct t; cbn [occurs]; rewrite expr_eqb_refl; reflexivity. Qed.

Lemma weight_App f r args : weight (App f r args) = S (2 * total_weight args).
Proof. reflexivity. Qed.

Lemma weight_Mul args : weight (Mul args) = S (2 * total_weight args).
Proof. reflexivity. Qed.

Lemma weight_Sub args : weight (Sub args) = S (2 * total_weight args).
Proof. reflexivity. Qed.

Lemma occurs_weight t : forall k, occurs k t = true -> (weight k <= weight t)%nat.
Proof.
  induction t using expr_nested_ind; intros k Hk; cbn [occurs] in Hk;
    apply orb_true_iff in Hk; destruct Hk as [Hk|Hk];
    try (apply expr_eqb_eq in Hk; subst k; apply Nat.le_refl);
    try discriminate;
    try (rewrite occurs_args in Hk; apply existsb_exists in Hk;
         destruct Hk as [x [Hin Hx]];
         match goal with
         | HF : Forall _ ?args |- _ =>
             rewrite Forall_forall in HF; specialize (HF x Hin k Hx);
             pose proof (total_weight_in x args Hin)
         end;
         first [rewrite weight_App | rewrite weight_Add | rewrite weight_Mul
               | rewrite weight_Sub | rewrite weight_Distinct
               | rewrite weight_And | rewrite weight_Or]; lia);
    repeat match goal with
           | H : _ || _ = true |- _ =>
               apply orb_true_iff in H; destruct H as [H|H]
           end;
    match goal with
    | IH : forall k, occurs k ?x = true -> _, H : occurs _ ?x = true |- _ =>
        specialize (IH _ H); cbn [weight]; lia
    end.
Qed.

Lemma occurs_child_args k x args :
  In x args -> occurs k x = true -> existsb (occurs k) args = true.
Proof. intros Hin Hx. apply existsb_exists. eauto. Qed.

Lemma contains_insert_mul ts t mul k :
  contains (insert_mul t mul ts) k = expr_eqb k t || contains ts k.
Proof.
  unfold insert_mul. destruct (find ts t); apply contains_insert.
Qed.

Section SubtermKeys.

Variable eval : model_evaluator -> expr -> expr.
Variable is_extended_numeral : expr -> option Q.
Variable mk_not : expr -> expr.

Local Notation lin_id := (id_of eval).
Local Notation lin_extract_loop := (extract_loop eval).
Local Notation lin_extract := (extract_coefficients eval).
Local Notation lin_term := (linearize_term eval is_extended_numeral mk_not).

Lemma id_of_keys v s id s' k :
  lin_id v s = Ok (id, s') ->
  contains (tids s') k = true -> contains (tids s) k = true \/ k = v.
Proof.
  unfold id_of. destruct (find (tids s) v).
  - intros H; inversion H; subst; auto.
  - destruct (is_numeral (eval (ev s) v)) as [r|]; [|discriminate].
    unfold add_var. intros H Hc. inversion H; subst.
    cbn [tids set_tids] in Hc. rewrite contains_insert in Hc.
    apply orb_true_iff in Hc. destruct Hc as [Hc|Hc]; auto.
    right. apply expr_eqb_eq. exact Hc.
Qed.

Lemma extract_loop_keys ts : forall coeffs s coeffs' s' k,
  lin_extract_loop ts coeffs s = Ok (coeffs', s') ->
  contains (tids s') k = true ->
  contains (tids s) k = true \/ In k (map fst ts).
Proof.
  induction ts as [|[v q] ts IH]; cbn [extract_loop];
    intros coeffs s coeffs' s' k H Hc.
  - inversion H; subst; auto.
  - bind_inv H. destruct a as [id s1]. cbv beta iota in H.
    destruct (IH _ _ _ _ _ H Hc) as [Hc1|Hin]; [|right; right; exact Hin].
    destruct (id_of_keys _ _ _ _ _ Ha Hc1) as [Hc0| ->]; auto.
    right. left. reflexivity.
Qed.

Lemma extract_coefficients_keys ts s coeffs s' k :
  lin_extract ts s = Ok (coeffs, s') ->
  contains (tids s') k = true ->
  contains (tids s) k = true \/ In k (map fst ts).
Proof.
  unfold extract_coefficients. intros H Hc.
  apply (extract_loop_keys _ _ _ _ _ _ H Hc).
Qed.

Lemma contains_keys {V} (m : obj_map V) k :
  In k (map fst m) -> contains m k = true.
Proof.
  unfold contains. intros H. destruct (find m k) eqn:Hf; [reflexivity|].
  exfalso. exact (find_none_keys _ _ Hf H).
Qed.

(** What the term linearizer adds to [tids] and to the coefficient map
    are sub-terms of the term. *)
Lemma linearize_term_keys t mul a a' :
  lin_term t mul a = Ok a' ->
  (forall k, contains (tids (acc_st a')) k = true ->
             contains (tids (acc_st a)) k = true \/ occurs k t = true) /\
  (forall k, contains (acc_ts a') k = true ->
             contains (acc_ts a) k = true \/ occurs k t = true).
Proof.
  revert t mul a a'.
  apply (linearize_term_ok_ind eval is_extended_numeral mk_not
           (fun t mul a a' =>
              (forall k, contains (tids (acc_st a')) k = true ->
                         contains (tids (acc_st a)) k = true \/
                         occurs k t = true) /\
              (forall k, contains (acc_ts a') k = true ->
                         contains (acc_ts a) k = true \/
                         occurs k t = true))).
  - (* opaque *)
    intros t mul a. split; [auto|]. intros k Hc. cbn [opaque acc_ts] in Hc.
    rewrite contains_insert_mul in Hc. apply orb_true_iff in Hc.
    destruct Hc as [Hc|Hc]; auto.
    apply expr_eqb_eq in Hc. subst. right. apply occurs_refl.
  - intros t1 t2 mul1 mul a a' _ _ _ [I1 I2].
    split; intros k Hc; [destruct (I1 k Hc)|destruct (I2 k Hc)]; auto;
      right; cbn [occurs]; rewrite H; rewrite !orb_true_r; reflexivity.
  - intros t1 t2 mul1 mul a a' _ _ _ _ [I1 I2].
    split; intros k Hc; [destruct (I1 k Hc)|destruct (I2 k Hc)]; auto;
      right; cbn [occurs]; rewrite H; rewrite !orb_true_r; reflexivity.
  - intros t1 mul a a' _ _ [I1 I2].
    split; intros k Hc; [destruct (I1 k Hc)|destruct (I2 k Hc)]; auto;
      right; cbn [occurs]; rewrite H; rewrite !orb_true_r; reflexivity.
  - intros mul1 i mul a _. split; auto.
  - (* addition *)
    intros args mul a a' _ Hch.
    assert (G : (forall k, contains (tids (acc_st a')) k = true ->
                           contains (tids (acc_st a)) k = true \/
                           existsb (occurs k) args = true) /\
                (forall k, contains (acc_ts a') k = true ->
                           contains (acc_ts a) k = true \/
                           existsb (occurs k) args = true)).
    { induction Hch as [a|arg r a a1 a' _ [I1 I2] _ [J1 J2]].
      - split; auto.
      - split; intros k Hc.
        + destruct (J1 k Hc) as [Hc1|Ho];
            [|right; simpl; rewrite Ho; apply orb_true_r].
          destruct (I1 k Hc1) as [Hc0|Ho]; auto.
          right. simpl. rewrite Ho. reflexivity.
        + destruct (J2 k Hc) as [Hc1|Ho];
            [|right; simpl; rewrite Ho; apply orb_true_r].
          destruct (I2 k Hc1) as [Hc0|Ho]; auto.
          right. simpl. rewrite Ho. reflexivity. }
    destruct G as [G1 G2].
    split; intros k Hc; [destruct (G1 k Hc)|destruct (G2 k Hc)]; auto;
      right; cbn [occurs]; rewrite occurs_args, H; apply orb_true_r.
  - (* subtraction *)
    intros t1 t2 mul a a1 a' _ _ [I1 I2] _ [J1 J2].
    split; intros k Hc.
    + destruct (J1 k Hc) as [Hc1|Ho].
      * destruct (I1 k Hc1) as [Hc0|Ho]; auto.
        right. cbn [occurs]. rewrite Ho. rewrite !orb_true_r. reflexivity.
      * right. cbn [occurs]. rewrite Ho. rewrite !orb_true_r. reflexivity.
    + destruct (J2 k Hc) as [Hc1|Ho].
      * destruct (I2 k Hc1) as [Hc0|Ho]; auto.
        right. cbn [occurs]. rewrite Ho. rewrite !orb_true_r. reflexivity.
      * right. cbn [occurs]. rewrite Ho. rewrite !orb_true_r. reflexivity.
  - (* ite, true *)
    intros t1 t2 t3 mul a a1 _ _ _ [I1 I2]. cbn [acc_st acc_ts].
    split; intros k Hc; [destruct (I1 k Hc)|destruct (I2 k Hc)]; auto;
      right; cbn [occurs]; rewrite H; rewrite !orb_true_r; reflexivity.
  - (* ite, false *)
    intros t1 t2 t3 mul a a' _ _ _ _ [I1 I2]. cbn [acc_st acc_ts] in *.
    split; intros k Hc; [destruct (I1 k Hc)|destruct (I2 k Hc)]; auto;
      right; cbn [occurs]; rewrite H; rewrite !orb_true_r; reflexivity.
  - (* mod *)
    intros t1 t2 mul1 mul a a0 coeffs s1 _ _ _ [I1 I2] Hx.
    cbn [acc_st acc_ts] in *. split; intros k Hc.
    + unfold add_mod, add_var in Hc. cbn [tids set_tids fst] in Hc.
      rewrite contains_insert in Hc. apply orb_true_iff in Hc.
      destruct Hc as [Hc|Hc].
      { apply expr_eqb_eq in Hc. subst. right. apply occurs_refl. }
      destruct (extract_coefficients_keys _ _ _ _ _ Hx Hc) as [Hc0|Hin].
      * destruct (I1 k Hc0) as [?|Ho]; auto.
        right. cbn [occurs]. rewrite Ho. rewrite !orb_true_r. reflexivity.
      * destruct (I2 k (contains_keys _ _ Hin)) as [?|Ho]; [discriminate|].
        right. cbn [occurs]. rewrite Ho. rewrite !orb_true_r. reflexivity.
    + rewrite contains_insert_mul in Hc. apply orb_true_iff in Hc.
      destruct Hc as [Hc|Hc]; auto.
      apply expr_eqb_eq in Hc. subst. right. apply occurs_refl.
  - (* div *)
    intros t1 t2 mul1 mul a a0 coeffs s1 _ _ _ [I1 I2] Hx.
    cbn [acc_st acc_ts] in *. split; intros k Hc.
    + unfold add_div, add_var in Hc. cbn [tids set_tids fst] in Hc.
      rewrite contains_insert in Hc. apply orb_true_iff in Hc.
      destruct Hc as [Hc|Hc].
      { apply expr_eqb_eq in Hc. subst. right. apply occurs_refl. }
      destruct (extract_coefficients_keys _ _ _ _ _ Hx Hc) as [Hc0|Hin].
      * destruct (I1 k Hc0) as [?|Ho]; auto.
        right. cbn [occurs]. rewrite Ho. rewrite !orb_true_r. reflexivity.
      * destruct (I2 k (contains_keys _ _ Hin)) as [?|Ho]; [discriminate|].
        right. cbn [occurs]. rewrite Ho. rewrite !orb_true_r. reflexivity.
    + rewrite contains_insert_mul in Hc. apply orb_true_iff in Hc.
      destruct Hc as [Hc|Hc]; auto.
      apply expr_eqb_eq in Hc. subst. right. apply occurs_refl.
Qed.

(** When a mod or div term gets its variable, the term has none yet. *)
Lemma def_key_fresh t t1 a a0 coeffs s1 :
  contains (tids (acc_st a)) t = false ->
  (weight t1 < weight t)%nat ->
  lin_term t1 1 (mk_acc 0 [] (acc_st a)) = Ok a0 ->
  lin_extract (acc_ts a0) (acc_st a0) = Ok (coeffs, s1) ->
  find (tids s1) t = None.
Proof.
  intros Hc Hw H0 Hx. apply contains_false_find.
  destruct (contains (tids s1) t) eqn:E; [|reflexivity]. exfalso.
  destruct (linearize_term_keys _ _ _ _ H0) as [I1 I2].
  cbn [acc_st acc_ts] in I1, I2.
  assert (Ho : occurs t t1 = true).
  { destruct (extract_coefficients_keys _ _ _ _ _ Hx E) as [Hc0|Hin].
    - destruct (I1 t Hc0) as [?|Ho]; [congruence|exact Ho].
    - destruct (I2 t (contains_keys _ _ Hin)) as [?|Ho];
        [discriminate|exact Ho]. }
  apply occurs_weight in Ho. lia.
Qed.

End SubtermKeys.

(** ** Invariants of the linearization state *)

Section StateInvariant.

Variable eval : model_evaluator -> expr -> expr.
Variable is_extended_numeral : expr -> option Q.
Variable mk_not : expr -> expr.
Variable m_inc : bool.

(** A property of the state that allocating a variable for an
    expression that has none, recording a call, changing the side
    formulas and changing the evaluator all keep. *)
Variable Inv : lin_state -> Prop.
Hypothesis Inv_alloc : forall s v r b,
  Inv s -> find (tids s) v = None ->
  Inv (set_tids (set_mbo s (snd (add_var r b (mbo s))))
         (insert v (length (m_var2value (mbo s))) (tids s))).
Hypothesis Inv_call : forall s k,
  Inv s -> Inv (set_mbo s (record_call k (mbo s))).
Hypothesis Inv_fmls : forall s l, Inv s -> Inv (set_fmls s l).
Hypothesis Inv_ev : forall s e, Inv s -> Inv (set_ev s e).

Local Notation lin_id := (id_of eval).
Local Notation lin_extract_loop := (extract_loop eval).
Local Notation lin_extract := (extract_coefficients eval).
Local Notation lin_term := (linearize_term eval is_extended_numeral mk_not).
Local Notation lin_lit := (linearize eval is_extended_numeral mk_not m_inc).

Lemma id_of_inv v s id s' : lin_id v s = Ok (id, s') -> Inv s -> Inv s'.
Proof.
  unfold id_of. destruct (find (tids s) v) eqn:Hf.
  - intros H; inversion H; subst; auto.
  - destruct (is_numeral (eval (ev s) v)) as [r|]; [|discriminate].
    intros H Hi. inversion H; subst.
    apply (Inv_alloc s v r (is_int v) Hi Hf).
Qed.

Lemma extract_loop_inv ts : forall coeffs s coeffs' s',
  lin_extract_loop ts coeffs s = Ok (coeffs', s') -> Inv s -> Inv s'.
Proof.
  induction ts as [|[v q] ts IH]; cbn [extract_loop];
    intros coeffs s coeffs' s' H Hi.
  - inversion H; subst; exact Hi.
  - bind_inv H. destruct a as [id s1]. cbv beta iota in H.
    eapply IH; [exact H|]. eapply id_of_inv; eauto.
Qed.

Lemma extract_coefficients_inv ts s coeffs s' :
  lin_extract ts s = Ok (coeffs, s') -> Inv s -> Inv s'.
Proof.
  unfold extract_coefficients. intros H Hi.
  eapply extract_loop_inv; [exact H|]. apply Inv_ev. exact Hi.
Qed.

Lemma def_inv s k value t :
  Inv s -> find (tids s) t = None ->
  Inv (set_tids
         (set_mbo s (record_call k (snd (add_var value true (mbo s)))))
         (insert t (length (m_var2value (mbo s))) (tids s))).
Proof.
  intros Hi Hf.
  exact (Inv_call _ k (Inv_alloc s t value true Hi Hf)).
Qed.

Lemma linearize_term_inv t mul a a' :
  lin_term t mul a = Ok a' -> Inv (acc_st a) -> Inv (acc_st a').
Proof.
  revert t mul a a'.
  apply (linearize_term_ok_ind eval is_extended_numeral mk_not
           (fun t mul a a' => Inv (acc_st a) -> Inv (acc_st a'))); auto.
  - intros args mul a a' _ Hch. induction Hch; auto.
  - intros t1 t2 t3 mul a a1 _ _ _ IH Hi. cbn [acc_st].
    apply Inv_fmls. auto.
  - intros t1 t2 t3 mul a a' _ _ _ _ IH Hi. apply IH. cbn [acc_st].
    apply Inv_fmls. exact Hi.
  - intros t1 t2 mul1 mul a a0 coeffs s1 Hc _ H0 IH Hx Hi.
    cbn [acc_st]. apply def_inv.
    + eapply extract_coefficients_inv; eauto.
    + apply (def_key_fresh eval is_extended_numeral mk_not _ t1 a a0 coeffs);
        auto. cbn [weight]. lia.
  - intros t1 t2 mul1 mul a a0 coeffs s1 Hc _ H0 IH Hx Hi.
    cbn [acc_st]. apply def_inv.
    + eapply extract_coefficients_inv; eauto.
    + apply (def_key_fresh eval is_extended_numeral mk_not _ t1 a a0 coeffs);
        auto. cbn [weight]. lia.
Qed.

Lemma submit_state_inv ty a b s' :
  submit eval ty a = Ok (b, s') -> Inv (acc_st a) -> Inv s'.
Proof.
  intros H Hi. apply submit_inv in H. destruct H as [coeffs [s1 [Hx [_ ->]]]].
  apply Inv_call. eapply extract_coefficients_inv; eauto.
Qed.

Lemma diff_submit_inv mul e1 e2 ty s b s' :
  (a <- linearize_diff eval is_extended_numeral mk_not mul e1 e2 s ;;
   submit eval ty a) = Ok (b, s') -> Inv s -> Inv s'.
Proof.
  intros H Hi. bind_inv H. unfold linearize_diff in Ha. bind_inv Ha.
  eapply submit_state_inv; [exact H|].
  eapply linearize_term_inv; [exact Ha|].
  eapply linearize_term_inv; [exact Ha0|]. exact Hi.
Qed.

Lemma find_equal_inv mul args : forall values ty a r,
  find_equal eval is_extended_numeral mk_not mul args values ty a = Ok r ->
  Inv (acc_st a) ->
  match r with
  | None => True
  | Some (_, a') => Inv (acc_st a')
  end.
Proof.
  induction args as [|arg1 rest IH]; simpl; intros values ty a r H Hi.
  - inversion H; subst. exact Hi.
  - destruct (is_numeral (eval (ev (acc_st a)) arg1)) as [q|].
    + destruct (find_value values q) as [arg2|].
      * bind_inv H. bind_inv H. inversion H; subst.
        eapply linearize_term_inv; [exact Ha0|].
        eapply linearize_term_inv; [exact Ha|]. exact Hi.
      * eapply IH; eauto.
    + inversion H; subst. exact I.
Qed.

Lemma linearize_inv depth : forall lit s b s',
  lin_lit depth lit s = Ok (b, s') -> Inv s -> Inv s'.
Proof.
  induction depth as [|depth IH]; intros lit s b s' H Hi; [discriminate|].
  cbn [linearize] in H.
  destruct m_inc; cbn [negb] in H; [|inversion H; subst; exact Hi].
  set (is_not := match lit with Not _ => true | _ => false end) in H.
  set (atom := match lit with Not l => l | _ => lit end) in H.
  clearbody is_not atom.
  destruct atom; try (inversion H; subst; exact Hi);
    try (eapply diff_submit_inv; eassumption).
  - destruct (is_arith atom1); cbn [negb] in H;
      [|inversion H; subst; exact Hi].
    destruct is_not; cbn [negb] in H.
    + destruct (is_numeral (eval (ev s) atom1)) as [r1|];
        [|inversion H; subst; exact Hi].
      destruct (is_numeral (eval (ev s) atom2)) as [r2|];
        [|inversion H; subst; exact Hi].
      destruct (Qlt_bool r1 r2); eapply diff_submit_inv; eauto.
    + eapply diff_submit_inv; eauto.
  - destruct args as [|arg0 args]; [discriminate|].
    destruct (is_arith arg0); cbn [negb] in H;
      [|inversion H; subst; exact Hi].
    destruct is_not; cbn [negb] in H.
    + bind_inv H. apply find_equal_inv in Ha; [|exact Hi].
      destruct a as [[ty a']|].
      * eapply submit_state_inv; eauto.
      * inversion H; subst. exact Hi.
    + destruct (eval_nums eval (ev s) (arg0 :: args)) as [nums|];
        [|inversion H; subst; exact Hi].
      revert s H Hi. generalize (sort_second nums) as l.
      induction l as [|x r IHl]; intros s H Hi.
      * inversion H; subst. exact Hi.
      * destruct r as [|y r'].
        { inversion H; subst. exact Hi. }
        bind_inv H. destruct a as [b1 s1]. apply IH in Ha; [|exact Hi].
        cbv beta iota in H. destruct b1.
        { eapply IHl; eauto. }
        { inversion H; subst. exact Ha. }
  - destruct is_not; cbn [negb] in H.
    + destruct (first_with _ args); inversion H; subst; auto.
      unfold push_back. auto.
    + inversion H; subst. auto.
  - destruct is_not; cbn [negb] in H.
    + inversion H; subst. auto.
    + destruct (first_with _ args); inversion H; subst; auto.
      unfold push_back. auto.
Qed.

Lemma linearize_loop_inv fuel : forall i j s j' s',
  linearize_loop eval is_extended_numeral mk_not m_inc fuel i j s =
  Ok (j', s') -> Inv s -> Inv s'.
Proof.
  induction fuel as [|fuel IH]; intros i j s j' s' H Hi;
    cbn [linearize_loop] in H;
    destruct (nth_error (fmls s) i) as [fml|]; try discriminate;
    try (inversion H; subst; exact Hi).
  bind_inv H. destruct a as [b s1]. cbv beta iota in H.
  apply linearize_inv in Ha; [|exact Hi].
  destruct b; eapply IH; eauto.
Qed.

Lemma add_vars_inv vs : forall s s',
  add_vars eval m_inc vs s = Ok (Some s') -> Inv s -> Inv s'.
Proof.
  induction vs as [|v vs IH]; simpl; intros s s' H Hi.
  - inversion H; subst; exact Hi.
  - destruct (is_arith v && negb (contains (tids s) v)) eqn:E; [|eauto].
    destruct (negb m_inc); [discriminate|].
    destruct (is_numeral (eval (ev s) v)) as [r|]; [|discriminate].
    eapply IH; [exact H|]. apply (Inv_alloc s v r (is_int v) Hi).
    apply andb_true_iff in E. destruct E as [_ E].
    apply negb_true_iff in E. apply contains_false_find. exact E.
Qed.

Lemma linearize_each_inv lits : forall s s',
  linearize_each eval is_extended_numeral mk_not m_inc lits s = Ok s' ->
  Inv s -> Inv s'.
Proof.
  induction lits as [|fml rest IH]; cbn [linearize_each]; intros s s' H Hi.
  - inversion H; subst; exact Hi.
  - bind_inv H. destruct a as [b s1]. cbv beta iota in H.
    eapply IH; [exact H|]. eapply linearize_inv; eauto.
Qed.

End StateInvariant.

(** ** [index2expr] inverts [tids] *)

Lemma insert_fresh {V} (m : obj_map V) k v :
  find m k = None -> insert k v m = m ++ [(k, v)].
Proof.
  induction m as [|[k' v'] r IH]; simpl; intros H; [reflexivity|].
  destruct (expr_eqb k k'); [discriminate|]. rewrite IH by exact H.
  reflexivity.
Qed.

Lemma tids_wf_alloc s v r b :
  tids_wf s -> find (tids s) v = None ->
  tids_wf (set_tids (set_mbo s (snd (add_var r b (mbo s))))
             (insert v (length (m_var2value (mbo s))) (tids s))).
Proof.
  intros [Hnd Hids] Hf. unfold tids_wf.
  cbn [tids set_tids mbo set_mbo add_var snd m_var2value].
  rewrite (insert_fresh _ _ _ Hf), map_app, length_app. simpl. split.
  - apply NoDup_app; [exact Hnd|repeat constructor; intros []|].
    intros id Hin [<-|[]]. apply Hids in Hin. lia.
  - intros id. rewrite in_app_iff, Hids. simpl. lia.
Qed.

Lemma find_In {V} (m : obj_map V) k v : find m k = Some v -> In (k, v) m.
Proof.
  induction m as [|[k' v'] r IH]; simpl; intros H; [discriminate|].
  destruct (expr_eqb k k') eqn:E.
  - apply expr_eqb_eq in E. inversion H; subst. left; reflexivity.
  - right. auto.
Qed.

Lemma index_setx (l : list (option expr)) : forall idx x i,
  index (setx l idx x) i = if Nat.eqb i idx then Ok x else index l i.
Proof.
  unfold index.
  induction l as [|y l IH]; intros idx x i.
  - revert i. induction idx as [|idx IHi]; intros [|i]; simpl; try reflexivity.
    + destruct i; reflexivity.
    + rewrite IHi. destruct (Nat.eqb i idx); [reflexivity|].
      destruct i; reflexivity.
  - destruct idx as [|idx], i as [|i]; simpl; try reflexivity.
    apply IH.
Qed.

Lemma index_fold_other (t : obj_map nat) : forall acc id,
  ~ In id (map snd t) ->
  index (fold_left (fun acc kv => setx acc (snd kv) (fst kv)) t acc) id =
  index acc id.
Proof.
  induction t as [|[k v] t IH]; simpl; intros acc id Hn; [reflexivity|].
  rewrite IH by tauto. rewrite index_setx.
  destruct (Nat.eqb id v) eqn:E; [|reflexivity].
  apply Nat.eqb_eq in E. subst. tauto.
Qed.

Lemma index_fold_in (t : obj_map nat) : forall acc e id,
  NoDup (map snd t) -> In (e, id) t ->
  index (fold_left (fun acc kv => setx acc (snd kv) (fst kv)) t acc) id =
  Ok e.
Proof.
  induction t as [|[k v] t IH]; simpl; intros acc e id Hnd Hin; [tauto|].
  inversion Hnd as [|? ? Hnotin Hnd']; subst.
  destruct Hin as [Heq|Hin].
  - inversion Heq; subst. rewrite index_fold_other by exact Hnotin.
    rewrite index_setx, Nat.eqb_refl. reflexivity.
  - apply IH; assumption.
Qed.

Lemma mk_index2expr_find (t : obj_map nat) e id :
  NoDup (map snd t) -> find t e = Some id ->
  index (mk_index2expr t) id = Ok e.
Proof.
  intros Hnd Hf. unfold mk_index2expr.
  apply index_fold_in; [exact Hnd|]. apply find_In. exact Hf.
Qed.

Section IndexFacts.

Variable eval : model_evaluator -> expr -> expr.
Variable is_extended_numeral : expr -> option Q.
Variable mk_not : expr -> expr.
Variable m_inc : bool.

Lemma project_state_wf fuel ev1 fmls0 j s vs l s2 :
  linearize_loop eval is_extended_numeral mk_not m_inc fuel 0 0
    (mk_lin_state mbo_empty ev1 fmls0 []) = Ok (j, s) ->
  add_vars eval m_inc vs (set_fmls s l) = Ok (Some s2) ->
  tids_wf s2.
Proof.
  intros Hloop Hadd.
  assert (Hinv : forall s k, tids_wf s -> tids_wf (set_mbo s (record_call k (mbo s))))
    by (intros ? ? H; exact H).
  assert (Hfm : forall s l, tids_wf s -> tids_wf (set_fmls s l))
    by (intros ? ? H; exact H).
  assert (Hev : forall s e, tids_wf s -> tids_wf (set_ev s e))
    by (intros ? ? H; exact H).
  eapply (add_vars_inv eval m_inc tids_wf tids_wf_alloc); [exact Hadd|].
  apply Hfm.
  eapply (linearize_loop_inv eval is_extended_numeral mk_not m_inc tids_wf
            tids_wf_alloc Hinv Hfm Hev); [exact Hloop|].
  split; simpl; [constructor|]. intros id. split; [intros []|lia].
Qed.

(** X11. [index2expr] inverts [tids].  In the state [project] has reached
    after the linearization loop and after giving every variable its
    kernel variable, [tids] hands out each kernel variable exactly
    once; so the vector [index2expr], built from [tids], maps the id of
    every expression back to that expression, two expressions never
    share a kernel variable, and no kernel variable is without an
    expression: [index2expr[id]] is not null for any variable the
    kernel has. *)
Theorem index2expr_inverts_tids fuel ev1 fmls0 j s vs l s2 :
  linearize_loop eval is_extended_numeral mk_not m_inc fuel 0 0
    (mk_lin_state mbo_empty ev1 fmls0 []) = Ok (j, s) ->
  add_vars eval m_inc vs (set_fmls s l) = Ok (Some s2) ->
  tids_wf s2 /\
  (forall e id, find (tids s2) e = Some id ->
                index (mk_index2expr (tids s2)) id = Ok e) /\
  (forall e1 e2 id, find (tids s2) e1 = Some id ->
                    find (tids s2) e2 = Some id -> e1 = e2) /\
  (forall id, (id < length (m_var2value (mbo s2)))%nat ->
              exists e, index (mk_index2expr (tids s2)) id = Ok e).
Proof.
  intros Hloop Hadd.
  pose proof (project_state_wf _ _ _ _ _ _ _ _ Hloop Hadd) as Hwf.
  split; [exact Hwf|]. destruct Hwf as [Hnd Hids]. split; [|split].
  - intros e id Hf. apply mk_index2expr_find; assumption.
  - intros e1 e2 id H1 H2.
    pose proof (mk_index2expr_find _ _ _ Hnd H1) as E1.
    pose proof (mk_index2expr_find _ _ _ Hnd H2) as E2.
    rewrite E1 in E2. inversion E2; reflexivity.
  - intros id Hlt. apply Hids in Hlt. apply in_map_iff in Hlt.
    destruct Hlt as [[e id'] [E Hin]]. simpl in E. subst id'.
    exists e. unfold mk_index2expr. apply index_fold_in; assumption.
Qed.


Lemma tids_le_alloc s0 s v r b :
  tids_le s0 s -> find (tids s) v = None ->
  tids_le s0 (set_tids (set_mbo s (snd (add_var r b (mbo s))))
                (insert v (length (m_var2value (mbo s))) (tids s))).
Proof.
  intros Hle Hf. eapply tids_le_trans; [exact Hle|].
  apply tids_le_insert. exact Hf.
Qed.

(** X12. [tids] only grows.  Nothing the linearizers do takes an
    expression out of [tids] or gives it another kernel variable: what
    [tids] maps before a call of the term linearizer, of the literal
    linearizer, of the linearization loop or of the loop over the
    variables, it maps to the same id after it.  In particular a mod
    or div term that gets its variable had none before. *)
Theorem tids_only_grows :
  (forall t mul a a',
      linearize_term eval is_extended_numeral mk_not t mul a = Ok a' ->
      tids_le (acc_st a) (acc_st a')) /\
  (forall depth lit s b s',
      linearize eval is_extended_numeral mk_not m_inc depth lit s =
      Ok (b, s') -> tids_le s s') /\
  (forall fuel i j s j' s',
      linearize_loop eval is_extended_numeral mk_not m_inc fuel i j s =
      Ok (j', s') -> tids_le s s') /\
  (forall vs s s',
      add_vars eval m_inc vs s = Ok (Some s') -> tids_le s s').
Proof.
  assert (A2 : forall s0 s k,
             tids_le s0 s -> tids_le s0 (set_mbo s (record_call k (mbo s))))
    by (intros ? ? ? H; exact H).
  assert (A3 : forall s0 s l, tids_le s0 s -> tids_le s0 (set_fmls s l))
    by (intros ? ? ? H; exact H).
  assert (A4 : forall s0 s e, tids_le s0 s -> tids_le s0 (set_ev s e))
    by (intros ? ? ? H; exact H).
  split; [|split; [|split]].
  - intros t mul a a' H.
    apply (linearize_term_inv eval is_extended_numeral mk_not
             (tids_le (acc_st a)) (tids_le_alloc _) (A2 _) (A3 _) (A4 _)
             _ _ _ _ H).
    apply tids_le_refl.
  - intros depth lit s b s' H.
    apply (linearize_inv eval is_extended_numeral mk_not m_inc
             (tids_le s) (tids_le_alloc _) (A2 _) (A3 _) (A4 _)
             _ _ _ _ _ H).
    apply tids_le_refl.
  - intros fuel i j s j' s' H.
    apply (linearize_loop_inv eval is_extended_numeral mk_not m_inc
             (tids_le s) (tids_le_alloc _) (A2 _) (A3 _) (A4 _)
             _ _ _ _ _ _ H).
    apply tids_le_refl.
  - intros vs s s' H.
    apply (add_vars_inv eval m_inc (tids_le s) (tids_le_alloc _)
             _ _ _ H).
    apply tids_le_refl.
Qed.

End IndexFacts.

(** ** The definitions [project] returns *)

Section ProjectDefs.

Variable eval : model_evaluator -> expr -> expr.
Variable is_extended_numeral : expr -> option Q.
Variable mk_not : expr -> expr.
Variable m_inc : bool.
Variable m_check_purified : bool.
Variable m_apply_projection : bool.
Variable mk_add_simplify : list expr -> expr.
Variable safe_replace : list (expr * expr) -> expr -> expr.
Variable kernel_project :
  model_based_opt -> list nat -> bool -> list (option opt_def).
Variable kernel_live_rows : model_based_opt -> list row.

Local Notation imp_project :=
  (project eval is_extended_numeral mk_not m_inc m_check_purified
     m_apply_projection mk_add_simplify safe_replace kernel_project
     kernel_live_rows).

Lemma add_vars_contains vs : forall s s',
  add_vars eval m_inc vs s = Ok (Some s') ->
  tids_le s s' /\
  forall v, In v vs -> is_arith v = true -> contains (tids s') v = true.
Proof.
  induction vs as [|v vs IH]; simpl; intros s s' H.
  - inversion H; subst. split; [apply tids_le_refl|]. intros v [].
  - destruct (is_arith v) eqn:Hav; cbn [andb] in H.
    + destruct (contains (tids s) v) eqn:Hc; cbn [negb] in H.
      * destruct (IH _ _ H) as [Hle Hin]. split; [exact Hle|].
        intros w [<-|Hw] Hw'; [|auto].
        unfold contains in *. destruct (find (tids s) v) eqn:Hf;
          [|discriminate].
        rewrite (Hle _ _ Hf). reflexivity.
      * destruct (negb m_inc); [discriminate|].
        destruct (is_numeral (eval (ev s) v)) as [r|]; [|discriminate].
        unfold add_var in H. destruct (IH _ _ H) as [Hle Hin].
        split.
        { eapply tids_le_trans; [|exact Hle].
          apply tids_le_insert. apply contains_false_find. exact Hc. }
        intros w [<-|Hw] Hw'; [|auto].
        unfold contains. rewrite (Hle v (length (m_var2value (mbo s))));
          [reflexivity|].
        cbn [tids set_tids]. apply find_insert_same.
    + destruct (IH _ _ H) as [Hle Hin]. split; [exact Hle|].
      intros w [<-|Hw] Hw'; [congruence|auto].
Qed.

Lemma split_vars_total roots t vs :
  (forall v, In v vs -> is_arith v = true -> contains t v = true) ->
  exists real_vars kept, split_vars roots t vs = Ok (real_vars, kept).
Proof.
  induction vs as [|v vs IH]; cbn [split_vars]; intros Hc.
  - eauto.
  - destruct IH as [rv [k Hs]]; [intros; apply Hc; simpl; auto|].
    rewrite Hs. cbn [bind].
    destruct (is_arith v && negb (fmls_marked roots v)) eqn:E; [|eauto].
    apply andb_true_iff in E. destruct E as [Ha _].
    specialize (Hc v (or_introl eq_refl) Ha). unfold contains in Hc.
    destruct (find t v); [eauto|discriminate].
Qed.

(** X13. The lookup at line 411 never misses.  When the loop over the
    variables has returned without cancellation, every arithmetic
    variable of the list has a kernel variable; so splitting the list
    into the variables to eliminate and the variables to keep reads no
    missing entry of [tids], whatever is marked. *)
Theorem project_lookup_total vs s s' roots :
  add_vars eval m_inc vs s = Ok (Some s') ->
  (forall v, In v vs -> is_arith v = true -> contains (tids s') v = true) /\
  exists real_vars kept,
    split_vars roots (tids s') vs = Ok (real_vars, kept) /\
    kept = filter (fun v => negb (is_arith v && negb (fmls_marked roots v)))
             vs /\
    Forall2 (fun v id => find (tids s') v = Some id)
      (filter (fun v => is_arith v && negb (fmls_marked roots v)) vs)
      real_vars.
Proof.
  intros H. destruct (add_vars_contains _ _ _ H) as [_ Hc].
  split; [exact Hc|].
  destruct (split_vars_total roots _ _ Hc) as [rv [k Hs]].
  exists rv, k. split; [exact Hs|].
  destruct (split_vars_inv _ _ _ _ _ Hs) as [_ [Hk Hr]]. auto.
Qed.

Lemma optdefs2mbpdef_inv fuel def_vars index2expr defs :
  forall real_vars result0 result1,
  optdefs2mbpdef mk_add_simplify fuel def_vars defs index2expr real_vars
    result0 = Ok result1 ->
  exists new,
    result1 = result0 ++ new /\
    Forall2 (fun id d => index index2expr id = Ok (def_var_ d))
      (firstn (length defs) real_vars) new.
Proof.
  induction defs as [|d defs IH]; cbn [optdefs2mbpdef];
    intros real_vars result0 result1 H.
  - inversion H; subst. exists []. rewrite app_nil_r. split; constructor.
  - destruct real_vars as [|id real_vars]; [discriminate|].
    bind_inv H. rename a into x. bind_inv H. bind_inv H. rename a0 into t.
    apply IH in H. destruct H as [new [-> Hn]].
    exists (mk_def x t :: new). rewrite <- app_assoc. split; [reflexivity|].
    simpl. constructor; auto.
Qed.

Lemma filter_all {A} (l : list A) : filter (fun _ => true) l = l.
Proof. induction l; simpl; congruence. Qed.

Lemma filter_none {A} (l : list A) : filter (fun _ => false) l = [].
Proof. induction l; simpl; congruence. Qed.

(** X14. The definitions name the eliminated variables.  [project] only
    appends to [defs]; without [compute_def] and [m_apply_projection]
    it appends nothing.  Otherwise, for a kernel that answers
    [project] with one definition per variable it was asked to
    eliminate, the definitions appended define exactly the variables
    that were removed from [vars], in the order of the input; the
    variables removed are arithmetic. *)
Theorem project_definitions fuel mdl vars0 fmls0 result0 compute_def o :
  (forall k ids b, length (kernel_project k ids b) = length ids) ->
  imp_project fuel mdl vars0 fmls0 result0 compute_def = Ok o ->
  exists new elim,
    out_defs o = result0 ++ new /\
    out_vars o = filter (fun v => negb (elim v)) vars0 /\
    (forall v, elim v = true -> is_arith v = true) /\
    (compute_def || m_apply_projection = true ->
     map def_var_ new = filter elim vars0) /\
    (compute_def || m_apply_projection = false -> new = []).
Proof.
  intros Hker H. unfold project in H.
  assert (Hnone : forall o,
             out_defs o = result0 -> out_vars o = vars0 ->
             exists new elim,
               out_defs o = result0 ++ new /\
               out_vars o = filter (fun v => negb (elim v)) vars0 /\
               (forall v, elim v = true -> is_arith v = true) /\
               (compute_def || m_apply_projection = true ->
                map def_var_ new = filter elim vars0) /\
               (compute_def || m_apply_projection = false -> new = [])).
  { intros o' Hd Hv. exists [], (fun _ => false).
    rewrite app_nil_r. split; [exact Hd|].
    split; [rewrite Hv; symmetry; apply filter_all|].
    split; [discriminate|]. split; [|reflexivity].
    intros _. rewrite filter_none. reflexivity. }
  destruct (existsb is_arith vars0); cbn [negb] in H.
  2:{ inversion H; subst. apply Hnone; reflexivity. }
  bind_inv H. destruct a as [j s1]. cbv beta iota in H.
  bind_inv H. destruct a as [s2|].
  2:{ inversion H; subst. apply Hnone; reflexivity. }
  pose proof (project_state_wf _ _ _ _ _ _ _ _ _ _ _ _ Ha Ha0) as [Hnd _].
  bind_inv H. destruct a as [real_vars vars1]. cbv beta iota in H.
  unfold mbo_project in H. cbv beta iota in H.
  bind_inv H. rename a into fmls1. bind_inv H. rename a into result1.
  destruct (split_vars_inv _ _ _ _ _ Ha1) as [_ [Hkept Hreal]].
  set (elim := fun v => is_arith v &&
                 negb (fmls_marked (mark_roots m_check_purified vars0 s2) v))
    in *.
  assert (Hout : out_defs o = result1 /\ out_vars o = vars1).
  { destruct m_apply_projection.
    - destruct (apply_projection _ _ _ _ _) as [ok fmls2].
      inversion H; split; reflexivity.
    - inversion H; split; reflexivity. }
  destruct Hout as [Hd Hv]. rewrite Hd, Hv.
  destruct (compute_def || m_apply_projection) eqn:Hcd.
  - apply optdefs2mbpdef_inv in Ha3. destruct Ha3 as [new [-> Hn]].
    exists new, elim. split; [reflexivity|]. split; [exact Hkept|].
    split; [intros v Hv'; apply andb_true_iff in Hv'; tauto|].
    split; [|discriminate]. intros _.
    rewrite Hker in Hn.
    rewrite firstn_all in Hn.
    clear - Hnd Hreal Hn. revert new Hn.
    induction Hreal as [|v id vs ids Hf _ IH]; intros new Hn;
      inversion Hn; subst; [reflexivity|].
    simpl. f_equal; [|apply IH; assumption].
    pose proof (mk_index2expr_find _ _ _ Hnd Hf) as E.
    match goal with H : index _ id = Ok _ |- _ => rewrite E in H;
      inversion H; reflexivity end.
  - injection Ha3 as <-. exists [], elim. rewrite app_nil_r.
    split; [reflexivity|]. split; [exact Hkept|].
    split; [intros v Hv'; apply andb_true_iff in Hv'; tauto|].
    split; [discriminate|reflexivity].
Qed.

End ProjectDefs.

(** ** The literal of a row *)

Lemma add_value_app rho ts x :
  term_value rho (Add (ts ++ [x])) ==
  term_value rho (Add ts) + term_value rho x.
Proof.
  cbn [term_value]. induction ts as [|t ts IH]; simpl.
  - ring.
  - rewrite IH. ring.
Qed.

Lemma scaled_value rho v t ts :
  term_value rho (Add (scaled v t ts)) ==
  term_value rho (Add ts) + Var.m_coeff v * term_value rho t.
Proof.
  unfold scaled. destruct (is_numeral t) as [n|] eqn:Hn.
  - destruct t; try discriminate. simpl in Hn. inversion Hn; subst n.
    destruct (is_zero v0) eqn:Hz.
    + apply Qeq_bool_iff in Hz. cbn [term_value]. rewrite Hz. ring.
    + rewrite add_value_app. reflexivity.
  - destruct (is_one (Var.m_coeff v)) eqn:Ho; cbn [negb];
      rewrite add_value_app.
    + apply Qeq_bool_iff in Ho. rewrite Ho. ring.
    + cbn [term_value]. ring.
Qed.

Section RowFacts.

Variable mk_add_simplify : list expr -> expr.
(** [mk_add_simplify] builds a term that has the value of the sum. *)
Hypothesis mk_add_value : forall rho ts,
  term_value rho (mk_add_simplify ts) == term_value rho (Add ts).

Lemma row2expr_loop_value fuel def_vars index2expr :
  forall vs xes ts,
  Forall2 (fun v xe =>
             id2expr mk_add_simplify fuel def_vars index2expr (Var.m_id v)
             = Ok xe) vs xes ->
  exists ts',
    (fix each (l : vars) (ts : list expr) : result (list expr) :=
       match l with
       | [] => Ok ts
       | v :: rest =>
           t <- match find_def def_vars (Var.m_id v) with
                | Some r' => row2expr mk_add_simplify fuel def_vars
                               index2expr r'
                | None => index index2expr (Var.m_id v)
                end ;;
           each rest (scaled v t ts)
       end) vs ts = Ok ts' /\
    forall rho, term_value rho (Add ts') ==
                term_value rho (Add ts) + row_value rho vs xes.
Proof.
  intros vs xes ts H. revert ts.
  induction H as [|v xe vs xes Hx _ IH]; intros ts.
  - exists ts. split; [reflexivity|]. intros rho. unfold row_value. simpl.
    ring.
  - unfold id2expr in Hx. rewrite Hx. cbn [bind].
    destruct (IH (scaled v xe ts)) as [ts' [Hts Hv]].
    exists ts'. split; [exact Hts|]. intros rho.
    rewrite Hv, scaled_value. unfold row_value. simpl. ring.
Qed.

(** X15. The literal of a row.  For a row with comparator [<=], [<] or
    [=] that is not sign-normalized, the reifier emits [t <= -k],
    [t < -k] or [t = -k], where [k] is the constant of the row and [t]
    the sum built from its variables; the literal holds exactly when
    the row does, for every value of the expressions the variables
    stand for. *)
Theorem row_literal fuel def_vars index2expr r xes :
  Forall2 (fun v xe =>
             id2expr mk_add_simplify fuel def_vars index2expr (Var.m_id v)
             = Ok xe) (Row.m_vars r) xes ->
  sign_normalized r = None ->
  Row.m_type r = t_le \/ Row.m_type r = t_lt \/ Row.m_type r = t_eq ->
  exists t,
    let s := Num (- Row.m_coeff r) (q_is_int (Row.m_coeff r) && is_int t) in
    reify_row mk_add_simplify (S fuel) def_vars index2expr r =
    Ok (match Row.m_type r with
        | t_le => Le t s
        | t_lt => Lt t s
        | _ => Eq t s
        end) /\
    forall rho,
      holds rho (match Row.m_type r with
                 | t_le => Le t s
                 | t_lt => Lt t s
                 | _ => Eq t s
                 end) <->
      row_holds (Row.m_type r) (row_value rho (Row.m_vars r) xes)
        (Row.m_coeff r).
Proof.
  intros Hx Hsn Hty.
  destruct (row2expr_loop_value fuel def_vars index2expr _ _ [] Hx)
    as [ts [Hts Hv]].
  exists (mk_add_simplify ts). cbv zeta. split.
  - unfold reify_row. rewrite Hsn. unfold row2fml. cbn [row2expr].
    rewrite Hts. cbn [bind].
    destruct Hty as [->|[->| ->]]; reflexivity.
  - intros rho.
    assert (E : term_value rho (mk_add_simplify ts) ==
                row_value rho (Row.m_vars r) xes).
    { rewrite mk_add_value, Hv. simpl. ring. }
    destruct Hty as [->|[->| ->]]; simpl; rewrite E;
      generalize (row_value rho (Row.m_vars r) xes); intros q;
      split; intros H; lra.
Qed.


(** X16. The term of a definition.  For a definition built without
    division whose variables all have an expression, [from_def]
    returns a term, and the value of that term is the value of the
    definition at the values of those expressions: sums, products,
    constants and scaled variables are translated one to one, the
    factor of a variable being left out when it is one. *)
Theorem from_def_value fuel def_vars index2expr is_int0 (xe : nat -> expr) d :
  div_free d = true ->
  (forall id, In id (def_ids d) ->
              id2expr mk_add_simplify fuel def_vars index2expr id =
              Ok (xe id)) ->
  exists t,
    from_def mk_add_simplify fuel def_vars d is_int0 index2expr = Ok t /\
    forall rho,
      term_value rho t ==
      def_value (fun id => term_value rho (xe id)) d.
Proof.
  induction d as [x IHx y IHy|x IHx y IHy|c|v|x IHx m]; cbn [div_free def_ids];
    intros Hd Hx; try discriminate.
  - apply andb_true_iff in Hd. destruct Hd as [Hdx Hdy].
    destruct (IHx Hdx) as [tx [Hfx Hvx]];
      [intros id Hin; apply Hx, in_or_app; auto|].
    destruct (IHy Hdy) as [ty [Hfy Hvy]];
      [intros id Hin; apply Hx, in_or_app; auto|].
    exists (Add [tx; ty]). cbn [from_def]. rewrite Hfx, Hfy.
    split; [reflexivity|]. intros rho. cbn [term_value def_value].
    rewrite Hvx, Hvy. ring.
  - apply andb_true_iff in Hd. destruct Hd as [Hdx Hdy].
    destruct (IHx Hdx) as [tx [Hfx Hvx]];
      [intros id Hin; apply Hx, in_or_app; auto|].
    destruct (IHy Hdy) as [ty [Hfy Hvy]];
      [intros id Hin; apply Hx, in_or_app; auto|].
    exists (Mul [tx; ty]). cbn [from_def]. rewrite Hfx, Hfy.
    split; [reflexivity|]. intros rho. cbn [term_value def_value].
    rewrite Hvx, Hvy. ring.
  - exists (Num c is_int0). split; [reflexivity|]. intros rho. reflexivity.
  - cbn [from_def]. rewrite (Hx _ (or_introl eq_refl)). cbn [bind].
    destruct (is_one (Var.m_coeff v)) eqn:Ho; cbn [negb].
    + exists (xe (Var.m_id v)). split; [reflexivity|]. intros rho.
      cbn [def_value]. apply Qeq_bool_iff in Ho. rewrite Ho. ring.
    + eexists. split; [reflexivity|]. intros rho.
      cbn [term_value def_value]. ring.
Qed.

End RowFacts.

(** ** [apply_projection] *)

Section ApplyProjection.

Variable eval : model_evaluator -> expr -> expr.
Variable safe_replace : list (expr * expr) -> expr -> expr.

Lemma subst_fmls_spec ev0 sub todo : forall done,
  let f := safe_replace sub in
  match subst_fmls eval safe_replace ev0 sub done todo with
  | (true, out) =>
      out = done ++ map f todo /\
      Forall (fun x => is_false (eval ev0 (f x)) = false) todo
  | (false, out) =>
      exists pre fml post,
        todo = pre ++ fml :: post /\
        out = done ++ map f pre ++ fml :: post /\
        is_false (eval ev0 (f fml)) = true /\
        Forall (fun x => is_false (eval ev0 (f x)) = false) pre
  end.
Proof.
  induction todo as [|fml rest IH]; intros done f; cbn [subst_fmls].
  - simpl. rewrite app_nil_r. split; constructor.
  - fold f. destruct (is_false (eval ev0 (f fml))) eqn:Hf.
    + exists [], fml, rest. simpl. repeat split; auto.
    + specialize (IH (done ++ [f fml])). cbv zeta in IH. fold f in IH.
      destruct (subst_fmls eval safe_replace ev0 sub (done ++ [f fml]) rest)
        as [[|] out].
      * destruct IH as [-> Hall]. rewrite <- app_assoc. simpl.
        split; [reflexivity|]. constructor; auto.
      * destruct IH as [pre [x [post [-> [-> [Hx Hall]]]]]].
        exists (fml :: pre), x, post. rewrite <- app_assoc. simpl.
        repeat split; auto.
Qed.

Lemma mk_subst_keys defs :
  map fst (mk_subst safe_replace defs) = rev (map def_var_ defs).
Proof.
  unfold mk_subst. rewrite <- map_rev.
  assert (G : forall l acc,
             map fst (fold_left
                        (fun sub d =>
                           sub ++ [(def_var_ d, safe_replace sub (def_term d))])
                        l acc) = map fst acc ++ map def_var_ l).
  { induction l as [|d l IH]; intros acc; simpl.
    - rewrite app_nil_r. reflexivity.
    - rewrite IH, map_app, <- app_assoc. reflexivity. }
  rewrite G. reflexivity.
Qed.

(** X17. What [apply_projection] does to the literals.  It never changes
    their number.  With no literal or no definition it changes nothing
    and returns true.  Otherwise the substitution has one pair per
    definition, in reverse order.  When it returns true, every literal
    has been replaced by its image under the substitution, and none of
    the images evaluates to false.  When it returns false, the literals
    before the first one whose image evaluates to false have been
    replaced, and that literal and the ones after it are as they
    were. *)
Theorem apply_projection_outcome ev0 defs fmls0 :
  let sub := mk_subst safe_replace defs in
  let f := safe_replace sub in
  let r := apply_projection eval safe_replace ev0 defs fmls0 in
  length (snd r) = length fmls0 /\
  (fmls0 = [] \/ defs = [] -> r = (true, fmls0)) /\
  map fst sub = rev (map def_var_ defs) /\
  (defs <> [] -> fst r = true ->
   snd r = map f fmls0 /\
   Forall (fun x => is_false (eval ev0 (f x)) = false) fmls0) /\
  (fst r = false ->
   exists pre fml post,
     fmls0 = pre ++ fml :: post /\
     snd r = map f pre ++ fml :: post /\
     is_false (eval ev0 (f fml)) = true /\
     Forall (fun x => is_false (eval ev0 (f x)) = false) pre).
Proof.
  intros sub f r.
  assert (Hcase : (fmls0 = [] \/ defs = []) /\ r = (true, fmls0) \/
                  (fmls0 <> [] /\ defs <> [] /\
                   r = subst_fmls eval safe_replace ev0 sub [] fmls0)).
  { subst r. unfold apply_projection.
    destruct fmls0 as [|x l]; [left; auto|].
    destruct defs as [|d ds]; [left; auto|].
    right. split; [discriminate|]. split; [discriminate|reflexivity]. }
  pose proof (subst_fmls_spec ev0 sub fmls0 []) as Hs. cbv zeta in Hs.
  fold f in Hs.
  split; [|split; [|split; [apply mk_subst_keys|split]]].
  - destruct Hcase as [[_ ->]|[_ [_ ->]]]; [reflexivity|].
    destruct (subst_fmls eval safe_replace ev0 sub [] fmls0) as [[|] out];
      simpl.
    + destruct Hs as [-> _]. simpl. apply length_map.
    + destruct Hs as [pre [x [post [-> [-> _]]]]]. simpl.
      rewrite !length_app, length_map. reflexivity.
  - intros Hempty. destruct Hcase as [[_ E]|[Hf [Hd _]]]; [exact E|].
    destruct Hempty; contradiction.
  - intros Hd Hok. destruct Hcase as [[[-> | ->] E]|[_ [_ E]]].
    + rewrite E. simpl. split; constructor.
    + contradiction.
    + rewrite E in *.
      destruct (subst_fmls eval safe_replace ev0 sub [] fmls0) as [[|] out];
        simpl in *; [exact Hs|discriminate].
  - intros Hno. destruct Hcase as [[_ E]|[_ [_ E]]].
    + rewrite E in Hno. discriminate.
    + rewrite E in *.
      destruct (subst_fmls eval safe_replace ev0 sub [] fmls0) as [[|] out];
        simpl in *; [discriminate|exact Hs].
Qed.

End ApplyProjection.

(** ** [maximize] *)

Section MaximizeFacts.

Variable eval : model_evaluator -> expr -> expr.
Variable is_extended_numeral : expr -> option Q.
Variable mk_not : expr -> expr.
Variable m_inc : bool.
Variable kernel_maximize : model_based_opt -> inf_eps.
Variable get_value : model_based_opt -> nat -> Q.
Variable default_completion : bool.

(** X18. The calls of [maximize].  When the setup of [maximize] is
    through, the kernel has received, in this order: definitions of
    the mod and div variables of the objective, the objective (set
    exactly once), and then only constraints and definitions that come
    from the literals; model completion is on from then on. *)
Theorem maximize_call_order fmls0 mdl t s3 :
  maximize_setup eval is_extended_numeral mk_not m_inc default_completion
    fmls0 mdl t = Ok s3 ->
  exists defs coeffs c lits,
    m_calls (mbo s3) = defs ++ call_set_objective coeffs c :: lits /\
    Forall def_call defs /\
    nonzero_coeffs coeffs /\
    Forall lit_call lits /\
    ev_completion (ev s3) = true.
Proof.
  unfold maximize_setup. intros H.
  bind_inv H. bind_inv H. destruct a0 as [coeffs s1]. cbv beta iota in H.
  pose proof (linearize_term_extends _ _ _ _ _ _ _ Ha) as [[defs [Hd Hdef]] _ _].
  destruct (extract_coefficients_extends _ (fun _ => False) _ _ _ _ Ha0)
    as [[[ks [Hks Hnone]] _ _] [Hnz Hev]].
  destruct ks as [|k ks]; [|inversion Hnone; contradiction].
  rewrite app_nil_r in Hks.
  pose proof (linearize_each_extends _ _ _ _ _ _ _ H) as Hext.
  pose proof (extends_completion _ _ _ Hext) as Hc.
  destruct Hext as [[lits [Hl Hlit]] _ _].
  exists defs, coeffs, (acc_c a), lits.
  split; [|split; [exact Hdef|split; [exact Hnz|split; [exact Hlit|]]]].
  - rewrite Hl. cbn [mbo set_mbo set_objective record_call m_calls].
    rewrite Hks, Hd. simpl. rewrite <- app_assoc. reflexivity.
  - apply Hc. cbn [ev set_mbo]. rewrite Hev. reflexivity.
Qed.

Lemma linearize_each_errors lits : forall s e,
  linearize_each eval is_extended_numeral mk_not m_inc lits s = Err e ->
  term_error e \/ e = null_deref.
Proof.
  induction lits as [|fml rest IH]; cbn [linearize_each]; intros s e H;
    [discriminate|].
  apply bind_Err in H. destruct H as [H|[[b s1] [_ H]]].
  - apply linearize_errors in H. tauto.
  - cbv beta iota in H. eauto.
Qed.

(** X19. The exceptions of [maximize].  [maximize] needs no fuel and
    raises nothing but the two exceptions of the linearizer (it can
    still read the first argument of a [distinct] without
    arguments). *)
Theorem maximize_exceptions fmls0 mdl t e :
  maximize eval is_extended_numeral mk_not m_inc kernel_maximize get_value
    default_completion fmls0 mdl t = Err e ->
  term_error e \/ e = null_deref.
Proof.
  unfold maximize. intros H.
  apply bind_Err in H. destruct H as [H|[s3 [_ H]]].
  - unfold maximize_setup in H.
    apply bind_Err in H. destruct H as [H|[a [_ H]]].
    { left. eapply linearize_term_errors; eauto. }
    apply bind_Err in H. destruct H as [H|[[coeffs s1] [_ H]]].
    { left. eapply extract_coefficients_errors; eauto. }
    cbv beta iota in H. eapply linearize_each_errors; eauto.
  - unfold mbo_maximize in H. cbv beta iota in H.
    destruct (negb (is_finite (kernel_maximize (mbo s3)))); [discriminate|].
    destruct (is_neg (get_infinitesimal (kernel_maximize (mbo s3))));
      discriminate.
Qed.

End MaximizeFacts.

(** ** The side formulas of the term linearizer *)

Section SideFormulas.

Variable eval : model_evaluator -> expr -> expr.
Variable is_extended_numeral : expr -> option Q.
Variable mk_not : expr -> expr.

Local Notation lin_term := (linearize_term eval is_extended_numeral mk_not).

(** Decided under the evaluator [e], or under [e] with model completion
    switched on. *)
Local Notation decided e f :=
  (decided_guard eval mk_not e f \/
   decided_guard eval mk_not (set_model_completion true e) f).

Lemma decided_later e e' f :
  e' = e \/ e' = set_model_completion true e ->
  decided e' f -> decided e f.
Proof.
  intros [->| ->]; [auto|]. intros [H|H]; right; exact H.
Qed.

Lemma side_formulas_trans (s1 s2 s3 : lin_state) l1 l2 :
  fmls s2 = fmls s1 ++ l1 ->
  Forall (fun f => decided (ev s1) f) l1 ->
  ev s2 = ev s1 \/ ev s2 = set_model_completion true (ev s1) ->
  fmls s3 = fmls s2 ++ l2 ->
  Forall (fun f => decided (ev s2) f) l2 ->
  exists ls, fmls s3 = fmls s1 ++ ls /\
             Forall (fun f => decided (ev s1) f) ls.
Proof.
  intros H1 F1 He H2 F2. exists (l1 ++ l2).
  rewrite H2, H1, app_assoc. split; [reflexivity|].
  apply Forall_app. split; [exact F1|].
  eapply Forall_impl; [|exact F2]. intros f. apply decided_later. exact He.
Qed.

Lemma linearize_term_sides t mul a a' :
  lin_term t mul a = Ok a' ->
  exists ls,
    fmls (acc_st a') = fmls (acc_st a) ++ ls /\
    Forall (fun f => decided (ev (acc_st a)) f) ls.
Proof.
  revert t mul a a'.
  apply (linearize_term_ok_ind eval is_extended_numeral mk_not
           (fun t mul a a' =>
              exists ls,
                fmls (acc_st a') = fmls (acc_st a) ++ ls /\
                Forall (fun f => decided (ev (acc_st a)) f) ls)); auto.
  - intros t mul a. exists []. rewrite app_nil_r. split; constructor.
  - intros mul1 i mul a _. exists []. rewrite app_nil_r. split; constructor.
  - intros args mul a a' _ Hch.
    induction Hch as [a|arg r a a1 a' Hstep [l1 [H1 F1]] _ [l2 [H2 F2]]].
    + exists []. rewrite app_nil_r. split; constructor.
    + pose proof (linearize_term_extends _ _ _ _ _ _ _ Hstep) as [_ _ He].
      eapply side_formulas_trans; eauto.
  - intros t1 t2 mul a a1 a' _ Hs1 [l1 [H1 F1]] _ [l2 [H2 F2]].
    pose proof (linearize_term_extends _ _ _ _ _ _ _ Hs1) as [_ _ He].
    eapply side_formulas_trans; eauto.
  - intros t1 t2 t3 mul a a1 _ Hg _ [l1 [H1 F1]].
    exists (l1 ++ [t1]). cbn [acc_st push_back fmls set_fmls].
    rewrite H1, app_assoc. split; [reflexivity|].
    apply Forall_app. split; [exact F1|]. constructor; [|constructor].
    left. exists t1. left. auto.
  - intros t1 t2 t3 mul a a' _ _ Hg _ [l1 [H1 F1]].
    cbn [acc_st push_back fmls set_fmls ev] in H1, F1.
    exists (mk_not t1 :: l1). rewrite H1, <- app_assoc.
    split; [reflexivity|]. constructor; [|exact F1].
    left. exists t1. right. auto.
  - intros t1 t2 mul1 mul a a0 coeffs s1 _ _ _ [l0 [H0 F0]] Hx.
    exists l0. cbn [acc_st] in *. split; [|exact F0].
    unfold add_mod, add_var. cbn [fmls set_tids set_mbo].
    rewrite (extract_coefficients_fmls _ _ _ _ _ Hx). exact H0.
  - intros t1 t2 mul1 mul a a0 coeffs s1 _ _ _ [l0 [H0 F0]] Hx.
    exists l0. cbn [acc_st] in *. split; [|exact F0].
    unfold add_div, add_var. cbn [fmls set_tids set_mbo].
    rewrite (extract_coefficients_fmls _ _ _ _ _ Hx). exact H0.
Qed.

(** X20. The side formulas of a term are decided guards.  The term
    linearizer only appends to [fmls], and what it appends are guards
    of [ite] terms: a guard the evaluator made true, or [mk_not] of a
    guard it made false (the evaluator being the one of the call, with
    model completion possibly switched on by an extraction in
    between). *)
Theorem term_side_formulas t mul a a' :
  linearize_term eval is_extended_numeral mk_not t mul a = Ok a' ->
  exists ls,
    fmls (acc_st a') = fmls (acc_st a) ++ ls /\
    Forall (fun f => decided (ev (acc_st a)) f) ls.
Proof. apply linearize_term_sides. Qed.

End SideFormulas.

(** ** The linearization loop ends *)

Section LoopTermination.

Variable eval : model_evaluator -> expr -> expr.
Variable is_extended_numeral : expr -> option Q.
Variable mk_not : expr -> expr.
Variable m_inc : bool.
(** [mk_not e] is [not e], or something smaller. *)
Hypothesis mk_not_small :
  forall e, (weight (mk_not e) <= weight (Not e))%nat.

(** X21. The loop of [project] ends.  The loop runs over [fmls] while the
    linearizer appends to it; it still ends, because what one call
    appends weighs less than the literal it was called on.  With fuel
    for the weight of the literals it starts on, the embedding of the
    loop never runs out of fuel, and more fuel does not change its
    result. *)
Theorem linearize_loop_terminates fuel s :
  (total_weight (fmls s) <= fuel)%nat ->
  linearize_loop eval is_extended_numeral mk_not m_inc fuel 0 0 s <>
  Err out_of_fuel /\
  forall fuel' r,
    (fuel <= fuel')%nat ->
    linearize_loop eval is_extended_numeral mk_not m_inc fuel 0 0 s = Ok r ->
    linearize_loop eval is_extended_numeral mk_not m_inc fuel' 0 0 s = Ok r.
Proof.
  intros Hw. split.
  - apply linearize_loop_ends; [exact mk_not_small|lia|exact Hw].
  - intros fuel' r Hle H. eapply linearize_loop_fuel; eauto.
Qed.

End LoopTermination.

(** ** Boolean structure and [distinct] *)

Lemma first_with_spec (p : expr -> bool) args :
  match first_with p args with
  | Some arg =>
      exists pre post,
        args = pre ++ arg :: post /\
        Forall (fun x => p x = false) pre /\ p arg = true
  | None => Forall (fun x => p x = false) args
  end.
Proof.
  induction args as [|x args IH]; simpl; [constructor|].
  destruct (p x) eqn:E.
  - exists [], args. repeat split; auto.
  - destruct (first_with p args) as [arg|].
    + destruct IH as [pre [post [-> [Hpre Harg]]]].
      exists (x :: pre), post. repeat split; auto.
    + constructor; auto.
Qed.

Section BooleanArms.

Variable eval : model_evaluator -> expr -> expr.
Variable is_extended_numeral : expr -> option Q.
Variable mk_not : expr -> expr.

Local Notation lin_lit := (linearize eval is_extended_numeral mk_not true).

(** X22. Boolean structure is resolved by the model.  As long as the
    host does not cancel, a conjunction
    enqueues all its arguments, a negated disjunction the negations of
    all its arguments.  A disjunction enqueues the first argument the
    evaluator makes true, and is refused when there is none; a negated
    conjunction enqueues [mk_not] of the first argument the evaluator
    makes false, and is refused when there is none.  None of them
    reaches the kernel, [tids] or the evaluator. *)
Theorem boolean_literals depth args s :
  linearize eval is_extended_numeral mk_not true (S depth) (And args) s =
  Ok (true, set_fmls s (fmls s ++ args)) /\
  linearize eval is_extended_numeral mk_not true (S depth) (Not (Or args)) s =
  Ok (true, set_fmls s (fmls s ++ map mk_not args)) /\
  ((Forall (fun arg => is_true (eval (ev s) arg) = false) args /\
    linearize eval is_extended_numeral mk_not true (S depth) (Or args) s =
    Ok (false, s)) \/
   (exists pre arg post,
       args = pre ++ arg :: post /\
       Forall (fun x => is_true (eval (ev s) x) = false) pre /\
       is_true (eval (ev s) arg) = true /\
       linearize eval is_extended_numeral mk_not true (S depth) (Or args) s =
       Ok (true, push_back s arg))) /\
  ((Forall (fun arg => is_false (eval (ev s) arg) = false) args /\
    linearize eval is_extended_numeral mk_not true (S depth)
      (Not (And args)) s =
    Ok (false, s)) \/
   (exists pre arg post,
       args = pre ++ arg :: post /\
       Forall (fun x => is_false (eval (ev s) x) = false) pre /\
       is_false (eval (ev s) arg) = true /\
       linearize eval is_extended_numeral mk_not true (S depth)
         (Not (And args)) s =
       Ok (true, push_back s (mk_not arg)))).
Proof.
  split; [reflexivity|]. split; [reflexivity|]. split.
  - cbn [linearize negb].
    pose proof (first_with_spec (fun arg => is_true (eval (ev s) arg)) args)
      as H.
    destruct (first_with _ args) as [arg|].
    + right. destruct H as [pre [post [-> [Hpre Harg]]]].
      exists pre, arg, post. auto.
    + left. auto.
  - cbn [linearize negb].
    pose proof (first_with_spec (fun arg => is_false (eval (ev s) arg)) args)
      as H.
    destruct (first_with _ args) as [arg|].
    + right. destruct H as [pre [post [-> [Hpre Harg]]]].
      exists pre, arg, post. auto.
    + left. auto.
Qed.

Lemma find_equal_distinct mul ty a : forall args nums values,
  eval_nums eval (ev (acc_st a)) args = Some nums ->
  Forall (fun n => Forall (fun v => ~ snd n == fst v) values) nums ->
  ForallOrdPairs (fun n n' => ~ snd n == snd n') nums ->
  find_equal eval is_extended_numeral mk_not mul args values ty a =
  Ok (Some (ty, a)).
Proof.
  induction args as [|x args IH]; simpl; intros nums values Hn Hv Hd.
  - reflexivity.
  - destruct (is_numeral (eval (ev (acc_st a)) x)) as [q|]; [|discriminate].
    destruct (eval_nums eval (ev (acc_st a)) args) as [nums'|];
      [|discriminate].
    inversion Hn; subst. inversion Hv as [|? ? Hq Hv']; subst.
    inversion Hd as [|? ? Hq' Hd']; subst. simpl in *.
    rewrite (find_value_none _ _ Hq).
    apply (IH nums'); auto.
    rewrite Forall_forall in *. intros n Hin.
    apply Forall_app. split; auto.
    constructor; auto. simpl. intros E. apply (Hq' n Hin).
    symmetry. exact E.
Qed.

(** X23. A negated [distinct] without equal arguments.  When all
    arguments of a negated arithmetic [distinct] evaluate to numerals
    that are pairwise different (the literal is false in the model;
    the source only asserts that this does not happen), the linearizer
    does not refuse the literal (as long as the host does not cancel):
    it returns true and submits the
    constraint without variables [0 <= 0]; nothing else changes, but
    model completion is switched on. *)
Theorem negated_distinct_without_equal depth arg0 args nums s :
  is_arith arg0 = true ->
  eval_nums eval (ev s) (arg0 :: args) = Some nums ->
  ForallOrdPairs (fun n n' => ~ snd n == snd n') nums ->
  linearize eval is_extended_numeral mk_not true (S depth)
    (Not (Distinct (arg0 :: args))) s =
  Ok (true,
      set_mbo (set_ev s (set_model_completion true (ev s)))
        (add_constraint [] 0 t_le (mbo s))).
Proof.
  intros Ha Hn Hd. cbn [linearize negb]. rewrite Ha. cbn [negb].
  rewrite (find_equal_distinct (- (1)) t_le (mk_acc 0 [] s)
             (arg0 :: args) nums []); auto.
  apply Forall_forall. intros; constructor.
Qed.

End BooleanArms.

(** ** Variables under non-linear terms *)

(** X24. Variables in non-linear sub-terms are kept.  When an arithmetic
    expression that is not a variable of the list and not a mod or div
    by a numeral has become a kernel variable (the linearizer took it
    as opaque), every variable of the list that occurs in it is
    marked: it stays in [vars] and is not handed to the kernel for
    elimination, whether or not [m_check_purified] is set. *)
Theorem nonlinear_vars_kept m_check_purified vars0 s real_vars kept :
  split_vars (mark_roots m_check_purified vars0 s) (tids s) vars0 =
  Ok (real_vars, kept) ->
  forall v e id,
    In v vars0 ->
    find (tids s) e = Some id ->
    is_arith e = true -> is_pure e = false -> var_marked vars0 e = false ->
    occurs v e = true ->
    In v kept.
Proof.
  intros H v e id Hin Hf Ha Hp Hm Ho.
  destruct (split_vars_inv _ _ _ _ _ H) as [_ [Hk _]].
  rewrite Hk. apply filter_In. split; [exact Hin|].
  replace (fmls_marked (mark_roots m_check_purified vars0 s) v) with true;
    [rewrite andb_false_r; reflexivity|].
  symmetry. unfold fmls_marked. apply existsb_exists. exists e.
  split; [|exact Ho]. unfold mark_roots. apply in_or_app. left.
  apply (in_map fst _ (e, id)). apply filter_In. split.
  - apply find_In. exact Hf.
  - simpl. rewrite Ha, Hp, Hm. reflexivity.
Qed.

(** ** The model after [maximize] *)

Lemma lookup_register_same f r v l :
  Std.lookup f r (register f r v l) = Some v.
Proof.
  induction l as [|[[g s] w] l IH]; simpl.
  - rewrite String.eqb_refl.
    replace (sort_eqb r r) with true; [reflexivity|].
    symmetry. apply sort_eqb_eq. reflexivity.
  - destruct (String.eqb f g && sort_eqb r s) eqn:E; simpl; rewrite E; auto.
Qed.

Lemma lookup_register_other f r v l g s :
  (g, s) <> (f, r) ->
  Std.lookup g s (register f r v l) = Std.lookup g s l.
Proof.
  intros Hne. induction l as [|[[h t] w] l IH]; simpl.
  - destruct (String.eqb g f && sort_eqb s r) eqn:E; [|reflexivity].
    apply andb_true_iff in E. destruct E as [E1 E2].
    apply String.eqb_eq in E1. apply sort_eqb_eq in E2. congruence.
  - destruct (String.eqb f h && sort_eqb r t) eqn:E; simpl.
    + destruct (String.eqb g h && sort_eqb s t) eqn:E'; [|reflexivity].
      apply andb_true_iff in E. destruct E as [E1 E2].
      apply andb_true_iff in E'. destruct E' as [E1' E2'].
      apply String.eqb_eq in E1, E1'. apply sort_eqb_eq in E2, E2'.
      congruence.
    + rewrite IH. reflexivity.
Qed.

Section MaximizeModel.

Variable eval : model_evaluator -> expr -> expr.
Variable is_extended_numeral : expr -> option Q.
Variable mk_not : expr -> expr.
Variable m_inc : bool.
Variable kernel_maximize : model_based_opt -> inf_eps.
Variable get_value : model_based_opt -> nat -> Q.
Variable default_completion : bool.

Lemma update_model_inline o (t : obj_map nat) : forall mdl,
  m_inline (update_model get_value o t mdl) = m_inline mdl.
Proof.
  unfold update_model. induction t as [|[k id] t IH]; intros mdl; simpl;
    [reflexivity|].
  rewrite IH. destruct k; try reflexivity.
  destruct args; reflexivity.
Qed.

Lemma update_model_other o (t : obj_map nat) f r : forall mdl,
  ~ In (App f r []) (map fst t) ->
  Std.lookup f r (m_interp (update_model get_value o t mdl)) =
  Std.lookup f r (m_interp mdl).
Proof.
  unfold update_model. induction t as [|[k id] t IH]; intros mdl Hn; simpl;
    [reflexivity|].
  simpl in Hn. rewrite IH by tauto.
  destruct k; try reflexivity. destruct args; [|reflexivity].
  simpl. apply lookup_register_other. intros E. inversion E; subst.
  tauto.
Qed.

Lemma update_model_in o (t : obj_map nat) f r id : forall mdl,
  NoDup (map fst t) -> In (App f r [], id) t ->
  Std.lookup f r (m_interp (update_model get_value o t mdl)) =
  Some (Num (get_value o id) false).
Proof.
  induction t as [|[k id'] t IH]; intros mdl Hnd Hin; [destruct Hin|].
  inversion Hnd as [|? ? Hnotin Hnd']; subst.
  destruct Hin as [E|Hin].
  - inversion E; subst. unfold update_model. simpl.
    fold (update_model get_value o t
            (register_decl f r (Num (get_value o id) false) mdl)).
    rewrite update_model_other by exact Hnotin.
    simpl. apply lookup_register_same.
  - unfold update_model. simpl.
    match goal with
    | |- context [fold_left ?g t ?m] =>
        change (fold_left g t m) with (update_model get_value o t m)
    end.
    apply IH; assumption.
Qed.

Lemma maximize_setup_keys fmls0 mdl t s3 :
  maximize_setup eval is_extended_numeral mk_not m_inc default_completion
    fmls0 mdl t = Ok s3 ->
  NoDup (map fst (tids s3)).
Proof.
  unfold maximize_setup. intros H.
  bind_inv H. bind_inv H. destruct a0 as [coeffs s1]. cbv beta iota in H.
  set (Inv := fun s : lin_state => NoDup (map fst (tids s))).
  assert (A1 : forall s v r b,
             Inv s -> find (tids s) v = None ->
             Inv (set_tids (set_mbo s (snd (add_var r b (mbo s))))
                    (insert v (length (m_var2value (mbo s))) (tids s))))
    by (intros; apply keys_insert_nodup; assumption).
  assert (A2 : forall s k, Inv s -> Inv (set_mbo s (record_call k (mbo s))))
    by (intros ? ? X; exact X).
  assert (A3 : forall s l, Inv s -> Inv (set_fmls s l))
    by (intros ? ? X; exact X).
  assert (A4 : forall s e, Inv s -> Inv (set_ev s e))
    by (intros ? ? X; exact X).
  apply (linearize_each_inv eval is_extended_numeral mk_not m_inc Inv
           A1 A2 A3 A4 _ _ _ H).
  apply A2.
  apply (extract_coefficients_inv eval Inv A1 A4 _ _ _ _ Ha0).
  apply (linearize_term_inv eval is_extended_numeral mk_not Inv A1 A2 A3 A4
           _ _ _ _ Ha).
  constructor.
Qed.

(** X25. [maximize] writes the kernel's values back.  In the model
    [maximize] leaves, every uninterpreted constant that has a kernel
    variable is interpreted by the numeral (of sort real) of the value
    the kernel reports for that variable after maximizing; every other
    constant keeps its interpretation, and the inline flag is
    untouched.  The value returned is the kernel's optimum. *)
Theorem maximize_updates_model fmls0 mdl t o :
  maximize eval is_extended_numeral mk_not m_inc kernel_maximize get_value
    default_completion fmls0 mdl t = Ok o ->
  exists s3,
    maximize_setup eval is_extended_numeral mk_not m_inc default_completion
      fmls0 mdl t = Ok s3 /\
    max_value o = kernel_maximize (mbo s3) /\
    m_inline (max_model o) = m_inline mdl /\
    (forall f r id,
        find (tids s3) (App f r []) = Some id ->
        Std.lookup f r (m_interp (max_model o)) =
        Some (Num (get_value (record_call call_maximize (mbo s3)) id) false)) /\
    (forall f r,
        find (tids s3) (App f r []) = None ->
        Std.lookup f r (m_interp (max_model o)) =
        Std.lookup f r (m_interp mdl)).
Proof.
  unfold maximize. intros H. bind_inv H. rename a into s3.
  exists s3. split; [exact Ha|].
  pose proof (maximize_setup_keys _ _ _ _ Ha) as Hnd.
  unfold mbo_maximize in H. cbv beta iota in H.
  assert (Hm : max_model o =
               update_model get_value (record_call call_maximize (mbo s3))
                 (tids s3) mdl /\
               max_value o = kernel_maximize (mbo s3)).
  { destruct (negb (is_finite (kernel_maximize (mbo s3))));
      [inversion H; split; reflexivity|].
    destruct (is_neg (get_infinitesimal (kernel_maximize (mbo s3))));
      inversion H; split; reflexivity. }
  destruct Hm as [Hm Hv]. rewrite Hm. split; [exact Hv|].
  split; [apply update_model_inline|]. split.
  - intros f r id Hf. apply update_model_in; [exact Hnd|].
    apply find_In. exact Hf.
  - intros f r Hf. apply update_model_other.
    apply find_none_keys. exact Hf.
Qed.

End MaximizeModel.

(** ** Small helpers of [imp] *)

(** X26. [n_sign]. [n_sign b] is 1 or -1, and it opposes the sign of
    [b]: the product [n_sign b * b] is never positive. *)
Theorem n_sign_opposes b :
  (n_sign b == 1 \/ n_sign b == - (1)) /\ n_sign b * b <= 0.
Proof.
  unfold n_sign. destruct (Qlt_bool 0 b) eqn:E.
  - apply Qlt_bool_true in E. split; [right; reflexivity|]. lra.
  - apply Qlt_bool_false in E. split; [left; reflexivity|]. lra.
Qed.

(** X27. [var2expr]. [var2expr] fails only on an id that [index2expr]
    has no expression for; otherwise the term it builds has the value
    [coefficient * value of the expression]: leaving the factor out
    when the coefficient is one does not change the value. *)
Theorem var2expr_value index2expr v :
  match var2expr index2expr v with
  | Ok t =>
      exists xe,
        index index2expr (Var.m_id v) = Ok xe /\
        forall rho,
          term_value rho t == Var.m_coeff v * term_value rho xe
  | Err e =>
      e = null_deref /\ index index2expr (Var.m_id v) = Err null_deref
  end.
Proof.
  unfold var2expr.
  destruct (index index2expr (Var.m_id v)) as [xe|e] eqn:Hi; cbn [bind].
  - destruct (is_one (Var.m_coeff v)) eqn:Ho; cbn [negb];
      exists xe; split; auto; intros rho.
    + apply Qeq_bool_iff in Ho. rewrite Ho. ring.
    + cbn [term_value]. ring.
  - unfold index in Hi.
    destruct (nth_error index2expr (Var.m_id v)) as [[x|]|];
      inversion Hi; auto.
Qed.

(** ** [arith_project] *)

Lemma subseq_one {A} (l : list A) x : subseq l [x] -> l = [] \/ l = [x].
Proof.
  intros H. inversion H as [|? ? ? H'|? ? ? H']; subst;
    inversion H'; subst; auto.
Qed.

Section PluginFacts.

Variable eval : model_evaluator -> expr -> expr.
Variable is_extended_numeral : expr -> option Q.
Variable mk_not : expr -> expr.
Variable mk_add_simplify : list expr -> expr.
Variable safe_replace : list (expr * expr) -> expr -> expr.
Variable kernel_project :
  model_based_opt -> list nat -> bool -> list (option opt_def).
Variable kernel_live_rows : model_based_opt -> list row.

Local Notation default_project :=
  (project eval is_extended_numeral mk_not true true false
     mk_add_simplify safe_replace kernel_project kernel_live_rows).

(** X28. [arith_project].  The free function runs [project] on the one
    variable with the flags of a fresh plugin ([m_check_purified] set,
    [m_apply_projection] clear) and without definitions, and hands
    back its literals.  As long as the host does not cancel, it returns
    true exactly when the variable was eliminated and false exactly
    when [project] kept it; on a variable that is not arithmetic it
    returns false and leaves the literals as they were. *)
Theorem arith_project_outcome fuel mdl v lits :
  (forall o1,
      arith_project eval is_extended_numeral mk_not true mk_add_simplify
        safe_replace kernel_project kernel_live_rows fuel mdl v lits =
      Ok o1 ->
      exists o,
        default_project fuel mdl [v] lits [] false = Ok o /\
        out1_lits o1 = out_fmls o /\ out1_model o1 = out_model o /\
        ((ret1 o1 = true /\ out_vars o = []) \/
         (ret1 o1 = false /\ out_vars o = [v]))) /\
  (is_arith v = false ->
   arith_project eval is_extended_numeral mk_not true mk_add_simplify
     safe_replace kernel_project kernel_live_rows fuel mdl v lits =
   Ok (mk_project1_out false mdl lits)).
Proof.
  unfold arith_project, plugin_project1, project1.
  cbn [plugin_new plugin_check_purified plugin_apply_projection].
  split.
  - intros o1 H. bind_inv H. rename a into o. exists o.
    split; [exact Ha|]. inversion H; subst o1; clear H.
    cbn [out1_lits out1_model ret1].
    split; [reflexivity|]. split; [reflexivity|].
    pose proof (project_ret_true _ _ _ _ _ _ _ _ _ _ _ _ _ _ _ Ha) as Hret.
    destruct (project_vars_inv _ _ _ _ _ _ _ _ _ _ _ _ _ _ _ _ _ Ha)
      as [Hsub _].
    rewrite Hret. destruct (subseq_one _ _ Hsub) as [->| ->]; auto.
  - intros Hna. unfold project. simpl. rewrite Hna. reflexivity.
Qed.

End PluginFacts.

(** ** The sample evaluator is an evaluator of arithmetic *)

Lemma Std_extended_numeral ev0 t : forall k,
  Std.is_extended_numeral t = Some k ->
  is_numeral (Std.eval ev0 t) = Some k.
Proof.
  induction t; simpl; intros k H; try discriminate.
  - exact H.
  - destruct (Std.is_extended_numeral t) as [q|]; [|discriminate].
    rewrite (IHt q eq_refl). inversion H; reflexivity.
Qed.

Lemma Std_mk_not_weight e : (weight (Std.mk_not e) <= weight (Not e))%nat.
Proof.
  destruct e; cbn [Std.mk_not]; try apply Nat.le_refl; cbn [weight]; lia.
Qed.

Lemma Std_numerals ev0 args qs :
  Forall2 (has_value Std.eval ev0) args qs ->
  exists qs', Std.numerals (map (Std.eval ev0) args) = Some qs' /\
              Std.sum qs' == sum_of qs.
Proof.
  induction 1 as [|arg q args qs [q' [Hq E]] _ [qs' [Hqs Es]]]; simpl.
  - exists []. split; reflexivity.
  - unfold val_of in Hq. rewrite Hq, Hqs. exists (q' :: qs').
    split; [reflexivity|]. simpl. rewrite E, Es. reflexivity.
Qed.

Lemma Std_arith_eval ev0 : arith_eval Std.eval Std.is_extended_numeral ev0.
Proof.
  split.
  - intros q i. exists q. split; reflexivity.
  - intros t1 t2 k q Hk [q' [Hq E]]. unfold has_value, val_of in *.
    simpl. rewrite (Std_extended_numeral ev0 t1 k Hk), Hq. simpl.
    eexists. split; [reflexivity|]. rewrite E. ring.
  - intros t1 t2 k q Hk [q' [Hq E]]. unfold has_value, val_of in *.
    simpl. rewrite (Std_extended_numeral ev0 t2 k Hk), Hq. simpl.
    eexists. split; [reflexivity|]. rewrite E. ring.
  - intros t1 q [q' [Hq E]]. unfold has_value, val_of in *.
    simpl. rewrite Hq. simpl. eexists. split; [reflexivity|].
    rewrite E. reflexivity.
  - intros args qs H. destruct (Std_numerals ev0 args qs H) as [qs' [Hn Es]].
    unfold has_value, val_of. simpl. rewrite Hn. simpl.
    eexists. split; [reflexivity|]. exact Es.
  - intros t1 t2 q1 q2 [q1' [Hq1 E1]] [q2' [Hq2 E2]].
    unfold has_value, val_of in *. simpl. rewrite Hq1, Hq2. simpl.
    eexists. split; [reflexivity|]. rewrite E1, E2. reflexivity.
  - intros t1 t2 t3 q Hg [q' [Hq E]]. unfold has_value, val_of in *.
    simpl. destruct (Std.eval ev0 t1); try discriminate. eauto.
  - intros t1 t2 t3 q Hg [q' [Hq E]]. unfold has_value, val_of in *.
    simpl. destruct (Std.eval ev0 t1); try discriminate. eauto.
  - intros t1 t2 k q Hk [q' [Hq E]]. unfold has_value, val_of in *.
    unfold is_numeral_pos in Hk.
    destruct (Std.is_extended_numeral t2) as [m|] eqn:Hm; [|discriminate].
    destruct (Qlt_bool 0 m) eqn:Hpos; [|discriminate].
    inversion Hk; subst m.
    simpl. rewrite Hq, (Std_extended_numeral ev0 t2 k Hm), Hpos. simpl.
    eexists. split; [reflexivity|]. rewrite (q_mod_comp q' q k E).
    reflexivity.
  - intros t1 t2 k q Hk [q' [Hq E]]. unfold has_value, val_of in *.
    unfold is_numeral_pos in Hk.
    destruct (Std.is_extended_numeral t2) as [m|] eqn:Hm; [|discriminate].
    destruct (Qlt_bool 0 m) eqn:Hpos; [|discriminate].
    inversion Hk; subst m.
    simpl. rewrite Hq, (Std_extended_numeral ev0 t2 k Hm), Hpos. simpl.
    eexists. split; [reflexivity|]. rewrite (q_div_comp q' q k E).
    reflexivity.
Qed.

(** ** The claims on concrete inputs *)

Import Scenario.

(** C1 as stated fails: [f(x)], one side of the negated arithmetic
    equality [not (f(x) = y)], does not evaluate to a numeral, and the
    literal linearizer raises nothing: it returns false and leaves the
    state as it was. *)
Lemma negated_equality_returns_false :
  is_arith fx = true /\
  is_numeral (Std.eval (ev (start [Not (Eq fx y)])) fx) = None /\
  run_linearize (Not (Eq fx y)) (start [Not (Eq fx y)]) =
  Ok (false, start [Not (Eq fx y)]).
Proof. repeat split. Qed.

(** The same for an argument of [distinct]. *)
Example distinct_returns_false :
  run_linearize (Distinct [x; fx; y]) (start []) = Ok (false, start []).
Proof. reflexivity. Qed.

(** The guard of an [ite] that has no truth value is fatal. *)
Example ite_guard_raises :
  run_linearize (Le (Ite (App "g" SBool [x]) x y) z) (start []) =
  throw "mbp evaluation didn't produce a truth value".
Proof. reflexivity. Qed.

(** C4 as stated fails: for the open supremum [7 - eps] of [u] under
    [u < 7], [ge] is [u >= 6], the value of [u] in the updated model, and
    not [u >= 7]. *)
Lemma maximize_ge_open_supremum :
  exists o,
    run_maximize_open [Lt u (rnum 7)] mdl u = Ok o /\
    max_value o = open_sup /\
    max_ge o = Ge u (rnum 6) /\
    max_ge o <> Ge u (Num (get_rational (max_value o)) false).
Proof.
  eexists. split; [reflexivity|]. simpl. repeat split. discriminate.
Qed.

Lemma maximize_bounds_witness :
  exists o,
    run_maximize_open [Lt u (rnum 7)] mdl u = Ok o /\
    max_ge o = Ge u (rnum 6) /\ max_gt o = Ge u (rnum 7).
Proof.
  eexists. split; [reflexivity|].
  assert (H := maximize_bounds Std.eval Std.is_extended_numeral Std.mk_not true
                 (fun _ => open_sup) (fun _ _ => inject_Z 6) false
                 [Lt u (rnum 7)] mdl u _ eq_refl).
  simpl in H. destruct H as [_ [H _]]. apply H; reflexivity.
Defined.

Lemma project_no_arith_witness :
  run_project 0 mdl [p] [Le x y] [] false =
  Ok (mk_project_out true mdl [p] [Le x y] []).
Proof.
  apply project_no_arith. intros v [<-|[]]. reflexivity.
Defined.

(** The variable [x] occurs in the product [x * y], which the linearizer
    treats as opaque: [project] keeps [x], and [project1] returns
    false. *)
Example project1_pinned :
  run_project1 10 mdl x [] [Le (Mul [x; y]) z] =
  Ok (mk_project1_out false (set_inline mdl)
        [Le (Add [Mul [x; y]; Mul [num (-1); z]]) (num 0)]).
Proof. reflexivity. Qed.

(** C5 as stated fails: the one input literal [and(p)] is linearized, its
    child [p] joins the work list and is refused; the output is [p],
    which is not an input literal and not the literal of a row. *)
Lemma project_keeps_side_literal :
  exists o,
    run_project 10 mdl [x] [And [p]] [] false = Ok o /\
    ret o = true /\
    out_fmls o = [p] /\
    ~ In p [And [p]] /\
    is_comparison p = false.
Proof.
  eexists. split; [reflexivity|]. simpl. repeat split.
  intros [H|[]]. discriminate.
Qed.

Lemma project_output_witness :
  exists residue side lits,
    subseq residue ([And [p; Le (Mul [x; y]) z]] ++ side) /\
    Forall (fun l => is_comparison l = true) lits /\
    [p; Le (Add [Mul [x; y]; Mul [num (-1); z]]) (num 0)] = residue ++ lits.
Proof.
  destruct (project_output Std.eval Std.is_extended_numeral Std.mk_not
              true true false Std.mk_add_simplify Std.safe_replace
              Std.kernel_project Std.kernel_live_rows
              10 mdl [x] [And [p; Le (Mul [x; y]) z]] [] false _
              eq_refl eq_refl eq_refl)
    as [residue [side [j [s1 [s2 [real_vars [lits H]]]]]]].
  cbv zeta in H.
  destruct H as [_ [_ [_ [Hsub [_ [_ [_ [Hcmp [_ [_ [_ Hout]]]]]]]]]]].
  exists residue, side, lits. split; [exact Hsub|]. split; [exact Hcmp|].
  exact Hout.
Defined.

Lemma sign_normalized_literal_witness :
  rows2fmls Std.mk_add_simplify 1 []
    [Row.mk [Var.mk 0 (inject_Z (-2))] (inject_Z 3) 0 t_le 0] [Some x] [] =
  Ok [Ge (Mul [num 2; x]) (num 3)] /\
  forall rho,
    holds rho (Ge (Mul [num 2; x]) (num 3)) <->
    row_holds t_le (inject_Z (-2) * term_value rho x) (inject_Z 3).
Proof.
  exact (sign_normalized_literal Std.mk_add_simplify 1 [] [Some x]
           (Row.mk [Var.mk 0 (inject_Z (-2))] (inject_Z 3) 0 t_le 0)
           (Var.mk 0 (inject_Z (-2))) x []
           eq_refl eq_refl (or_introl eq_refl) eq_refl).
Defined.

Lemma start_holds_model fmls0 :
  holds_model Std.eval (ev (start fmls0)) (start fmls0).
Proof.
  split; [reflexivity|]. intros e id H. discriminate.
Defined.

Lemma negated_equality_constraint_witness :
  exists coeffs c s',
    run_linearize (Not (Eq x y)) (start []) = Ok (true, s') /\
    (exists defs,
        m_calls (mbo s') = defs ++ [call_add_constraint coeffs c t_lt]) /\
    eval_coeffs (mbo s') coeffs c < 0.
Proof.
  eassert (H : run_linearize (Not (Eq x y)) (start []) = Ok (true, _))
    by reflexivity.
  assert (Hne : ~ inject_Z 0 == inject_Z 1) by (intros E; discriminate).
  destruct (negated_equality_constraint
              Std.eval Std.is_extended_numeral Std.mk_not
              (ev (start [])) eq_refl (Std_arith_eval _)
              1 x y (start []) (inject_Z 0) (inject_Z 1) true _
              (start_holds_model []) eq_refl eq_refl eq_refl Hne H)
    as [_ [_ [defs [coeffs [c [Hc [_ [_ [Hlt _]]]]]]]]].
  exists coeffs, c. eexists. split; [exact H|]. split; [|exact Hlt].
  exists defs. exact Hc.
Defined.

(** Scenario 3 of the spec: under [x := 0, y := 1] the disequality
    [x <> y] is linearized as [x - y < 0]. *)
Example scenario_disequality :
  calls_of (run_linearize (Not (Eq x y)) (start [])) =
  [call_add_constraint [coeff 0 (-1); coeff 1 1] 0 t_lt] /\
  (exists s, run_linearize (Not (Eq x y)) (start []) = Ok (true, s) /\
             tids s = [(y, 0%nat); (x, 1%nat)]).
Proof. split; [reflexivity|]. eexists. split; reflexivity. Qed.

(** Scenario 4 of the spec: [distinct(z, x, y)] under
    [x := 0, y := 1, z := 2] gives [x < y] and [y < z]. *)
Example scenario_distinct :
  calls_of (run_linearize (Distinct [z; x; y]) (start [])) =
  [call_add_constraint [coeff 0 1; coeff 1 (-1)] 0 t_lt;
   call_add_constraint [coeff 1 1; coeff 2 (-1)] 0 t_lt] /\
  (exists s, run_linearize (Distinct [z; x; y]) (start []) = Ok (true, s) /\
             tids s = [(x, 0%nat); (y, 1%nat); (z, 2%nat)]).
Proof. split; [reflexivity|]. eexists. split; reflexivity. Qed.

(** A disequality over a mod term: the mod variable is defined first,
    then the one strict constraint is submitted. *)
Example scenario_disequality_mod :
  calls_of (run_linearize
              (Not (Eq (Mod (Add [x; num 3]) (num 2)) z)) (start [])) =
  [call_add_mod [coeff 0 1] (inject_Z 3) (inject_Z 2) 1;
   call_add_constraint [coeff 2 (-1); coeff 1 1] 0 t_lt].
Proof. reflexivity. Qed.

(** The guard of an [ite] the model decides is enqueued as a side
    literal. *)
Example scenario_ite_guard :
  exists s, run_linearize (Le (Ite p x y) z) (start []) = Ok (true, s) /\
            fmls s = [p] /\
            m_calls (mbo s) =
            [call_add_constraint [coeff 0 1; coeff 1 (-1)] 0 t_le].
Proof. eexists. repeat split. Qed.

(** ** The further properties on concrete inputs *)

Lemma Std_mk_add_value rho ts :
  term_value rho (Std.mk_add_simplify ts) == term_value rho (Add ts).
Proof.
  destruct ts as [|t [|t' ts]]; simpl; try reflexivity. ring.
Qed.

Lemma linearize_rows_hold_witness :
  exists s',
    run_linearize (Distinct [z; x; y]) (start []) = Ok (true, s') /\
    kernel_ok (mbo s').
Proof.
  eassert (H : run_linearize (Distinct [z; x; y]) (start []) = Ok (true, _))
    by reflexivity.
  eexists. split; [exact H|].
  refine (proj2 (linearize_rows_hold Std.eval Std.is_extended_numeral
                   Std.mk_not (ev (start [])) eq_refl (Std_arith_eval _)
                   true 2 _ (start []) true _
                   (start_holds_model []) _ _ H)).
  - constructor.
  - simpl. repeat constructor; intros E; discriminate.
Defined.

Lemma linearize_term_value_witness :
  exists a coeffs s' r,
    run_linearize_term (Add [x; Mul [num 2; y]]) 1 (mk_acc 0 [] (start []))
    = Ok a /\
    extract_coefficients Std.eval (acc_ts a) (acc_st a) = Ok (coeffs, s') /\
    has_value Std.eval (ev (start [])) (Add [x; Mul [num 2; y]]) r /\
    eval_coeffs (mbo s') coeffs (acc_c a) == 0 + 1 * r.
Proof.
  eassert (Ha : run_linearize_term (Add [x; Mul [num 2; y]]) 1
                  (mk_acc 0 [] (start [])) = Ok _) by reflexivity.
  match type of Ha with
  | _ = Ok ?a =>
      eassert (Hx : extract_coefficients Std.eval (acc_ts a) (acc_st a) =
                    Ok (_, _)) by reflexivity
  end.
  destruct (linearize_term_value Std.eval Std.is_extended_numeral Std.mk_not
              (ev (start [])) eq_refl (Std_arith_eval _)
              _ _ _ _ _ _ _ (start_holds_model []) (Forall_nil _) Ha Hx)
    as [r [Hr [Hv _]]].
  do 3 eexists. exists r. split; [exact Ha|]. split; [exact Hx|].
  split; [exact Hr|exact Hv].
Defined.

Lemma extract_coefficients_stable_witness :
  exists coeffs s',
    extract_coefficients Std.eval [(x, 1); (y, 0)] (start []) =
    Ok (coeffs, s') /\
    extract_coefficients Std.eval [(x, 1); (y, 0)] s' = Ok (coeffs, s').
Proof.
  eassert (H : extract_coefficients Std.eval [(x, 1); (y, 0)] (start []) =
               Ok (_, _)) by reflexivity.
  do 2 eexists. split; [exact H|].
  exact (proj1 (proj2 (extract_coefficients_stable Std.eval _ _ _ _ _ H
                         (tids_le_refl _) eq_refl))).
Defined.

Lemma project_variables_witness :
  exists o,
    run_project 10 mdl [x; p] [Le (Mul [x; y]) z] [] false = Ok o /\
    subseq (out_vars o) [x; p] /\ In p (out_vars o) /\ ret o = true.
Proof.
  eassert (H : run_project 10 mdl [x; p] [Le (Mul [x; y]) z] [] false = Ok _)
    by reflexivity.
  eexists. split; [exact H|].
  destruct (project_variables Std.eval Std.is_extended_numeral Std.mk_not
              true true false Std.mk_add_simplify Std.safe_replace
              Std.kernel_project Std.kernel_live_rows _ _ _ _ _ _ _ H)
    as [Hs [Hn [Hr _]]].
  split; [exact Hs|]. split; [|exact (Hr eq_refl eq_refl)].
  apply Hn; [right; left; reflexivity|reflexivity].
Defined.

Lemma project_cancelled_witness :
  project Std.eval Std.is_extended_numeral Std.mk_not false true false
    Std.mk_add_simplify Std.safe_replace Std.kernel_project
    Std.kernel_live_rows 1 mdl [x] [Le x y] [] false =
  Ok (mk_project_out false (set_inline mdl) [x] [Le x y] []).
Proof.
  apply project_cancelled; [reflexivity|simpl; lia].
Defined.

Lemma project_exceptions_witness :
  run_project 10 mdl [fx] [] [] false =
  throw "evaluation did not produce a numeral" /\
  (term_error (default_exception "evaluation did not produce a numeral") \/
   default_exception "evaluation did not produce a numeral" =
   default_exception "evaluation did not produce a numeral" \/
   default_exception "evaluation did not produce a numeral" = null_deref \/
   default_exception "evaluation did not produce a numeral" = out_of_fuel).
Proof.
  split; [reflexivity|].
  exact (project_exceptions Std.eval Std.is_extended_numeral Std.mk_not
           true true false Std.mk_add_simplify Std.safe_replace
           Std.kernel_project Std.kernel_live_rows
           10 mdl [fx] [] [] false _ eq_refl).
Defined.

Lemma index2expr_inverts_tids_witness :
  exists j s s2,
    linearize_loop Std.eval Std.is_extended_numeral Std.mk_not true 10 0 0
      (start [Le x y]) = Ok (j, s) /\
    add_vars Std.eval true [x; z] (set_fmls s []) = Ok (Some s2) /\
    tids_wf s2 /\
    index (mk_index2expr (tids s2)) 2 = Ok z.
Proof.
  eassert (Hl : linearize_loop Std.eval Std.is_extended_numeral Std.mk_not
                  true 10 0 0 (start [Le x y]) = Ok (_, _)) by reflexivity.
  match type of Hl with
  | _ = Ok (_, ?s) =>
      eassert (Ha : add_vars Std.eval true [x; z] (set_fmls s []) =
                    Ok (Some _)) by reflexivity
  end.
  destruct (index2expr_inverts_tids Std.eval Std.is_extended_numeral
              Std.mk_not true _ _ _ _ _ _ _ _ Hl Ha) as [Hwf [Hidx _]].
  do 3 eexists. split; [exact Hl|]. split; [exact Ha|]. split; [exact Hwf|].
  apply Hidx. reflexivity.
Defined.

Lemma project_lookup_total_witness :
  exists s' real_vars kept,
    add_vars Std.eval true [x; p] (start []) = Ok (Some s') /\
    split_vars [] (tids s') [x; p] = Ok (real_vars, kept).
Proof.
  eassert (Ha : add_vars Std.eval true [x; p] (start []) = Ok (Some _))
    by reflexivity.
  destruct (project_lookup_total Std.eval true _ _ _ [] Ha)
    as [_ [rv [k [Hs _]]]].
  eexists. exists rv, k. split; [exact Ha|exact Hs].
Defined.

Lemma project_definitions_witness :
  exists o new elim,
    project Std.eval Std.is_extended_numeral Std.mk_not true true false
      Std.mk_add_simplify Std.safe_replace
      (fun _ ids _ => map (fun _ => Some (def_const 0)) ids)
      Std.kernel_live_rows 10 mdl [x] [Le x y] [] true = Ok o /\
    out_defs o = [] ++ new /\
    out_vars o = filter (fun v => negb (elim v)) [x] /\
    map def_var_ new = filter elim [x].
Proof.
  eassert (H : project Std.eval Std.is_extended_numeral Std.mk_not
                 true true false Std.mk_add_simplify Std.safe_replace
                 (fun _ ids _ => map (fun _ => Some (def_const 0)) ids)
                 Std.kernel_live_rows 10 mdl [x] [Le x y] [] true = Ok _)
    by reflexivity.
  destruct (project_definitions Std.eval Std.is_extended_numeral Std.mk_not
              true true false Std.mk_add_simplify Std.safe_replace
              (fun _ ids _ => map (fun _ => Some (def_const 0)) ids)
              Std.kernel_live_rows _ _ _ _ _ _ _
              (fun _ ids _ => length_map _ ids) H)
    as [new [elim [Hd [Hv [_ [Hm _]]]]]].
  eexists. exists new, elim. split; [exact H|]. split; [exact Hd|].
  split; [exact Hv|]. exact (Hm eq_refl).
Defined.

Lemma row_literal_witness :
  exists t,
    reify_row Std.mk_add_simplify 1 [] [Some x; Some y]
      (Row.mk [Var.mk 0 1; Var.mk 1 (- (1))] (inject_Z 3) 0 t_le 0) =
    Ok (Le t (Num (- inject_Z 3) (true && is_int t))) /\
    forall rho,
      holds rho (Le t (Num (- inject_Z 3) (true && is_int t))) <->
      row_holds t_le
        (row_value rho [Var.mk 0 1; Var.mk 1 (- (1))] [x; y]) (inject_Z 3).
Proof.
  apply (row_literal Std.mk_add_simplify Std_mk_add_value 0 [] [Some x; Some y]
           (Row.mk [Var.mk 0 1; Var.mk 1 (- (1))] (inject_Z 3) 0 t_le 0)
           [x; y]).
  - repeat constructor.
  - reflexivity.
  - left. reflexivity.
Defined.

Lemma maximize_call_order_witness :
  exists s3 defs coeffs c lits,
    maximize_setup Std.eval Std.is_extended_numeral Std.mk_not true false
      [Lt u (rnum 7)] mdl u = Ok s3 /\
    m_calls (mbo s3) = defs ++ call_set_objective coeffs c :: lits /\
    Forall lit_call lits.
Proof.
  eassert (H : maximize_setup Std.eval Std.is_extended_numeral Std.mk_not
                 true false [Lt u (rnum 7)] mdl u = Ok _) by reflexivity.
  destruct (maximize_call_order Std.eval Std.is_extended_numeral Std.mk_not
              true false _ _ _ _ H)
    as [defs [coeffs [c [lits [Hc [_ [_ [Hl _]]]]]]]].
  eexists. exists defs, coeffs, c, lits. split; [exact H|].
  split; [exact Hc|exact Hl].
Defined.

Lemma maximize_exceptions_witness :
  run_maximize_open [] mdl (Ite (App "g" SBool [x]) u u) =
  throw "mbp evaluation didn't produce a truth value" /\
  (term_error
     (default_exception "mbp evaluation didn't produce a truth value") \/
   default_exception "mbp evaluation didn't produce a truth value" =
   null_deref).
Proof.
  split; [reflexivity|].
  exact (maximize_exceptions Std.eval Std.is_extended_numeral Std.mk_not
           true (fun _ => open_sup) (fun _ _ => inject_Z 6) false
           [] mdl (Ite (App "g" SBool [x]) u u) _ eq_refl).
Defined.

Lemma term_side_formulas_witness :
  exists a' ls,
    run_linearize_term (Ite p x y) 1 (mk_acc 0 [] (start [])) = Ok a' /\
    fmls (acc_st a') = [] ++ ls /\
    Forall (fun f =>
              decided_guard Std.eval Std.mk_not (ev (start [])) f \/
              decided_guard Std.eval Std.mk_not
                (set_model_completion true (ev (start []))) f) ls.
Proof.
  eassert (H : run_linearize_term (Ite p x y) 1 (mk_acc 0 [] (start [])) =
               Ok _) by reflexivity.
  destruct (term_side_formulas Std.eval Std.is_extended_numeral Std.mk_not
              _ _ _ _ H) as [ls [Hf Hd]].
  eexists. exists ls. split; [exact H|]. split; [exact Hf|exact Hd].
Defined.

Lemma linearize_loop_terminates_witness :
  linearize_loop Std.eval Std.is_extended_numeral Std.mk_not true 20 0 0
    (start [And [p; Le x y]]) <> Err out_of_fuel.
Proof.
  refine (proj1 (linearize_loop_terminates Std.eval Std.is_extended_numeral
                   Std.mk_not true Std_mk_not_weight 20
                   (start [And [p; Le x y]]) _)).
  vm_compute. lia.
Defined.

Lemma negated_distinct_without_equal_witness :
  run_linearize (Not (Distinct [x; y])) (start []) =
  Ok (true,
      set_mbo (set_ev (start []) (set_model_completion true (ev (start []))))
        (add_constraint [] 0 t_le (mbo (start [])))).
Proof.
  apply (negated_distinct_without_equal Std.eval Std.is_extended_numeral
           Std.mk_not 1 x [y] [(x, inject_Z 0); (y, inject_Z 1)] (start [])
           eq_refl eq_refl).
  repeat constructor. intros E. discriminate.
Defined.

Lemma nonlinear_vars_kept_witness :
  split_vars
    (mark_roots false [x]
       (mk_lin_state mbo_empty (ev (start [])) []
          [(Mul [x; y], 0%nat); (x, 1%nat)]))
    [(Mul [x; y], 0%nat); (x, 1%nat)] [x] = Ok ([], [x]) /\
  In x [x].
Proof.
  split; [reflexivity|].
  exact (nonlinear_vars_kept false [x]
           (mk_lin_state mbo_empty (ev (start [])) []
              [(Mul [x; y], 0%nat); (x, 1%nat)])
           [] [x] eq_refl x (Mul [x; y]) 0%nat
           (or_introl eq_refl) eq_refl eq_refl eq_refl eq_refl eq_refl).
Defined.

Lemma maximize_updates_model_witness :
  exists o,
    run_maximize_open [Lt u (rnum 7)] mdl u = Ok o /\
    Std.lookup "u" SReal (m_interp (max_model o)) = Some (rnum 6).
Proof.
  eassert (H : run_maximize_open [Lt u (rnum 7)] mdl u = Ok _)
    by reflexivity.
  eexists. split; [exact H|].
  destruct (maximize_updates_model Std.eval Std.is_extended_numeral
              Std.mk_not true (fun _ => open_sup) (fun _ _ => inject_Z 6)
              false _ _ _ _ H) as [s3 [Hs [_ [_ [Hin _]]]]].
  assert (Hf : find (tids s3) u = Some 0%nat).
  { unfold maximize_setup in Hs. simpl in Hs. inversion Hs. reflexivity. }
  exact (Hin _ _ _ Hf).
Defined.

Lemma from_def_value_witness :
  exists t,
    from_def Std.mk_add_simplify 0 []
      (def_add (def_var (Var.mk 1 (inject_Z 2))) (def_const (inject_Z 3)))
      true [Some x; Some y] = Ok t /\
    forall rho,
      term_value rho t ==
      inject_Z 2 * term_value rho (nth 1 [x; y] x) + inject_Z 3.
Proof.
  apply (from_def_value Std.mk_add_simplify 0 [] [Some x; Some y] true
           (fun id => nth id [x; y] x)
           (def_add (def_var (Var.mk 1 (inject_Z 2)))
              (def_const (inject_Z 3))) eq_refl).
  intros id [<-|[]]. reflexivity.
Defined.

(** C10. [updt_params] assigns the six fields [m_hi_div0], [m_bv_reflect],
    [m_bv_enable_int2bv2int], [m_bv_delay], [m_bv_size_reduce] and
    [m_bv_solver] from the parameter set, and leaves every other field
    ([m_bv_mode], [m_bv_lazy_le], [m_bv_cc], [m_bv_blast_max_size],
    and the two fields [m_bv_eq_axioms] and [m_bv_watch_diseq] that
    only the header names) as it was, for every parameter set and
    every object. *)
Theorem updt_params_frame :
  forall (params_ref : Type)
         (hi_div0 bv_reflect bv_enable_int2bv bv_delay bv_size_reduce
            : params_ref -> bool)
         (bv_solver : params_ref -> N)
         (p : params_ref) (this : BvParams.theory_bv_params),
    let this' := BvParams.updt_params params_ref hi_div0 bv_reflect
                   bv_enable_int2bv bv_delay bv_size_reduce bv_solver p this in
    (BvParams.m_hi_div0 this' = hi_div0 p /\
     BvParams.m_bv_reflect this' = bv_reflect p /\
     BvParams.m_bv_enable_int2bv2int this' = bv_enable_int2bv p /\
     BvParams.m_bv_delay this' = bv_delay p /\
     BvParams.m_bv_size_reduce this' = bv_size_reduce p /\
     BvParams.m_bv_solver this' = bv_solver p) /\
    (BvParams.m_bv_mode this' = BvParams.m_bv_mode this /\
     BvParams.m_bv_lazy_le this' = BvParams.m_bv_lazy_le this /\
     BvParams.m_bv_cc this' = BvParams.m_bv_cc this /\
     BvParams.m_bv_blast_max_size this' = BvParams.m_bv_blast_max_size this /\
     BvParams.m_bv_eq_axioms this' = BvParams.m_bv_eq_axioms this /\
     BvParams.m_bv_watch_diseq this' = BvParams.m_bv_watch_diseq this).
Proof.
  intros. subst this'. unfold BvParams.updt_params. simpl.
  repeat split.
Qed.

(** ** [theory_bv_params::display] *)













